(** * Highlight selection and caption rendering of [processing.py]

  A shallow embedding of the transcript parser, the highlight scorer,
  the window selector, the subtitle time formatter and the clip
  renderer, followed by the properties the specification states about
  them.

  Numbers.  The parser's time conversion [_srt_time_to_sec] is embedded
  bit for bit on IEEE-754 binary64 values ([spec_float] at precision
  53), because the specification speaks about its exactness.  From a
  parsed entry onwards a time is carried as the exact rational value of
  its float.  The two time formatters truncate a float product,
  [(t - int(t)) * 100] and [(t - int(t)) * 1000]: that product is
  rounded to binary64 ([F64.round]) before it is truncated, as it is in
  the source.  Their other operations are exact on the floats they meet
  (a remainder, a floor quotient and the fractional part of a time
  below [2^53] are floats) and are written over the rationals ([Q]).
  The arithmetic of the scorer and of the selector is the arithmetic of
  the source read over the rationals: comparisons are exact there as
  they are on floats, sums, differences, products and quotients are not
  rounded.

  Text.  A Python [str] is a [string] of 8-bit characters; the character
  classes are the ASCII parts of Python's ([str.isspace], [\d], [\s],
  [str.lower]). *)

From Stdlib Require Import List String Ascii Bool Arith ZArith QArith Qround
Qminmax Qabs Lia Lqa Permutation Sorted.
From Stdlib Require Import SpecFloat DecimalString.
From Stdlib Require DecimalPos DecimalN.
Import ListNotations.

Local Open Scope string_scope.
Local Open Scope list_scope.
Local Open Scope Z_scope.

(** ** Exceptions *)

(** The Python exceptions the embedded code can raise, and the result of a
  call that may raise. *)
Inductive exn : Type :=
| ValueError
| OverflowError
| RuntimeError (msg : string).

Inductive res (A : Type) : Type :=
| Ok (a : A)
| Raise (e : exn).
Arguments Ok {A} a.
Arguments Raise {A} e.

Definition bind {A B : Type} (r : res A) (k : A -> res B) : res B :=
match r with
| Ok a => k a
| Raise e => Raise e
end.

Notation "x <- r ;; k" := (bind r (fun x => k))
(at level 61, r at next level, right associativity).

(** ** Python strings *)

Module Py.

Definition is_digit (c : ascii) : bool :=
  let n := nat_of_ascii c in (48 <=? n)%nat && (n <=? 57)%nat.

(** [str.isspace] on the ASCII range: TAB..CR, FS..US and the space. *)
Definition is_space (c : ascii) : bool :=
  let n := nat_of_ascii c in
  ((9 <=? n)%nat && (n <=? 13)%nat) || ((28 <=? n)%nat && (n <=? 32)%nat).

Definition digit_value (c : ascii) : Z := Z.of_nat (nat_of_ascii c) - 48.

(** [str.lower] on the ASCII range. *)
Definition lower_char (c : ascii) : ascii :=
  let n := nat_of_ascii c in
  if (65 <=? n)%nat && (n <=? 90)%nat then ascii_of_nat (n + 32) else c.

Fixpoint lower (s : string) : string :=
  match s with
  | EmptyString => EmptyString
  | String c r => String (lower_char c) (lower r)
  end.

(** [s.lstrip()], [s.rstrip()] and [s.strip()]. *)
Fixpoint lstrip (s : string) : string :=
  match s with
  | EmptyString => EmptyString
  | String c r => if is_space c then lstrip r else s
  end.

Fixpoint rstrip (s : string) : string :=
  match s with
  | EmptyString => EmptyString
  | String c r =>
      match rstrip r with
      | EmptyString => if is_space c then EmptyString else String c EmptyString
      | r' => String c r'
      end
  end.

Definition strip (s : string) : string := rstrip (lstrip s).

(** [s.split()]: the maximal runs of non-space characters.  [cur] is the
    run being read, in reverse. *)
Fixpoint rev_string (s acc : string) : string :=
  match s with
  | EmptyString => acc
  | String c r => rev_string r (String c acc)
  end.

Fixpoint split_ws_from (cur : string) (s : string) : list string :=
  match s with
  | EmptyString =>
      match cur with
      | EmptyString => []
      | _ => [rev_string cur EmptyString]
      end
  | String c r =>
      if is_space c then
        match cur with
        | EmptyString => split_ws_from EmptyString r
        | _ => rev_string cur EmptyString :: split_ws_from EmptyString r
        end
      else split_ws_from (String c cur) r
  end.

Definition split_ws (s : string) : list string := split_ws_from EmptyString s.

(** [s.split(sep)] for a one-character separator: never empty, one more
    field than there are separators. *)
Fixpoint split_on (sep : ascii) (s : string) : list string :=
  match s with
  | EmptyString => [EmptyString]
  | String c r =>
      if Ascii.eqb c sep then EmptyString :: split_on sep r
      else
        match split_on sep r with
        | x :: xs => String c x :: xs
        | [] => [String c EmptyString]
        end
  end.

(** [kw in text]. *)
Fixpoint contains (kw text : string) : bool :=
  prefix kw text ||
  match text with
  | EmptyString => false
  | String _ r => contains kw r
  end.

(** [sep.join(parts)]. *)
Fixpoint join (sep : string) (parts : list string) : string :=
  match parts with
  | [] => EmptyString
  | [x] => x
  | x :: rest => (x ++ sep ++ join sep rest)%string
  end.

(** The digits of an integer literal: [digit (["_"] digit)*]. *)
Fixpoint int_digits (s : string) (acc : Z) (after_digit : bool) : option Z :=
  match s with
  | EmptyString => if after_digit then Some acc else None
  | String c r =>
      if is_digit c then int_digits r (10 * acc + digit_value c) true
      else if Ascii.eqb c "_" && after_digit then int_digits r acc false
           else None
  end.

(** The digit characters of a literal: the sign and the underscores are
    not counted. *)
Fixpoint count_digits (s : string) : nat :=
  match s with
  | EmptyString => O
  | String c r => if is_digit c then S (count_digits r) else count_digits r
  end.

(** [sys.int_info.default_max_str_digits]: the longest decimal literal
    [int] converts (Python 3.11, and the security releases of 3.7 to
    3.10). *)
Definition int_max_str_digits : nat := 4300.

(** [int(s)] in base 10: surrounding white space, an optional sign,
    digits; anything else raises [ValueError], and so does a literal of
    more than [int_max_str_digits] digits. *)
Definition int (s : string) : res Z :=
  let body (t : string) (sign : Z) :=
    match int_digits t 0 false with
    | Some n =>
        if (int_max_str_digits <? count_digits t)%nat then Raise ValueError
        else Ok (sign * n)
    | None => Raise ValueError
    end in
  match strip s with
  | String "+" t => body t 1
  | String "-" t => body t (-1)
  | t => body t 1
  end.

End Py.

(** ** Binary64 arithmetic *)

Module F64.

Definition prec : Z := 53.
Definition emax : Z := 1024.

Definition float : Type := spec_float.

Definition add : float -> float -> float := SFadd prec emax.
Definition mul : float -> float -> float := SFmul prec emax.
Definition div : float -> float -> float := SFdiv prec emax.

(** The float nearest to an integer, ties to even: the conversion Python
    applies to an [int] operand of a float operation.  It raises
    [OverflowError] when the integer is beyond the finite range. *)
Definition of_int (z : Z) : res float :=
  match binary_normalize prec emax z 0 false with
  | S754_infinity _ => Raise OverflowError
  | f => Ok f
  end.

(** The rational a float stands for (0 for the infinities and NaN). *)
Definition to_Q (f : float) : Q :=
  match f with
  | S754_finite s m e =>
      let n := if s then Z.neg m else Z.pos m in
      match e with
      | Z0 => inject_Z n
      | Zpos p => inject_Z (n * 2 ^ Zpos p)
      | Zneg p => Qmake n (2 ^ p)
      end
  | _ => 0%Q
  end.

(** The literal [1000.0]. *)
Definition f1000 : float := S754_finite false 8796093022208000 (-43).

(** The float nearest to a rational, ties to even: the library's
    correctly rounded quotient of the numerator by the denominator, both
    taken as exact integers. *)
Definition of_Q (q : Q) : float :=
  match Qnum q with
  | Z0 => S754_zero false
  | Zpos n => div (S754_finite false n 0) (S754_finite false (Qden q) 0)
  | Zneg n => div (S754_finite true n 0) (S754_finite false (Qden q) 0)
  end.

(** The value of a float operation whose exact result is [q]: [q]
    rounded to binary64.  For the product of two floats it is the value
    of [mul]. *)
Definition round (q : Q) : Q := to_Q (of_Q q).

End F64.

(** ** TranscriptParser *)

(** A parsed transcript entry: the dict with the keys ["start"], ["end"]
  and ["text"]. *)
Record entry : Type := mkEntry {
e_start : Q;
e_end : Q;
e_text : string
}.

(** [_srt_time_to_sec]: [ts.split(":")] must give three fields and
  [rest.split(",")] two, else the unpacking raises [ValueError]; the sum
  [int(h)*3600 + int(m)*60 + int(s)] is an exact integer, converted to a
  float for the last addition; [int(ms)/1000.0] is a float division. *)
Definition _srt_time_to_sec (ts : string) : res F64.float :=
match Py.split_on ":" ts with
| [h; m; rest] =>
    match Py.split_on "," rest with
    | [s; ms] =>
        h' <- Py.int h ;;
        m' <- Py.int m ;;
        s' <- Py.int s ;;
        ms' <- Py.int ms ;;
        frac <- F64.of_int ms' ;;
        whole <- F64.of_int (h' * 3600 + m' * 60 + s') ;;
        Ok (F64.add whole (F64.div frac F64.f1000))
    | _ => Raise ValueError
    end
| _ => Raise ValueError
end.

(** The time-line pattern
  [.*?(\d+:\d+:\d+,\d+)\s+-->\s+(\d+:\d+:\d+,\d+)] under [re.match].
  Every [\d+] and [\s+] but the last is followed by a character outside
  its class, so it can only take the whole run; the last [\d+] is greedy
  and takes the whole run too.  The lazy [.*?] tries the offsets from 0
  upwards and never crosses a newline. *)
Module TimeLine.

Notation "'let?' p := e 'in' k" :=
  (match e with Some p => k | None => None end)
  (at level 10, p pattern, e at level 100, k at level 200).

Fixpoint span (p : ascii -> bool) (s : string) : string * string :=
  match s with
  | EmptyString => (EmptyString, EmptyString)
  | String c r =>
      if p c then let (run, rest) := span p r in (String c run, rest)
      else (EmptyString, s)
  end.

Definition many1 (p : ascii -> bool) (s : string) : option (string * string) :=
  match span p s with
  | (EmptyString, _) => None
  | found => Some found
  end.

Fixpoint lit (l s : string) : option string :=
  match l, s with
  | EmptyString, _ => Some s
  | String a l', String b s' => if Ascii.eqb a b then lit l' s' else None
  | String _ _, EmptyString => None
  end.

(** [\d+:\d+:\d+,\d+]: the text matched and what follows it. *)
Definition stamp (s : string) : option (string * string) :=
  let? (h, s1) := many1 Py.is_digit s in
  let? s2 := lit ":" s1 in
  let? (m, s3) := many1 Py.is_digit s2 in
  let? s4 := lit ":" s3 in
  let? (sec, s5) := many1 Py.is_digit s4 in
  let? s6 := lit "," s5 in
  let? (ms, s7) := many1 Py.is_digit s6 in
  Some ((h ++ ":" ++ m ++ ":" ++ sec ++ "," ++ ms)%string, s7).

(** The pattern after [.*?]: groups 1 and 2. *)
Definition here (s : string) : option (string * string) :=
  let? (g1, s1) := stamp s in
  let? (_, s2) := many1 Py.is_space s1 in
  let? s3 := lit "-->" s2 in
  let? (_, s4) := many1 Py.is_space s3 in
  let? (g2, _) := stamp s4 in
  Some (g1, g2).

Definition newline : ascii := ascii_of_nat 10.

Fixpoint re_match (s : string) : option (string * string) :=
  match here s with
  | Some groups => Some groups
  | None =>
      match s with
      | EmptyString => None
      | String c r => if Ascii.eqb c newline then None else re_match r
      end
  end.

End TimeLine.

(** [_parse_block]: [None] for a block that is too short or whose second
  line carries no time stamps. *)
Definition _parse_block (block : list string) : res (option entry) :=
if (List.length block <? 3)%nat then Ok None
else
  let time_line := nth 1 block EmptyString in
  match TimeLine.re_match time_line with
  | None => Ok None
  | Some (g1, g2) =>
      t0 <- _srt_time_to_sec g1 ;;
      t1 <- _srt_time_to_sec g2 ;;
      Ok (Some {| e_start := F64.to_Q t0;
                  e_end := F64.to_Q t1;
                  e_text := Py.strip (Py.join " " (skipn 2 block)) |})
  end.

Definition is_blank (line : string) : bool :=
match Py.strip line with
| EmptyString => true
| _ => false
end.

(** The loop of [_parse_srt] over the lines of the file, each without its
  line terminator; [block] and [entries] are the two accumulators. *)
Fixpoint parse_lines (lines block : list string) (entries : list (option entry))
: res (list (option entry)) :=
match lines with
| [] =>
    match block with
    | [] => Ok entries
    | _ => e <- _parse_block block ;; Ok (entries ++ [e])
    end
| line :: rest =>
    if is_blank line then
      match block with
      | [] => parse_lines rest block entries
      | _ => e <- _parse_block block ;; parse_lines rest [] (entries ++ [e])
      end
    else parse_lines rest (block ++ [line]) entries
end.

(** [[e for e in entries if e]]. *)
Fixpoint drop_nones {A : Type} (l : list (option A)) : list A :=
match l with
| [] => []
| Some a :: r => a :: drop_nones r
| None :: r => drop_nones r
end.

Definition _parse_srt (lines : list string) : res (list entry) :=
es <- parse_lines lines [] [] ;; Ok (drop_nones es).

(** ** HighlightScorer *)

Local Open Scope Q_scope.

Definition Qltb (x y : Q) : bool := negb (Qle_bool y x).

Definition KEYWORDS : list string :=
["tip"; "secret"; "mistake"; "common"; "best"; "worst"; "always"; "never";
 "how to"; "here's"; "watch this"; "listen"; "idea"; "hack"; "strategy";
 "story"; "example"; "because"; "why"; "myth"; "truth"]%string.

(** An entry after the scoring loop has stored its ["score"]. *)
Record sentry : Type := mkScored {
s_entry :> entry;
e_score : Q
}.

(** The body of the scoring loop of [find_highlights] for one entry. *)
Definition score_entry (e : entry) : Q :=
let text := Py.lower (e_text e) in
let score :=
  fold_left (fun score kw => if Py.contains kw text then score + 1 else score)
            KEYWORDS 0 in
let duration := e_end e - e_start e in
let words := Z.max 1 (Z.of_nat (List.length (Py.split_ws text))) in
let wps := inject_Z words / Qmax (1 # 2) duration in
score + Qmin (wps / 3) 1.

Definition score_entries (entries : list entry) : list sentry :=
map (fun e => mkScored e (score_entry e)) entries.

(** ** WindowSelector *)

Record ClipWindow : Type := mkClipWindow {
start : Q;
end_ : Q;
score : Q
}.

(** [_overlap(a, b, frac)]. *)
Definition _overlap (a b : ClipWindow) (frac : Q) : bool :=
let inter := Qmax 0 (Qmin (end_ a) (end_ b) - Qmax (start a) (start b)) in
Qle_bool (frac * Qmin (end_ a - start a) (end_ b - start b)) inter.

Section Selector.

(** What [_probe_duration(src_path)] returns (the same at every call),
    and the two parameters of [find_highlights]. *)
Variable vid_dur : Q.
Variables target_len max_clips : Z.

(** The fallback loop
    [while t < duration and len(windows) < max_clips].  Every turn
    appends a window, so [max_clips - len(windows)] turns are all the
    loop can take: that is the fuel [chop] gives it. *)
Fixpoint chop_loop (fuel : nat) (t : Q) (windows : list ClipWindow)
  : list ClipWindow :=
  match fuel with
  | O => windows
  | S fuel' =>
      if Qltb t vid_dur && (Z.of_nat (List.length windows) <? max_clips)%Z then
        chop_loop fuel' (t + inject_Z target_len)
          (windows ++ [ {| start := t;
                           end_ := Qmin (t + inject_Z target_len) vid_dur;
                           score := 1 # 10 |} ])
      else windows
  end.

Definition chop : list ClipWindow := chop_loop (Z.to_nat max_clips) 0 [].

(** The window seeded by entry [e] (lines 120-134), scored against all the
    entries. *)
Definition seed (entries : list sentry) (e : sentry) : ClipWindow :=
  let center := (e_start e + e_end e) / 2 in
  let start0 := Qmax 0 (center - inject_Z target_len / 2) in
  let end0 := start0 + inject_Z target_len in
  let '(start1, end1) :=
    if Qltb vid_dur end0
    then (Qmax 0 (vid_dur - inject_Z target_len), vid_dur)
    else (start0, end0) in
  let win_score :=
    fold_left
      (fun (acc : Q) (s : sentry) =>
         if Qltb (e_end s) start1 || Qltb end1 (e_start s) then acc
         else acc + e_score s)
      entries 0 in
  {| start := start1; end_ := end1; score := win_score |}.

(** The seeding loop: one candidate per entry scoring at least 0.5. *)
Definition seeds (entries : list sentry) : list ClipWindow :=
  map (seed entries) (filter (fun e => negb (Qltb (e_score e) (1 # 2))) entries).

(** [windows.sort(key=lambda w: w.score, reverse=True)]: descending and
    stable. *)
Fixpoint insert_desc (w : ClipWindow) (l : list ClipWindow) : list ClipWindow :=
  match l with
  | [] => [w]
  | x :: r => if Qltb (score w) (score x) then x :: insert_desc w r else w :: l
  end.

Definition sort_desc (l : list ClipWindow) : list ClipWindow :=
  fold_right insert_desc [] l.

(** The greedy pick, with its [break]. *)
Fixpoint pick (windows picked : list ClipWindow) : list ClipWindow :=
  match windows with
  | [] => picked
  | w :: rest =>
      if (max_clips <=? Z.of_nat (List.length picked))%Z then picked
      else if forallb (fun p => negb (_overlap w p (1 # 2))) picked
           then pick rest (picked ++ [w])
           else pick rest picked
  end.

(** Lines 114-152, from the scored entries on. *)
Definition select_windows (entries : list sentry) : list ClipWindow :=
  let windows := seeds entries in
  let windows := match windows with [] => chop | _ => windows end in
  pick (sort_desc windows) [].

(** Lines 89-152, from the parsed entries on. *)
Definition highlights (entries : list entry) : list ClipWindow :=
  match entries with
  | [] => chop
  | _ => select_windows (score_entries entries)
  end.

(** [find_highlights], given the lines of the transcript file. *)
Definition find_highlights (srt : list string) : res (list ClipWindow) :=
  entries <- _parse_srt srt ;; Ok (highlights entries).

End Selector.

(** ** SubtitleTrackBuilder *)

Local Open Scope string_scope.

(** [int(x)] of a float: truncation towards zero. *)
Definition int_of_Q (x : Q) : Z :=
if Qltb x 0 then Qceiling x else Qfloor x.

(** [x // y] and [x % y] for a positive [y]: on floats the remainder is
  exact, and so is the floor quotient of a time below [2^53]. *)
Definition floordiv (x y : Q) : Q := inject_Z (Qfloor (x / y)).
Definition pymod (x y : Q) : Q := x - y * inject_Z (Qfloor (x / y)).

Definition decimal (n : Z) : string :=
DecimalString.NilZero.string_of_uint (N.to_uint (Z.to_N n)).

Fixpoint zeros (n : nat) : string :=
match n with
| O => EmptyString
| S k => String "0" (zeros k)
end.

(** The format spec [0{width}d]: sign, zero padding up to [width]
  characters in all, digits. *)
Definition format_d (width : nat) (z : Z) : string :=
let digits := decimal (Z.abs z) in
let sign := if (z <? 0)%Z then "-" else "" in
sign ++ zeros (width - String.length sign - String.length digits) ++ digits.

(** [to_ass_time], the local function of [_srt_to_ass].  The difference
  [t - int(t)] is a float, the product by 100 is rounded. *)
Definition to_ass_time (t : Q) : string :=
let h := int_of_Q (floordiv t 3600) in
let m := int_of_Q (floordiv (pymod t 3600) 60) in
let s := int_of_Q (pymod t 60) in
let cs := int_of_Q (F64.round ((t - inject_Z (int_of_Q t)) * 100)) in
format_d 1 h ++ ":" ++ format_d 2 m ++ ":" ++ format_d 2 s ++ "." ++ format_d 2 cs.

Record Style : Type := mkStyle {
Fontname : string; Fontsize : string; PrimaryColour : string;
OutlineColour : string; BackColour : string; Bold : string; Italic : string;
BorderStyle : string; Outline : string; Shadow : string; Alignment : string;
MarginL : string; MarginR : string; MarginV : string; Encoding : string
}.

Definition default_style : Style :=
{| Fontname := "Arial Black"; Fontsize := "48"; PrimaryColour := "&H00FFFFFF";
   OutlineColour := "&H00000000"; BackColour := "&H80000000"; Bold := "1";
   Italic := "0"; BorderStyle := "3"; Outline := "3"; Shadow := "0";
   Alignment := "2"; MarginL := "80"; MarginR := "80"; MarginV := "60";
   Encoding := "1" |}.

Definition ASS_STYLES : list (string * Style) := [("default", default_style)].

Fixpoint dict_get {V : Type} (d : list (string * V)) (k : string) (dflt : V) : V :=
match d with
| [] => dflt
| (k', v) :: r => if String.eqb k' k then v else dict_get r k dflt
end.

Definition nl : string := String TimeLine.newline EmptyString.

Definition _ass_header (style_name : string) : string :=
let s := dict_get ASS_STYLES style_name default_style in
let head := "[Script Info]" ++ nl ++ "ScriptType: v4.00+" ++ nl
            ++ "PlayResX: 1080" ++ nl ++ "PlayResY: 1920" ++ nl ++ nl in
let styles :=
  "[V4+ Styles]" ++ nl
  ++ "Format: Name, Fontname, Fontsize, PrimaryColour, SecondaryColour, OutlineColour, BackColour, "
  ++ "Bold, Italic, Underline, StrikeOut, ScaleX, ScaleY, Spacing, Angle, BorderStyle, Outline, Shadow, "
  ++ "Alignment, MarginL, MarginR, MarginV, Encoding" ++ nl
  ++ "Style: Default," ++ Fontname s ++ "," ++ Fontsize s ++ "," ++ PrimaryColour s
  ++ ",&H000000FF," ++ OutlineColour s ++ "," ++ BackColour s ++ ","
  ++ Bold s ++ "," ++ Italic s ++ ",0,0,100,100,0,0," ++ BorderStyle s ++ ","
  ++ Outline s ++ "," ++ Shadow s ++ ","
  ++ Alignment s ++ "," ++ MarginL s ++ "," ++ MarginR s ++ "," ++ MarginV s ++ ","
  ++ Encoding s ++ nl ++ nl in
let events :=
  "[Events]" ++ nl
  ++ "Format: Layer, Start, End, Style, Name, MarginL, MarginR, MarginV, Effect, Text"
  ++ nl in
head ++ styles ++ events.

(** [s.replace(c, by)] for a one-character [c]. *)
Fixpoint replace_char (c : ascii) (by_ : string) (s : string) : string :=
match s with
| EmptyString => EmptyString
| String a r =>
    if Ascii.eqb a c then by_ ++ replace_char c by_ r
    else String a (replace_char c by_ r)
end.

Definition dialogue (e : entry) : string :=
let t0 := to_ass_time (e_start e) in
let t1 := to_ass_time (e_end e) in
let txt :=
  replace_char "}" "\}"
    (replace_char "{" "\{" (replace_char TimeLine.newline " " (e_text e))) in
"Dialogue: 0," ++ t0 ++ "," ++ t1 ++ ",Default,,0,0,0,," ++ txt ++ nl.

(** [_srt_to_ass]: what it writes to [ass_path]. *)
Definition _srt_to_ass (srt : list string) (style_name : string) : res string :=
entries <- _parse_srt srt ;;
Ok (_ass_header style_name ++ String.concat "" (map dialogue entries)).

(** ** ClipPlanner *)

Definition _aspect_filter (aspect : string) : Z * Z * string :=
if String.eqb aspect "9:16" then
  (1080, 1920, "scale=1080:1920:force_original_aspect_ratio=increase,crop=1080:1920")%Z
else if String.eqb aspect "1:1" then
  (1080, 1080, "scale=1080:1080:force_original_aspect_ratio=increase,crop=1080:1080")%Z
else
  (1920, 1080, "scale=1920:1080:force_original_aspect_ratio=increase,crop=1920:1080")%Z.

(** The parts of the encoder command line that vary from clip to clip or
  call to call; the seek offset and the length are kept as numbers. *)
Record RenderJob : Type := mkJob {
job_ss : Q;
job_t : Q;
job_vf : string;
job_out : string
}.

Record ManifestEntry : Type := mkManifest {
m_file : string;
m_start : Q;
m_end : Q;
m_score : Q;
m_width : Z;
m_height : Z
}.

(** [round(x, 3)]: to the nearest thousandth, ties to the even one. *)
Definition round_half_even (x : Q) : Z :=
let f := Qfloor x in
let r := (x - inject_Z f)%Q in
if Qltb r (1 # 2) then f
else if Qltb (1 # 2) r then (f + 1)%Z
     else if Z.even f then f else (f + 1)%Z.

Definition round3 (x : Q) : Q := (inject_Z (round_half_even (x * 1000)) / 1000)%Q.

Section Render.

(** The encoder collaborator: the exit status of the process started
    for a job. *)
Variable encoder : RenderJob -> Z.

(** [run(cmd)]. *)
Definition run (cmd : RenderJob) : res Z :=
  let returncode := encoder cmd in
  if (returncode =? 0)%Z then Ok returncode
  else Raise (RuntimeError ("Command failed: " ++ job_out cmd)).

Definition job_of (vf_aspect : string) (idx : nat) (clip : ClipWindow) : RenderJob :=
  {| job_ss := Qmax 0 (start clip);
     job_t := Qmax (1 # 10) (end_ clip - start clip);
     job_vf := vf_aspect ++ ",subtitles='captions.ass':force_style='Alignment=2'";
     job_out := "clip_" ++ format_d 2 (Z.of_nat idx) ++ ".mp4" |}.

(** The loop over [enumerate(clips, start=1)].  The first component of
    the result is the list of the jobs handed to the encoder, in order:
    the effect of the loop; the second is its outcome. *)
Fixpoint render_loop (w h : Z) (vf_aspect : string) (clips : list ClipWindow)
    (idx : nat) (manifest : list ManifestEntry) (ran : list RenderJob)
  : list RenderJob * res (list ManifestEntry) :=
  match clips with
  | [] => (ran, Ok manifest)
  | clip :: rest =>
      let cmd := job_of vf_aspect idx clip in
      match run cmd with
      | Raise e => ((ran ++ [cmd])%list, Raise e)
      | Ok _ =>
          render_loop w h vf_aspect rest (S idx)
            (manifest ++ [ {| m_file := "clip_" ++ format_d 2 (Z.of_nat idx) ++ ".mp4";
                              m_start := round3 (start clip);
                              m_end := round3 (end_ clip);
                              m_score := round3 (score clip);
                              m_width := w;
                              m_height := h |} ])%list
            (ran ++ [cmd])%list
      end
  end.

Definition render_clips_with_captions (srt : list string)
    (clips : list ClipWindow) (aspect style : string)
  : list RenderJob * res (list ManifestEntry) :=
  match _srt_to_ass srt style with
  | Raise e => ([], Raise e)
  | Ok _ =>
      let '(w, h, vf_aspect) := _aspect_filter aspect in
      render_loop w h vf_aspect clips 1 [] []
  end.

End Render.

(** * Transcription *)

(** [_sec_to_srt_time].  The difference [t - int(t)] is a float, the
    product by 1000 is rounded. *)
Definition _sec_to_srt_time (t : Q) : string :=
  let h := int_of_Q (floordiv t 3600) in
  let m := int_of_Q (floordiv (pymod t 3600) 60) in
  let s := int_of_Q (pymod t 60) in
  let ms := int_of_Q (F64.round ((t - inject_Z (int_of_Q t)) * 1000)) in
  format_d 2 h ++ ":" ++ format_d 2 m ++ ":" ++ format_d 2 s ++ "," ++ format_d 3 ms.

(** A segment of the transcription result: the keys ["start"], ["end"]
    and ["text"] of an element of [result["segments"]]. *)
Record segment : Type := mkSegment {
  seg_start : Q;
  seg_end : Q;
  seg_text : string
}.

(** One element of [lines] in [transcribe_to_srt], for the segment at
    position [i] of the enumeration. *)
Definition srt_lines_of (i : nat) (seg : segment) : string :=
  let idx := (Z.of_nat i + 1)%Z in
  let start := _sec_to_srt_time (seg_start seg) in
  let end' := _sec_to_srt_time (seg_end seg) in
  let text := Py.strip (seg_text seg) in
  format_d 0 idx ++ nl ++ start ++ " --> " ++ end' ++ nl ++ text ++ nl.

Fixpoint enumerate_from {A : Type} (i : nat) (l : list A) : list (nat * A) :=
  match l with
  | [] => []
  | x :: r => (i, x) :: enumerate_from (S i) r
  end.

(** [transcribe_to_srt], from the segments the transcription engine
    returned: what it writes to [srt_out]. *)
Definition transcribe_to_srt (segments : list segment) : string :=
  Py.join nl (map (fun p => srt_lines_of (fst p) (snd p)) (enumerate_from 0 segments)).

(** The lines a text file yields when it is read back ([for line in f],
    each with its terminator taken off): a line ends at ["\n"], ["\r\n"]
    or ["\r"], and a last line may lack its terminator. *)
Definition carriage_return : ascii := ascii_of_nat 13.

Fixpoint file_lines (content : string) : list string :=
  match content with
  | EmptyString => []
  | String c r =>
      if Ascii.eqb c TimeLine.newline then EmptyString :: file_lines r
      else if Ascii.eqb c carriage_return then
             match r with
             | String c' r' =>
                 if Ascii.eqb c' TimeLine.newline then EmptyString :: file_lines r'
                 else EmptyString :: file_lines r
             | EmptyString => [EmptyString]
             end
           else
             match file_lines r with
             | [] => [String c EmptyString]
             | l :: ls => String c l :: ls
             end
  end.

(** * Specification-side definitions *)

(** ** Digit strings *)

(** A non-empty run of decimal digits, and the number it denotes. *)
Fixpoint all_digits (s : string) : bool :=
  match s with
  | EmptyString => true
  | String c r => Py.is_digit c && all_digits r
  end.

Definition numeral (s : string) : Prop := s <> EmptyString /\ all_digits s = true.

Fixpoint value_from (acc : Z) (s : string) : Z :=
  match s with
  | EmptyString => acc
  | String c r => value_from (10 * acc + Py.digit_value c) r
  end.

Definition value (s : string) : Z := value_from 0 s.

(** What [int] makes of a numeral: its value, unless the numeral is
    longer than the limit. *)
Definition numeral_value (s : string) : res Z :=
  if (Py.int_max_str_digits <? String.length s)%nat then Raise ValueError
  else Ok (value s).

(** The stamp [H:MM:SS,mmm] written with the numerals [h], [m], [s], [ms]. *)
Definition stamp_text (h m s ms : string) : string :=
  h ++ ":" ++ m ++ ":" ++ s ++ "," ++ ms.

(** The value the specification gives it, in exact arithmetic. *)
Definition stamp_exact (h m s ms : Z) : Q :=
  (inject_Z h * 3600 + inject_Z m * 60 + inject_Z s + inject_Z ms / 1000)%Q.

(** The value the source expression has on floats: an exact integer sum,
    a rounded division and a rounded addition. *)
Definition stamp_float (h m s ms : Z) : res F64.float :=
  frac <- F64.of_int ms ;;
  whole <- F64.of_int (h * 3600 + m * 60 + s) ;;
  Ok (F64.add whole (F64.div frac F64.f1000)).

(** The float [62.5]. *)
Definition f62_5 : F64.float := S754_finite false 8796093022208000 (-47).

(** ** Binary64 times *)

(** A finite float that is not negative: what a time is. *)
Definition finite_nonneg (f : F64.float) : bool :=
  valid_binary F64.prec F64.emax f
  && match f with
     | S754_zero _ | S754_finite false _ _ => true
     | _ => false
     end.

(** The float a stamp fraction [,n] is parsed to, and the two factors of
    the time formatters. *)
Definition thousandth (n : nat) : F64.float := F64.of_Q (Z.of_nat n # 1000).
Definition f100 : F64.float := S754_finite false 7036874417766400 (-46).

(** The floats nearest to 125.456 and to 0.83, and the float 83. *)
Definition f125_456 : F64.float := S754_finite false 8828181169553015 (-46).
Definition f0_83 : F64.float := S754_finite false 7475975381435023 (-53).
Definition f83 : F64.float := S754_finite false 5840605766746112 (-46).

(** The rational [N / D] lies in the slot of [shr_m r] that the round bit
    and the sticky bit of the record [r] say:  on its lower end, in its
    lower half, in its middle or in its upper half. *)
Definition locates (N D : Z) (r : shr_record) : Prop :=
  (0 <= shr_m r /\
   match shr_r r, shr_s r with
   | false, false => N = shr_m r * D
   | false, true => shr_m r * D < N /\ 2 * N < (2 * shr_m r + 1) * D
   | true, false => 2 * N = (2 * shr_m r + 1) * D
   | true, true => (2 * shr_m r + 1) * D < 2 * N /\ N < (shr_m r + 1) * D
   end)%Z.

(** ** The score, as the specification words it *)

(** A case-insensitive substring match. *)
Definition ci_contains (kw text : string) : bool :=
  Py.contains (Py.lower kw) (Py.lower text).

(** How many keywords of the set match the text. *)
Definition keyword_matches (text : string) : nat :=
  List.length (filter (fun kw => ci_contains kw text) KEYWORDS).

(** The number of white-space delimited tokens. *)
Definition word_count (text : string) : nat := List.length (Py.split_ws text).

Definition words_per_second (e : entry) : Q :=
  inject_Z (Z.of_nat (word_count (e_text e))) / Qmax (1 # 2) (e_end e - e_start e).

Definition spec_score (e : entry) : Q :=
  inject_Z (Z.of_nat (keyword_matches (e_text e)))
  + Qmin (words_per_second e / 3) 1.

(** A text with a character that is not a space has a token. *)
Fixpoint has_ink (s : string) : bool :=
  match s with
  | EmptyString => false
  | String c r => negb (Py.is_space c) || has_ink r
  end.

(** ** What the parser guarantees about an entry's text *)

Definition worded (e : entry) : Prop := has_ink (e_text e) = true.

Definition worded_opt (oe : option entry) : Prop :=
  match oe with
  | Some e => worded e
  | None => True
  end.

Definition sample_srt : list string :=
  ["1"; "00:00:07,000 --> 00:00:09,000"; "Here's the BEST tip"].

(** ** Monotonicity of the scorer *)

(** The entry [e] with [suffix] appended to its text. *)
Definition append_text (e : entry) (suffix : string) : entry :=
  {| e_start := e_start e; e_end := e_end e; e_text := e_text e ++ suffix |}.

(** ** The shape of a window *)

(** [0 <= start < end <= duration]. *)
Definition within (d : Q) (w : ClipWindow) : Prop :=
  0 <= start w /\ start w < end_ w /\ end_ w <= d.

(** ** Overlap *)

Definition dur (w : ClipWindow) : Q := end_ w - start w.

Definition inter_len (a b : ClipWindow) : Q :=
  Qmax 0 (Qmin (end_ a) (end_ b) - Qmax (start a) (start b)).

(** The intersection is at least half the shorter of the two windows. *)
Definition overlapping (a b : ClipWindow) : Prop :=
  (1 # 2) * Qmin (dur a) (dur b) <= inter_len a b.

(** Two windows with the same bounds and the same score. *)
Definition weq (a b : ClipWindow) : Prop :=
  start a == start b /\ end_ a == end_ b /\ score a == score b.

Definition weqb (a b : ClipWindow) : bool :=
  Qeq_bool (start a) (start b) && Qeq_bool (end_ a) (end_ b)
  && Qeq_bool (score a) (score b).

(** How many windows of [l] equal [w]. *)
Definition copies (w : ClipWindow) (l : list ClipWindow) : nat :=
  List.length (filter (weqb w) l).

(** ** The sequential chop *)

(** The [k]-th window of the chop: [[k L, min ((k+1) L, d)]], score 0.1. *)
Definition chop_window (d : Q) (L : Z) (k : nat) : ClipWindow :=
  {| start := inject_Z (Z.of_nat k) * inject_Z L;
     end_ := Qmin ((inject_Z (Z.of_nat k) + 1) * inject_Z L) d;
     score := 1 # 10 |}.

(** The chop in closed form, for [L > 0]: it stops at the duration, after
    [ceil (d / L)] windows, or after [M] windows. *)
Definition chop_spec (d : Q) (L M : Z) : list ClipWindow :=
  map (chop_window d L)
      (seq 0 (Z.to_nat (Z.min M (Qceiling (d / inject_Z L))))).

(** ** Seeds *)

Definition midpoint (e : entry) : Q := (e_start e + e_end e) / 2.

(** A transcript of three entries: the first seeds [[0.5, 15.5]], the
    other two share the midpoint 7.5 and seed [[0, 15]]. *)
Definition srt_shared_midpoint : list string :=
  [ "1"; "00:00:07,000 --> 00:00:09,000"; "tip"; "";
    "2"; "00:00:06,500 --> 00:00:08,500"; "tip"; "";
    "3"; "00:00:06,500 --> 00:00:08,500"; "tip" ].

(** ** Two-digit fields *)

Definition digit_char (z : Z) : ascii := ascii_of_nat (48 + Z.to_nat z).

(** The two decimal digits of a number below 100. *)
Definition two_digits (z : Z) : string :=
  String (digit_char (z / 10)) (String (digit_char (z mod 10)) EmptyString).

(** ** The dialogue time stamp *)

(** [H:MM:SS.cc] for a whole number [c] of centiseconds. *)
Definition centis_text (c : Z) : string :=
  format_d 1 (c / 360000) ++ ":" ++ two_digits (c / 6000 mod 60) ++ ":"
  ++ two_digits (c / 100 mod 60) ++ "." ++ two_digits (c mod 100).

(** ** The transcript time stamp *)

(** [HH:MM:SS,mmm] for a whole number [w] of milliseconds. *)
Definition millis_text (w : Z) : string :=
  stamp_text (format_d 2 (w / 3600000)) (format_d 2 (w / 60000 mod 60))
             (format_d 2 (w / 1000 mod 60)) (format_d 3 (w mod 1000)).

(** ** The render batch *)

(** The jobs of a batch, numbered from [idx]. *)
Fixpoint jobs_from (vf_aspect : string) (idx : nat) (clips : list ClipWindow)
  : list RenderJob :=
  match clips with
  | [] => []
  | clip :: rest => job_of vf_aspect idx clip :: jobs_from vf_aspect (S idx) rest
  end.

Definition fails_on (name : string) (j : RenderJob) : Z :=
  if String.eqb (job_out j) name then 1%Z else 0%Z.

(** A text is a stamp when it is made of four numerals in the layout
    [H:M:S,ms]. *)
Definition is_stamp (g : string) : Prop :=
  exists h m s ms,
    numeral h /\ numeral m /\ numeral s /\ numeral ms /\ g = stamp_text h m s ms.

(** A line longer than the longest literal [int] converts. *)
Definition long_line (l : string) : Prop :=
  (Py.int_max_str_digits < String.length l)%nat.

(** A numeral of 4301 digits. *)
Definition endless_numeral : string :=
  String "1" (String.concat "" (repeat "0000000000" 430)).

(** A numeral of 310 digits, beyond the range of a float. *)
Definition huge_numeral : string :=
  String "1" (String.concat "" (repeat "0000000000" 31)).

(** ** How many entries a transcript has *)

Definition inked_lines (lines : list string) : nat :=
  List.length (filter (fun l => negb (is_blank l)) lines).

(** ** Which entries seed a candidate *)

(** Words per second as the scorer computes it: at least one word, at
    least half a second. *)
Definition pace (e : entry) : Q :=
  inject_Z (Z.max 1 (Z.of_nat (word_count (e_text e))))
  / Qmax (1 # 2) (e_end e - e_start e).

(** ** The sort *)

Definition by_score_desc (a b : ClipWindow) : Prop := score b <= score a.

(** The windows of [l] whose score is [c], in the order of [l]. *)
Definition with_score (c : Q) (l : list ClipWindow) : list ClipWindow :=
  filter (fun w => Qeq_bool (score w) c) l.

(** ** What the greedy pick returns *)

(** The candidates the pick chooses from: the seeds, or the chop when
    there is no seed. *)
Definition candidates (d : Q) (L M : Z) (entries : list sentry) : list ClipWindow :=
  match seeds d L entries with
  | [] => chop d L M
  | found => found
  end.

(** ** The aggregate score of a candidate *)

Definition seed_score_step (a b : Q) (acc : Q) (s : sentry) : Q :=
  if Qltb (e_end s) a || Qltb b (e_start s) then acc else acc + e_score s.

(** ** A batch that succeeds *)

(** The manifest of a batch, numbered from [idx]. *)
Fixpoint manifest_from (w h : Z) (idx : nat) (clips : list ClipWindow)
  : list ManifestEntry :=
  match clips with
  | [] => []
  | clip :: rest =>
      {| m_file := "clip_" ++ format_d 2 (Z.of_nat idx) ++ ".mp4";
         m_start := round3 (start clip);
         m_end := round3 (end_ clip);
         m_score := round3 (score clip);
         m_width := w;
         m_height := h |} :: manifest_from w h (S idx) rest
  end.

(** ** Dialogue lines *)

Fixpoint count_char (c : ascii) (s : string) : nat :=
  match s with
  | EmptyString => 0
  | String a r => (if Ascii.eqb a c then 1 else 0) + count_char c r
  end.

(** The text of a dialogue line: line breaks made spaces, braces
    escaped. *)
Definition sanitized (text : string) : string :=
  replace_char "}" "\}"
    (replace_char "{" "\{" (replace_char TimeLine.newline " " text)).

(** Every brace comes right after a backslash; [after_backslash] tells
    whether the character before the text is one. *)
Fixpoint braces_escaped (after_backslash : bool) (s : string) : bool :=
  match s with
  | EmptyString => true
  | String c r =>
      (if Ascii.eqb c "{" || Ascii.eqb c "}" then after_backslash else true)
      && braces_escaped (Ascii.eqb c "\") r
  end.

(** The text does not start with a character of the class. *)
Definition stops (p : ascii -> bool) (s : string) : Prop :=
  match s with
  | EmptyString => True
  | String c _ => p c = false
  end.

(** ** Writing a transcript and reading it back *)

(** No line break in the text. *)
Fixpoint plain (s : string) : bool :=
  match s with
  | EmptyString => true
  | String c r =>
      negb (Ascii.eqb c TimeLine.newline || Ascii.eqb c carriage_return) && plain r
  end.

(** A segment the transcript format can carry: times from 0 on, a text
    with a word in it and, once stripped, no line break. *)
Definition writable (seg : segment) : Prop :=
  0 <= seg_start seg /\ 0 <= seg_end seg
  /\ has_ink (seg_text seg) = true
  /\ plain (Py.strip (seg_text seg)) = true.

(** The entry a segment comes back as. *)
Definition reread (seg : segment) : res entry :=
  t0 <- _srt_time_to_sec (_sec_to_srt_time (seg_start seg)) ;;
  t1 <- _srt_time_to_sec (_sec_to_srt_time (seg_end seg)) ;;
  Ok {| e_start := F64.to_Q t0;
        e_end := F64.to_Q t1;
        e_text := Py.strip (seg_text seg) |}.

Fixpoint map_res {A B : Type} (f : A -> res B) (l : list A) : res (list B) :=
  match l with
  | [] => Ok []
  | x :: r => y <- f x ;; ys <- map_res f r ;; Ok (y :: ys)
  end.

(** The three lines of the block of a segment. *)
Definition time_line (seg : segment) : string :=
  _sec_to_srt_time (seg_start seg) ++ " --> " ++ _sec_to_srt_time (seg_end seg).

Definition block_lines (i : nat) (seg : segment) : list string :=
  [ format_d 0 (Z.of_nat i + 1); time_line seg; Py.strip (seg_text seg) ].

(** The lines of the file written for the segments, numbered from [i]. *)
Fixpoint srt_file_lines (i : nat) (segments : list segment) : list string :=
  match segments with
  | [] => []
  | seg :: rest =>
      match rest with
      | [] => block_lines i seg
      | _ => (block_lines i seg ++ "" :: srt_file_lines (S i) rest)%list
      end
  end.

(** * Properties *)

Lemma is_digit_cases (c : ascii) :
  Py.is_digit c = true ->
  In c ["0"; "1"; "2"; "3"; "4"; "5"; "6"; "7"; "8"; "9"]%char.
Proof.
  destruct c as [[] [] [] [] [] [] [] []]; vm_compute; intros H;
    try discriminate H; tauto.
Qed.

Lemma digit_not_space (c : ascii) : Py.is_digit c = true -> Py.is_space c = false.
Proof.
  intros H. apply is_digit_cases in H. simpl in H.
  repeat (destruct H as [<- | H]; [reflexivity|]). contradiction.
Qed.

Lemma digit_not_char (c d : ascii) :
  Py.is_digit c = true -> Py.is_digit d = false -> Ascii.eqb c d = false.
Proof.
  intros Hc Hd. destruct (Ascii.eqb_spec c d) as [->|]; congruence.
Qed.

Lemma split_on_digits (sep : ascii) (s : string) :
  Py.is_digit sep = false -> all_digits s = true -> Py.split_on sep s = [s].
Proof.
  intros Hsep. induction s as [|c r IH]; simpl; intros H; [reflexivity|].
  apply andb_true_iff in H as [Hc Hr].
  rewrite (digit_not_char _ _ Hc Hsep), (IH Hr). reflexivity.
Qed.

Lemma split_on_field (sep : ascii) (s rest : string) :
  Py.is_digit sep = false -> all_digits s = true ->
  Py.split_on sep (s ++ String sep rest) = s :: Py.split_on sep rest.
Proof.
  intros Hsep. induction s as [|c r IH]; simpl; intros H.
  - now rewrite Ascii.eqb_refl.
  - apply andb_true_iff in H as [Hc Hr].
    rewrite (digit_not_char _ _ Hc Hsep), (IH Hr). reflexivity.
Qed.

Lemma rstrip_digits (s : string) : all_digits s = true -> Py.rstrip s = s.
Proof.
  induction s as [|c r IH]; simpl; intros H; [reflexivity|].
  apply andb_true_iff in H as [Hc Hr]. rewrite (IH Hr).
  destruct r; [now rewrite (digit_not_space _ Hc)|reflexivity].
Qed.

Lemma strip_numeral (s : string) : all_digits s = true -> Py.strip s = s.
Proof.
  intros H. unfold Py.strip.
  destruct s as [|c r]; [reflexivity|]. simpl in *.
  apply andb_true_iff in H as [Hc Hr].
  rewrite (digit_not_space _ Hc).
  change (Py.rstrip (String c r) = String c r).
  apply rstrip_digits. simpl. now rewrite Hc, Hr.
Qed.

Lemma int_digits_value (s : string) (acc : Z) (b : bool) :
  all_digits s = true -> (s <> EmptyString \/ b = true) ->
  Py.int_digits s acc b = Some (value_from acc s).
Proof.
  revert acc b. induction s as [|c r IH]; simpl; intros acc b H Hne.
  - destruct Hne as [Hne | ->]; [congruence|reflexivity].
  - apply andb_true_iff in H as [Hc Hr]. rewrite Hc.
    apply IH; auto.
Qed.

Lemma count_digits_all (s : string) :
  all_digits s = true -> Py.count_digits s = String.length s.
Proof.
  induction s as [|c r IH]; cbn [all_digits Py.count_digits String.length];
    [reflexivity|].
  intros H. apply andb_true_iff in H as [Hc Hr]. now rewrite Hc, IH.
Qed.

Lemma int_numeral (s : string) : numeral s -> Py.int s = numeral_value s.
Proof.
  intros [Hne H]. unfold Py.int, numeral_value. rewrite (strip_numeral _ H).
  destruct s as [|c r]; [congruence|].
  assert (Hc : Py.is_digit c = true)
    by (cbn [all_digits] in H; now apply andb_true_iff in H).
  assert (E : Py.int_digits (String c r) 0 false = Some (value (String c r)))
    by (apply int_digits_value; auto; left; discriminate).
  assert (F : (if (Py.int_max_str_digits <? Py.count_digits (String c r))%nat
               then Raise ValueError else Ok (1 * value (String c r))%Z)
              = (if (Py.int_max_str_digits <? String.length (String c r))%nat
                 then Raise ValueError else Ok (value (String c r)))).
  { rewrite (count_digits_all _ H).
    destruct (_ <? _)%nat; [reflexivity|]. f_equal. lia. }
  apply is_digit_cases in Hc. cbn [In] in Hc.
  repeat (destruct Hc as [<- | Hc]; [rewrite E; exact F|]). contradiction.
Qed.

Lemma numeral_digits (s : string) : numeral s -> all_digits s = true.
Proof. now intros [_ H]. Qed.

Lemma srt_time_to_sec_numerals (h m s ms : string) :
  numeral h -> numeral m -> numeral s -> numeral ms ->
  _srt_time_to_sec (stamp_text h m s ms)
  = (h' <- numeral_value h ;; m' <- numeral_value m ;;
     s' <- numeral_value s ;; ms' <- numeral_value ms ;;
     stamp_float h' m' s' ms').
Proof.
  intros Hh Hm Hs Hms. unfold _srt_time_to_sec, stamp_text, stamp_float.
  change (h ++ ":" ++ m ++ ":" ++ s ++ "," ++ ms)
    with (h ++ String ":" (m ++ String ":" (s ++ String "," ms))).
  rewrite (split_on_field ":" h) by (auto using numeral_digits).
  rewrite (split_on_field ":" m) by (auto using numeral_digits).
  assert (E : Py.split_on ":" (s ++ String "," ms) = [s ++ String "," ms]).
  { clear Hh Hm. destruct Hs as [_ Hs]. destruct Hms as [_ Hms].
    induction s as [|c r IH]; simpl in *.
    - now rewrite (split_on_digits ":" ms).
    - apply andb_true_iff in Hs as [Hc Hr].
      rewrite (digit_not_char c ":" Hc eq_refl), (IH Hr). reflexivity. }
  rewrite E.
  rewrite (split_on_field "," s) by (auto using numeral_digits).
  rewrite (split_on_digits "," ms) by (auto using numeral_digits).
  rewrite !int_numeral by assumption. reflexivity.
Qed.

(** C8, as the code has it.  A stamp made of four numerals is converted to
    the binary64 number obtained from the exact integer
    [H*3600 + M*60 + S] and the rounded quotient [ms/1000.0] by one
    rounded addition, once [int] has read the four numerals (it refuses
    one of more than 4300 digits); ["00:01:02,500"] gives exactly 62.5. *)
Theorem srt_time_to_sec_binary64 :
  (forall h m s ms : string,
      numeral h -> numeral m -> numeral s -> numeral ms ->
      _srt_time_to_sec (stamp_text h m s ms)
      = (h' <- numeral_value h ;; m' <- numeral_value m ;;
         s' <- numeral_value s ;; ms' <- numeral_value ms ;;
         stamp_float h' m' s' ms'))
  /\ _srt_time_to_sec "00:01:02,500" = Ok f62_5
  /\ (F64.to_Q f62_5 == 125 # 2)%Q
  /\ (F64.to_Q f62_5 == stamp_exact 0 1 2 500)%Q.
Proof.
  split; [exact srt_time_to_sec_numerals|].
  split; [vm_compute; reflexivity|].
  split; vm_compute; reflexivity.
Qed.

Lemma srt_time_to_sec_binary64_witness :
  numeral "00" /\ numeral "01" /\ numeral "02" /\ numeral "500" /\
  _srt_time_to_sec (stamp_text "00" "01" "02" "500") = stamp_float 0 1 2 500.
Proof.
  assert (N : forall s, s <> EmptyString -> all_digits s = true -> numeral s)
    by (intros s H1 H2; split; assumption).
  assert (H0 : numeral "00") by (apply N; [discriminate|reflexivity]).
  assert (H1 : numeral "01") by (apply N; [discriminate|reflexivity]).
  assert (H2 : numeral "02") by (apply N; [discriminate|reflexivity]).
  assert (H3 : numeral "500") by (apply N; [discriminate|reflexivity]).
  exact (conj H0 (conj H1 (conj H2 (conj H3
    (proj1 srt_time_to_sec_binary64 "00" "01" "02" "500" H0 H1 H2 H3))))).
Defined.

(** C8, as stated, fails: the float the parser returns for
    ["00:00:01,118"] is not 1.118, and not even the float nearest to it,
    which is the next one up. *)
Lemma srt_time_to_sec_drift :
  exists f : F64.float,
    _srt_time_to_sec (stamp_text "00" "00" "01" "118") = Ok f
    /\ ~ (F64.to_Q f == stamp_exact 0 0 1 118)%Q
    /\ (Qabs (F64.to_Q (SFsucc F64.prec F64.emax f) - stamp_exact 0 0 1 118)
        < Qabs (F64.to_Q f - stamp_exact 0 0 1 118))%Q.
Proof.
  exists (S754_finite false 5035024383400214 (-52)).
  split; [vm_compute; reflexivity|].
  split; [vm_compute; discriminate|vm_compute; reflexivity].
Qed.

(** ** Lemmas on the scorer *)

Lemma bonus_fold (p : string -> bool) (kws : list string) (acc : Q) :
  fold_left (fun score kw => if p kw then score + 1 else score) kws acc
  == acc + inject_Z (Z.of_nat (List.length (filter p kws))).
Proof.
  revert acc. induction kws as [|kw r IH]; intros acc; simpl.
  - unfold inject_Z. lra.
  - rewrite IH. destruct (p kw); simpl List.length; [|lra].
    rewrite Nat2Z.inj_succ, <- Z.add_1_l, inject_Z_plus.
    change (inject_Z 1) with 1. lra.
Qed.

Lemma is_space_lower (c : ascii) : Py.is_space (Py.lower_char c) = Py.is_space c.
Proof. destruct c as [[] [] [] [] [] [] [] []]; reflexivity. Qed.

Lemma lower_app (a b : string) : Py.lower (a ++ b) = Py.lower a ++ Py.lower b.
Proof. induction a as [|c r IH]; simpl; [reflexivity|now rewrite IH]. Qed.

Lemma lower_keywords : map Py.lower KEYWORDS = KEYWORDS.
Proof. reflexivity. Qed.

(** Token counting only looks at which characters are spaces and at
    whether a run is open: lowering the text does not change it. *)
Lemma split_ws_from_lower (cur cur' s : string) :
  (cur = EmptyString <-> cur' = EmptyString) ->
  List.length (Py.split_ws_from cur (Py.lower s))
  = List.length (Py.split_ws_from cur' s).
Proof.
  revert cur cur'. induction s as [|c r IH]; intros cur cur' Hcur; simpl.
  - destruct cur, cur'; try reflexivity.
    + destruct Hcur as [H _]. specialize (H eq_refl). discriminate.
    + destruct Hcur as [_ H]. specialize (H eq_refl). discriminate.
  - rewrite is_space_lower. destruct (Py.is_space c).
    + destruct cur, cur'.
      * now apply IH.
      * destruct Hcur as [H _]. specialize (H eq_refl). discriminate.
      * destruct Hcur as [_ H]. specialize (H eq_refl). discriminate.
      * simpl. f_equal. now apply IH.
    + apply IH. split; discriminate.
Qed.

Lemma word_count_lower (s : string) :
  List.length (Py.split_ws (Py.lower s)) = word_count s.
Proof. apply split_ws_from_lower. tauto. Qed.

Lemma split_ws_from_open (cur s : string) :
  cur <> EmptyString -> Py.split_ws_from cur s <> [].
Proof.
  revert cur. induction s as [|c r IH]; intros cur H; simpl.
  - destruct cur; [congruence|discriminate].
  - destruct (Py.is_space c).
    + destruct cur; [congruence|discriminate].
    + apply IH. discriminate.
Qed.

Lemma split_ws_from_ink (cur s : string) :
  has_ink s = true -> Py.split_ws_from cur s <> [].
Proof.
  revert cur. induction s as [|c r IH]; intros cur H; simpl in *; [discriminate|].
  destruct (Py.is_space c); simpl in H.
  - destruct cur; [now apply IH|discriminate].
  - apply split_ws_from_open. discriminate.
Qed.

Lemma has_ink_app (a b : string) : has_ink (a ++ b) = has_ink a || has_ink b.
Proof.
  induction a as [|c r IH]; simpl; [reflexivity|].
  now rewrite IH, orb_assoc.
Qed.

Lemma has_ink_lstrip (s : string) : has_ink (Py.lstrip s) = has_ink s.
Proof.
  induction s as [|c r IH]; simpl; [reflexivity|].
  destruct (Py.is_space c) eqn:E; simpl; [exact IH|now rewrite E].
Qed.

Lemma has_ink_rstrip (s : string) : has_ink (Py.rstrip s) = has_ink s.
Proof.
  induction s as [|c r IH]; simpl; [reflexivity|].
  rewrite <- IH. destruct (Py.rstrip r) eqn:E; simpl.
  - destruct (Py.is_space c) eqn:Ec; simpl; [reflexivity|now rewrite Ec].
  - reflexivity.
Qed.

Lemma has_ink_strip (s : string) : has_ink (Py.strip s) = has_ink s.
Proof. unfold Py.strip. now rewrite has_ink_rstrip, has_ink_lstrip. Qed.

Lemma not_blank_ink (line : string) : is_blank line = false -> has_ink line = true.
Proof.
  unfold is_blank. intros H. rewrite <- has_ink_strip.
  destruct (Py.strip line) as [|c r] eqn:E; [discriminate|].
  (* a stripped text starts with a character that is not a space *)
  unfold Py.strip in E.
  assert (L : forall t, match Py.lstrip t with
                        | EmptyString => True
                        | String a _ => Py.is_space a = false
                        end).
  { induction t as [|a t IH]; simpl; [exact I|].
    destruct (Py.is_space a) eqn:Ea; [exact IH|exact Ea]. }
  assert (R : forall t a u, Py.rstrip t = String a u ->
                            exists v, t = String a v).
  { intros [|b t] a u; simpl; [discriminate|].
    destruct (Py.rstrip t).
    - destruct (Py.is_space b); [discriminate|]. intros [= <- <-]. eauto.
    - intros [= <- <-]. eauto. }
  destruct (R _ _ _ E) as [v Hv]. specialize (L line). rewrite Hv in L.
  simpl. now rewrite L.
Qed.

Lemma has_ink_join (sep x : string) (rest : list string) :
  has_ink x = true -> has_ink (Py.join sep (x :: rest)) = true.
Proof.
  intros H. destruct rest; simpl; [exact H|].
  rewrite has_ink_app, H. reflexivity.
Qed.

Lemma parse_block_worded (block : list string) (oe : option entry) :
  Forall (fun l => is_blank l = false) block ->
  _parse_block block = Ok oe -> worded_opt oe.
Proof.
  intros Hb. unfold _parse_block.
  destruct block as [|a [|b [|c rest]]];
    cbn [List.length Nat.ltb Nat.leb nth skipn]; try (intros [= <-]; exact I).
  destruct (TimeLine.re_match b) as [[g1 g2]|]; [|intros [= <-]; exact I].
  destruct (_srt_time_to_sec g1); cbn [bind]; [|discriminate].
  destruct (_srt_time_to_sec g2); cbn [bind]; [|discriminate].
  intros [= <-].
  change (has_ink (Py.strip (Py.join " " (c :: rest))) = true).
  rewrite has_ink_strip. apply has_ink_join.
  apply not_blank_ink.
  inversion Hb as [|? ? _ Hb1]; subst. inversion Hb1 as [|? ? _ Hb2]; subst.
  now inversion Hb2.
Qed.

Lemma parse_lines_worded (lines block : list string)
    (entries out : list (option entry)) :
  Forall (fun l => is_blank l = false) block ->
  Forall worded_opt entries ->
  parse_lines lines block entries = Ok out ->
  Forall worded_opt out.
Proof.
  revert block entries.
  induction lines as [|line rest IH]; intros block entries Hb He; simpl.
  - destruct block as [|b0 block'].
    + now intros [= <-].
    + destruct (_parse_block (b0 :: block')) as [oe|] eqn:E; simpl; [|discriminate].
      intros [= <-]. apply Forall_app; split; [exact He|].
      constructor; [|constructor]. exact (parse_block_worded _ _ Hb E).
  - destruct (is_blank line) eqn:El.
    + destruct block as [|b0 block'].
      * now apply IH.
      * destruct (_parse_block (b0 :: block')) as [oe|] eqn:E; simpl; [|discriminate].
        apply IH; [constructor|].
        apply Forall_app; split; [exact He|].
        constructor; [|constructor]. exact (parse_block_worded _ _ Hb E).
    + apply IH; [|exact He].
      apply Forall_app; split; [exact Hb|]. now repeat constructor.
Qed.

Lemma drop_nones_worded (l : list (option entry)) :
  Forall worded_opt l -> Forall worded (drop_nones l).
Proof.
  induction 1 as [|[e|] r H _ IH]; simpl; auto.
Qed.

Lemma parse_srt_worded (srt : list string) (entries : list entry) :
  _parse_srt srt = Ok entries -> Forall worded entries.
Proof.
  unfold _parse_srt.
  destruct (parse_lines srt [] []) as [es|] eqn:E; simpl; [|discriminate].
  intros [= <-]. apply drop_nones_worded.
  exact (parse_lines_worded _ _ _ _ (Forall_nil _) (Forall_nil _) E).
Qed.

Lemma keyword_lower (kw : string) : In kw KEYWORDS -> Py.lower kw = kw.
Proof.
  intros H. unfold KEYWORDS in H. simpl in H.
  repeat (destruct H as [<- | H]; [reflexivity|]). contradiction.
Qed.

Lemma keyword_count_ci (text : string) :
  List.length (filter (fun kw => Py.contains kw (Py.lower text)) KEYWORDS)
  = keyword_matches text.
Proof.
  unfold keyword_matches. apply f_equal. apply filter_ext_in.
  intros kw H. unfold ci_contains. now rewrite (keyword_lower kw H).
Qed.

(** The score in the two parts the specification names, for any entry;
    the word count is floored at 1 here. *)
Lemma score_entry_parts (e : entry) :
  score_entry e
  == inject_Z (Z.of_nat (keyword_matches (e_text e)))
     + Qmin (inject_Z (Z.max 1 (Z.of_nat (word_count (e_text e))))
             / Qmax (1 # 2) (e_end e - e_start e) / 3) 1.
Proof.
  unfold score_entry. rewrite bonus_fold, keyword_count_ci, word_count_lower.
  lra.
Qed.

Lemma score_entry_worded (e : entry) : worded e -> score_entry e == spec_score e.
Proof.
  intros H. rewrite score_entry_parts. unfold spec_score, words_per_second.
  assert (W : (1 <= Z.of_nat (word_count (e_text e)))%Z).
  { unfold word_count, Py.split_ws.
    pose proof (split_ws_from_ink EmptyString _ H) as N.
    destruct (Py.split_ws_from EmptyString (e_text e)); [congruence|].
    simpl List.length. lia. }
  rewrite Z.max_r by exact W. reflexivity.
Qed.

(** C2.  Every entry of a parsed transcript gets the score of the
    specification: the number of keywords that occur in its text, case
    ignored, one point each and uncapped, plus
    [min (wordsPerSecond / 3, 1)] with
    [wordsPerSecond = wordCount / max (0.5, end - start)] and [wordCount]
    the number of white-space delimited tokens. *)
Theorem scorer_formula (srt : list string) (entries : list entry) :
  _parse_srt srt = Ok entries ->
  Forall (fun se : sentry => e_score se == spec_score se) (score_entries entries).
Proof.
  intros H. apply parse_srt_worded in H. unfold score_entries.
  apply Forall_map. simpl.
  eapply Forall_impl; [|exact H]. intros e. apply score_entry_worded.
Qed.

Lemma scorer_formula_witness :
  exists entries,
    _parse_srt sample_srt = Ok entries /\
    Forall (fun se : sentry => e_score se == spec_score se) (score_entries entries).
Proof.
  eexists. split; [vm_compute; reflexivity|].
  apply (scorer_formula sample_srt). vm_compute. reflexivity.
Defined.

Lemma prefix_app (kw a b : string) :
  prefix kw a = true -> prefix kw (a ++ b) = true.
Proof.
  revert a. induction kw as [|k kw IH]; intros a.
  - intros _. now destruct (a ++ b).
  - destruct a as [|c a]; simpl; [discriminate|].
    destruct (ascii_dec k c); [apply IH|discriminate].
Qed.

Lemma contains_app (kw a b : string) :
  Py.contains kw a = true -> Py.contains kw (a ++ b) = true.
Proof.
  induction a as [|c a IH]; simpl.
  - rewrite orb_false_r. intros H.
    destruct kw; [|discriminate]. destruct b; reflexivity.
  - intros H. apply orb_true_iff in H as [H|H]; apply orb_true_iff.
    + left. exact (prefix_app kw (String c a) b H).
    + right. exact (IH H).
Qed.

Lemma filter_length_le {A : Type} (p q : A -> bool) (l : list A) :
  (forall x, p x = true -> q x = true) ->
  (List.length (filter p l) <= List.length (filter q l))%nat.
Proof.
  intros H. induction l as [|x l IH]; simpl; [lia|].
  destruct (p x) eqn:E.
  - rewrite (H x E). simpl. lia.
  - destruct (q x); simpl; lia.
Qed.

Lemma keyword_matches_app (text suffix : string) :
  (keyword_matches text <= keyword_matches (text ++ suffix))%nat.
Proof.
  apply filter_length_le. intros kw. unfold ci_contains.
  rewrite lower_app. apply contains_app.
Qed.

Lemma split_ws_from_app (cur a b : string) :
  (List.length (Py.split_ws_from cur a)
   <= List.length (Py.split_ws_from cur (a ++ b)))%nat.
Proof.
  revert cur. induction a as [|c a IH]; intros cur; simpl.
  - destruct cur as [|k cur]; simpl; [lia|].
    pose proof (split_ws_from_open (String k cur) b) as N.
    destruct (Py.split_ws_from (String k cur) b); [now exfalso; apply N|].
    simpl. lia.
  - destruct (Py.is_space c); [|apply IH].
    destruct cur; [apply IH|]. simpl. apply le_n_S, IH.
Qed.

Lemma word_count_app (text suffix : string) :
  (word_count text <= word_count (text ++ suffix))%nat.
Proof. apply split_ws_from_app. Qed.

Lemma pace_floor_pos (d : Q) : 0 < Qmax (1 # 2) d.
Proof.
  apply Qlt_le_trans with (1 # 2); [reflexivity|apply Q.le_max_l].
Qed.

Lemma score_entry_append (e : entry) (suffix : string) :
  score_entry e <= score_entry (append_text e suffix).
Proof.
  rewrite !score_entry_parts. simpl.
  apply Qplus_le_compat.
  - rewrite <- Zle_Qle. apply Nat2Z.inj_le, keyword_matches_app.
  - apply Q.min_le_compat_r.
    pose proof (pace_floor_pos (e_end e - e_start e)) as D.
    pose proof (word_count_app (e_text e) suffix) as W.
    unfold Qdiv. apply Qmult_le_compat_r; [|discriminate].
    apply Qmult_le_compat_r; [|apply Qlt_le_weak, Qinv_lt_0_compat, D].
    rewrite <- Zle_Qle. lia.
Qed.

(** C6.  Appending a keyword to the text of an entry, glued on or set off
    by a space, with [start] and [end] unchanged, never lowers the score
    the scorer gives the entry. *)
Theorem scorer_monotone (e : entry) (kw : string) :
  In kw KEYWORDS ->
  score_entry e <= score_entry (append_text e kw)
  /\ score_entry e <= score_entry (append_text e (" " ++ kw)).
Proof.
  intros _. split; apply score_entry_append.
Qed.

Lemma scorer_monotone_witness :
  In "tip" KEYWORDS /\
  score_entry (mkEntry 1 3 "one small") <= score_entry (mkEntry 1 3 "one smalltip") /\
  score_entry (mkEntry 1 3 "one small") <= score_entry (mkEntry 1 3 "one small tip").
Proof.
  assert (H : In "tip" KEYWORDS) by (left; reflexivity).
  exact (conj H (scorer_monotone (mkEntry 1 3 "one small") "tip" H)).
Defined.

(** ** Comparisons *)

Lemma Qltb_lt (x y : Q) : Qltb x y = true <-> x < y.
Proof.
  unfold Qltb. rewrite negb_true_iff, <- not_true_iff_false, Qle_bool_iff.
  split; [apply Qnot_le_lt|apply Qlt_not_le].
Qed.

Lemma Qltb_ge (x y : Q) : Qltb x y = false <-> y <= x.
Proof.
  unfold Qltb. rewrite negb_false_iff. apply Qle_bool_iff.
Qed.

(** Name every [Qmax] and [Qmin] of the goal and of the hypotheses, and
    split on which argument it is. *)
Ltac qmax_name :=
  repeat match goal with
         | |- context [Qmax ?a ?b] =>
             let m := fresh "m" in
             pose proof (Q.max_spec a b); set (m := Qmax a b) in *; clearbody m
         | |- context [Qmin ?a ?b] =>
             let m := fresh "m" in
             pose proof (Q.min_spec a b); set (m := Qmin a b) in *; clearbody m
         | _ : context [Qmax ?a ?b] |- _ =>
             let m := fresh "m" in
             pose proof (Q.max_spec a b); set (m := Qmax a b) in *; clearbody m
         | _ : context [Qmin ?a ?b] |- _ =>
             let m := fresh "m" in
             pose proof (Q.min_spec a b); set (m := Qmin a b) in *; clearbody m
         end.

Ltac qmax_cases :=
  qmax_name;
  repeat match goal with
         | H : _ /\ _ \/ _ /\ _ |- _ => destruct H as [[? ?] | [? ?]]
         end.

Section SelectorFacts.

Variable d : Q.
Variables L M : Z.

(** *** Seeds *)

Lemma seed_unclamped (entries : list sentry) (e : sentry) :
  let s0 := Qmax 0 ((e_start e + e_end e) / 2 - inject_Z L / 2) in
  s0 + inject_Z L <= d ->
  start (seed d L entries e) = s0 /\ end_ (seed d L entries e) = s0 + inject_Z L.
Proof.
  intros s0 H. unfold seed. fold s0.
  apply Qltb_ge in H. rewrite H. simpl. auto.
Qed.

Lemma seed_clamped (entries : list sentry) (e : sentry) :
  let s0 := Qmax 0 ((e_start e + e_end e) / 2 - inject_Z L / 2) in
  d < s0 + inject_Z L ->
  start (seed d L entries e) = Qmax 0 (d - inject_Z L)
  /\ end_ (seed d L entries e) = d.
Proof.
  intros s0 H. unfold seed. fold s0.
  apply Qltb_lt in H. rewrite H. simpl. auto.
Qed.

Lemma seed_within (entries : list sentry) (e : sentry) :
  0 < d -> 0 < inject_Z L -> within d (seed d L entries e).
Proof.
  intros Hd HL. unfold within.
  set (s0 := Qmax 0 ((e_start e + e_end e) / 2 - inject_Z L / 2)).
  destruct (Qlt_le_dec d (s0 + inject_Z L)) as [H|H].
  - destruct (seed_clamped entries e H) as [-> ->].
    qmax_cases; lra.
  - destruct (seed_unclamped entries e H) as [-> ->].
    fold s0. assert (0 <= s0) by apply Q.le_max_l. lra.
Qed.

Lemma seeds_within (entries : list sentry) :
  0 < d -> 0 < inject_Z L -> Forall (within d) (seeds d L entries).
Proof.
  intros Hd HL. unfold seeds. apply Forall_map, Forall_forall.
  intros e _. now apply seed_within.
Qed.

(** *** The fallback loop *)

Lemma chop_loop_stable (fuel fuel' : nat) (t : Q) (ws : list ClipWindow) :
  (Z.to_nat M - List.length ws <= fuel)%nat ->
  (Z.to_nat M - List.length ws <= fuel')%nat ->
  chop_loop d L M fuel t ws = chop_loop d L M fuel' t ws.
Proof.
  revert fuel' t ws. induction fuel as [|fuel IH]; intros fuel' t ws H H'.
  - destruct fuel' as [|fuel']; simpl; [reflexivity|].
    replace (Z.of_nat (List.length ws) <? M)%Z with false
      by (symmetry; apply Z.ltb_ge; lia).
    now rewrite andb_false_r.
  - destruct fuel' as [|fuel']; simpl.
    + replace (Z.of_nat (List.length ws) <? M)%Z with false
        by (symmetry; apply Z.ltb_ge; lia).
      now rewrite andb_false_r.
    + destruct (Qltb t d && (Z.of_nat (List.length ws) <? M)%Z); [|reflexivity].
      apply IH; rewrite length_app; simpl; lia.
Qed.

(** The loop ends by its own condition, not for lack of fuel: any larger
    fuel gives the same windows. *)
Lemma chop_fuel_enough (fuel : nat) :
  (Z.to_nat M <= fuel)%nat -> chop_loop d L M fuel 0 [] = chop d L M.
Proof.
  intros H. unfold chop. apply chop_loop_stable; simpl; lia.
Qed.

Lemma chop_loop_length (fuel : nat) (t : Q) (ws : list ClipWindow) :
  (Z.of_nat (List.length ws) <= Z.max 0 M)%Z ->
  (Z.of_nat (List.length (chop_loop d L M fuel t ws)) <= Z.max 0 M)%Z.
Proof.
  revert t ws. induction fuel as [|fuel IH]; intros t ws H; simpl; [exact H|].
  destruct (Qltb t d); simpl; [|exact H].
  destruct (Z.ltb_spec (Z.of_nat (List.length ws)) M); [|exact H].
  apply IH. rewrite length_app. simpl. lia.
Qed.

Lemma chop_loop_within (fuel : nat) (t : Q) (ws : list ClipWindow) :
  0 < inject_Z L -> 0 <= t -> Forall (within d) ws ->
  Forall (within d) (chop_loop d L M fuel t ws).
Proof.
  intros HL. revert t ws.
  induction fuel as [|fuel IH]; intros t ws Ht H; simpl; [exact H|].
  destruct (Qltb t d) eqn:E; simpl; [|exact H].
  destruct (Z.of_nat (List.length ws) <? M)%Z; [|exact H].
  apply Qltb_lt in E. apply IH; [lra|].
  apply Forall_app. split; [exact H|]. constructor; [|constructor].
  unfold within; simpl. qmax_cases; lra.
Qed.

(** *** Sorting *)

Lemma insert_desc_perm (w : ClipWindow) (l : list ClipWindow) :
  Permutation (insert_desc w l) (w :: l).
Proof.
  induction l as [|x l IH]; simpl; [reflexivity|].
  destruct (Qltb (score w) (score x)); [|reflexivity].
  rewrite IH. apply perm_swap.
Qed.

Lemma sort_desc_perm (l : list ClipWindow) : Permutation (sort_desc l) l.
Proof.
  induction l as [|x l IH]; simpl; [reflexivity|].
  rewrite insert_desc_perm. now constructor.
Qed.

Lemma sort_desc_Forall (P : ClipWindow -> Prop) (l : list ClipWindow) :
  Forall P l -> Forall P (sort_desc l).
Proof.
  intros H. eapply Permutation_Forall; [|exact H].
  symmetry. apply sort_desc_perm.
Qed.

(** *** The greedy pick *)

Lemma pick_length (ws picked : list ClipWindow) :
  (Z.of_nat (List.length picked) <= Z.max 0 M)%Z ->
  (Z.of_nat (List.length (pick M ws picked)) <= Z.max 0 M)%Z.
Proof.
  revert picked. induction ws as [|w ws IH]; intros picked H; simpl; [exact H|].
  destruct (Z.leb_spec M (Z.of_nat (List.length picked))); [exact H|].
  destruct (forallb _ picked); [|now apply IH].
  apply IH. rewrite length_app. simpl. lia.
Qed.

Lemma pick_Forall (P : ClipWindow -> Prop) (ws picked : list ClipWindow) :
  Forall P ws -> Forall P picked -> Forall P (pick M ws picked).
Proof.
  revert picked. induction ws as [|w ws IH]; intros picked Hws Hp; simpl; [exact Hp|].
  inversion Hws as [|? ? Hw Hws']; subst.
  destruct (M <=? Z.of_nat (List.length picked))%Z; [exact Hp|].
  destruct (forallb _ picked); [|now apply IH].
  apply IH; [exact Hws'|]. apply Forall_app. auto.
Qed.

(** *** Bounds on the result *)

Lemma chop_bounds :
  0 < inject_Z L ->
  (Z.of_nat (List.length (chop d L M)) <= Z.max 0 M)%Z
  /\ Forall (within d) (chop d L M).
Proof.
  intros HL. split.
  - apply chop_loop_length. simpl. lia.
  - apply chop_loop_within; [exact HL|lra|constructor].
Qed.

Lemma select_windows_bounds (entries : list sentry) :
  0 < d -> 0 < inject_Z L ->
  (Z.of_nat (List.length (select_windows d L M entries)) <= Z.max 0 M)%Z
  /\ Forall (within d) (select_windows d L M entries).
Proof.
  intros Hd HL. unfold select_windows. split.
  - apply pick_length. simpl. lia.
  - apply pick_Forall; [|constructor]. apply sort_desc_Forall.
    pose proof (seeds_within entries Hd HL) as Hs.
    destruct (seeds d L entries); [apply chop_bounds, HL|exact Hs].
Qed.

Lemma highlights_bounds (entries : list entry) :
  0 < d -> 0 < inject_Z L ->
  (Z.of_nat (List.length (highlights d L M entries)) <= Z.max 0 M)%Z
  /\ Forall (within d) (highlights d L M entries).
Proof.
  intros Hd HL. unfold highlights.
  destruct entries; [apply chop_bounds, HL|now apply select_windows_bounds].
Qed.

End SelectorFacts.

(** C1.  With a positive duration [d], a positive target length [L] and a
    clip limit [M >= 0], the selector returns at most [M] windows, each
    with [0 <= start < end <= d]: from any list of scored entries, and so
    from any transcript [find_highlights] can parse. *)
Theorem windows_bounded (d : Q) (L M : Z) :
  0 < d -> (0 < L)%Z -> (0 <= M)%Z ->
  (forall entries : list sentry,
      (Z.of_nat (List.length (select_windows d L M entries)) <= M)%Z
      /\ Forall (within d) (select_windows d L M entries))
  /\ (forall (srt : list string) (r : list ClipWindow),
         find_highlights d L M srt = Ok r ->
         (Z.of_nat (List.length r) <= M)%Z /\ Forall (within d) r).
Proof.
  intros Hd HL HM.
  assert (HL' : 0 < inject_Z L) by (change 0 with (inject_Z 0); now rewrite <- Zlt_Qlt).
  split.
  - intros entries.
    destruct (select_windows_bounds d L M entries Hd HL') as [H1 H2].
    split; [lia|exact H2].
  - intros srt r. unfold find_highlights.
    destruct (_parse_srt srt) as [entries|]; simpl; [|discriminate].
    intros [= <-].
    destruct (highlights_bounds d L M entries Hd HL') as [H1 H2].
    split; [lia|exact H2].
Qed.

Lemma windows_bounded_witness :
  let scored := [mkScored (mkEntry 7 9 "tip") (7 # 6);
                 mkScored (mkEntry 40 44 "the worst mistake") (9 # 4)] in
  0 < 47 /\ (0 < 15)%Z /\ (0 <= 6)%Z
  /\ (Z.of_nat (List.length (select_windows 47 15 6 scored)) <= 6)%Z
  /\ Forall (within 47) (select_windows 47 15 6 scored).
Proof.
  intros scored.
  assert (Hd : 0 < 47) by reflexivity.
  assert (HL : (0 < 15)%Z) by reflexivity.
  assert (HM : (0 <= 6)%Z) by discriminate.
  exact (conj Hd (conj HL (conj HM
           (proj1 (windows_bounded 47 15 6 Hd HL HM) scored)))).
Defined.

Lemma overlap_spec (a b : ClipWindow) :
  _overlap a b (1 # 2) = true <-> overlapping a b.
Proof. unfold _overlap, overlapping. apply Qle_bool_iff. Qed.

Lemma overlapping_sym (a b : ClipWindow) : overlapping a b -> overlapping b a.
Proof.
  unfold overlapping, inter_len, dur. intros H.
  rewrite (Q.min_comm (end_ b - start b)), (Q.min_comm (end_ b)),
    (Q.max_comm (start b)). exact H.
Qed.

Lemma weqb_weq (a b : ClipWindow) : weqb a b = true <-> weq a b.
Proof.
  unfold weqb, weq. rewrite !andb_true_iff, !Qeq_bool_iff. tauto.
Qed.

Lemma weq_refl (a : ClipWindow) : weq a a.
Proof. unfold weq. repeat split; reflexivity. Qed.

Lemma weq_sym (a b : ClipWindow) : weq a b -> weq b a.
Proof. unfold weq. intros (H1 & H2 & H3). repeat split; now symmetry. Qed.

Lemma weq_trans (a b c : ClipWindow) : weq a b -> weq b c -> weq a c.
Proof.
  unfold weq. intros (H1 & H2 & H3) (H4 & H5 & H6).
  repeat split; etransitivity; eassumption.
Qed.

(** Equal windows overlap, whatever their width. *)
Lemma weq_overlapping (a b : ClipWindow) : weq a b -> overlapping a b.
Proof.
  unfold weq, overlapping, inter_len, dur. intros (H1 & H2 & _).
  qmax_cases; lra.
Qed.

(** A window of width zero or less overlaps every window. *)
Lemma flat_overlapping (a b : ClipWindow) :
  dur a <= 0 -> overlapping a b /\ overlapping b a.
Proof.
  intros H. assert (O : overlapping a b).
  { revert H. unfold overlapping, inter_len, dur. intros H. qmax_cases; lra. }
  split; [exact O|now apply overlapping_sym].
Qed.

(** ** The greedy pick keeps its result free of overlaps *)

Lemma ForallOrdPairs_snoc {A : Type} (R : A -> A -> Prop) (l : list A) (x : A) :
  ForallOrdPairs R l -> Forall (fun y => R y x) l -> ForallOrdPairs R (l ++ [x])%list.
Proof.
  induction 1 as [|y l Hy Hl IH]; intros Hx; simpl.
  - constructor; constructor.
  - inversion Hx as [|? ? Hyx Hx']; subst. constructor.
    + apply Forall_app. split; [exact Hy|]. now constructor.
    + now apply IH.
Qed.

Lemma pick_apart (M : Z) (ws picked : list ClipWindow) :
  ForallOrdPairs (fun a b => ~ overlapping a b) picked ->
  ForallOrdPairs (fun a b => ~ overlapping a b) (pick M ws picked).
Proof.
  revert picked. induction ws as [|w ws IH]; intros picked H; simpl; [exact H|].
  destruct (M <=? Z.of_nat (List.length picked))%Z; [exact H|].
  destruct (forallb _ picked) eqn:E; [|now apply IH].
  apply IH, ForallOrdPairs_snoc; [exact H|].
  rewrite forallb_forall in E. apply Forall_forall. intros p Hp O.
  specialize (E p Hp). apply negb_true_iff in E.
  apply overlapping_sym, overlap_spec in O. congruence.
Qed.

(** When every candidate overlaps a window already picked, nothing is
    added. *)
Lemma pick_all_rejected (M : Z) (ws picked : list ClipWindow) :
  Forall (fun w => Exists (fun p => overlapping w p) picked) ws ->
  pick M ws picked = picked.
Proof.
  induction 1 as [|w ws Hw _ IH]; simpl; [reflexivity|].
  destruct (M <=? Z.of_nat (List.length picked))%Z; [reflexivity|].
  destruct (forallb _ picked) eqn:E; [|exact IH].
  exfalso. rewrite forallb_forall in E.
  apply Exists_exists in Hw as (p & Hp & O).
  specialize (E p Hp). apply negb_true_iff in E.
  apply overlap_spec in O. congruence.
Qed.

Lemma filter_none {A : Type} (p : A -> bool) (l : list A) :
  (forall x, In x l -> p x = false) -> filter p l = [].
Proof.
  induction l as [|x l IH]; intros H; simpl; [reflexivity|].
  rewrite (H x (or_introl eq_refl)). apply IH. intros y Hy. apply H. now right.
Qed.

Lemma apart_copies (w : ClipWindow) (l : list ClipWindow) :
  ForallOrdPairs (fun a b => ~ overlapping a b) l -> (copies w l <= 1)%nat.
Proof.
  unfold copies. induction 1 as [|x l Hx _ IH]; simpl; [lia|].
  destruct (weqb w x) eqn:E; [|exact IH]. simpl.
  apply weqb_weq in E.
  assert (N : filter (weqb w) l = []).
  { apply filter_none. intros y Hy.
    apply not_true_iff_false. intros Ey. apply weqb_weq in Ey.
    rewrite Forall_forall in Hx. apply (Hx y Hy).
    apply weq_overlapping. exact (weq_trans _ _ _ (weq_sym _ _ E) Ey). }
  rewrite N. simpl. lia.
Qed.

Section ChopFacts.

Variable d : Q.
Variables L M : Z.
Hypothesis L_pos : 0 < inject_Z L.

Lemma chop_loop_apart (fuel : nat) (t : Q) (ws : list ClipWindow) :
  Forall (fun w => start w < end_ w /\ end_ w <= t) ws ->
  ForallOrdPairs (fun a b => ~ overlapping a b) ws ->
  ForallOrdPairs (fun a b => ~ overlapping a b) (chop_loop d L M fuel t ws).
Proof.
  revert t ws. induction fuel as [|fuel IH]; intros t ws Hws Hp; simpl; [exact Hp|].
  destruct (Qltb t d) eqn:E; simpl; [|exact Hp].
  destruct (Z.of_nat (List.length ws) <? M)%Z; [|exact Hp].
  apply Qltb_lt in E. apply IH.
  - apply Forall_app. split.
    + eapply Forall_impl; [|exact Hws]. simpl. intros w [H1 H2]. split; lra.
    + constructor; [|constructor]. simpl. qmax_cases; lra.
  - apply ForallOrdPairs_snoc; [exact Hp|].
    eapply Forall_impl; [|exact Hws]. intros w [H1 H2].
    unfold overlapping, inter_len, dur; simpl. intros O.
    revert O. qmax_cases; lra.
Qed.

Lemma chop_apart :
  ForallOrdPairs (fun a b => ~ overlapping a b) (chop d L M).
Proof. apply chop_loop_apart; constructor. Qed.

Lemma chop_loop_score (fuel : nat) (t : Q) (ws : list ClipWindow) :
  Forall (fun w => score w = 1 # 10) ws ->
  Forall (fun w => score w = 1 # 10) (chop_loop d L M fuel t ws).
Proof.
  revert t ws. induction fuel as [|fuel IH]; intros t ws H; simpl; [exact H|].
  destruct (_ && _); [|exact H].
  apply IH, Forall_app. split; [exact H|]. now repeat constructor.
Qed.

(** The loop against the closed form. *)
Lemma below_ceiling (k : nat) :
  inject_Z (Z.of_nat k) * inject_Z L < d <->
  (Z.of_nat k < Qceiling (d / inject_Z L))%Z.
Proof.
  split; intros H.
  - apply Qlt_shift_div_l in H; [|exact L_pos].
    pose proof (Qle_ceiling (d / inject_Z L)) as C.
    rewrite Zlt_Qlt. lra.
  - pose proof (Qceiling_lt (d / inject_Z L)) as C.
    assert (K : inject_Z (Z.of_nat k) <= inject_Z (Qceiling (d / inject_Z L) - 1))
      by (rewrite <- Zle_Qle; lia).
    assert (K' : inject_Z (Z.of_nat k) < d / inject_Z L) by lra.
    apply (Qmult_lt_compat_r _ _ _ L_pos) in K'.
    assert (E : d / inject_Z L * inject_Z L == d) by (field; lra).
    lra.
Qed.

Lemma chop_loop_spec (fuel : nat) (t : Q) (ws : list ClipWindow) :
  let k := List.length ws in
  let n := Z.to_nat (Z.min M (Qceiling (d / inject_Z L))) in
  t == inject_Z (Z.of_nat k) * inject_Z L ->
  (k <= n)%nat -> (Z.to_nat M - k <= fuel)%nat ->
  Forall2 weq ws (map (chop_window d L) (seq 0 k)) ->
  Forall2 weq (chop_loop d L M fuel t ws) (chop_spec d L M).
Proof.
  revert t ws. induction fuel as [|fuel IH]; intros t ws k n Ht Hk Hf Hws.
  - simpl. assert (k = n) as E by lia. unfold chop_spec. fold n.
    rewrite <- E. exact Hws.
  - simpl. destruct (Qltb t d) eqn:E1; simpl.
    + destruct (Z.ltb_spec (Z.of_nat (List.length ws)) M) as [E2|E2]; fold k in E2.
      * apply Qltb_lt in E1. rewrite Ht in E1. apply below_ceiling in E1.
        apply IH.
        -- rewrite length_app. simpl List.length. fold k.
           rewrite Nat.add_1_r, Nat2Z.inj_succ, <- Z.add_1_r, inject_Z_plus.
           change (inject_Z 1) with 1. rewrite Ht. ring.
        -- rewrite length_app. simpl List.length. fold k. fold n. lia.
        -- rewrite length_app. simpl List.length. fold k. lia.
        -- rewrite length_app. simpl List.length. fold k.
           rewrite seq_app, map_app. apply Forall2_app; [exact Hws|].
           simpl. constructor; [|constructor].
           unfold weq, chop_window; simpl.
           repeat split; try reflexivity; [exact Ht|].
           apply Q.min_compat; [|reflexivity]. rewrite Ht. ring.
      * assert (k = n) as E by lia. unfold chop_spec. fold n.
        rewrite <- E. exact Hws.
    + apply Qltb_ge in E1. rewrite Ht in E1.
      assert (~ (Z.of_nat k < Qceiling (d / inject_Z L))%Z) as N
        by (intros N; apply below_ceiling in N; lra).
      assert (k = n) as E by lia. unfold chop_spec. fold n.
      rewrite <- E. exact Hws.
Qed.

Lemma chop_closed_form : Forall2 weq (chop d L M) (chop_spec d L M).
Proof.
  unfold chop. apply chop_loop_spec; simpl; try lia; [ring|constructor].
Qed.

End ChopFacts.

(** ** Sorting and picking windows that need neither *)

Lemma sort_desc_level (c : Q) (l : list ClipWindow) :
  Forall (fun w => score w = c) l -> sort_desc l = l.
Proof.
  induction 1 as [|x l Hx Hl IH]; simpl; [reflexivity|].
  rewrite IH. destruct Hl as [|y l Hy _]; simpl; [reflexivity|].
  replace (Qltb (score x) (score y)) with false; [reflexivity|].
  symmetry. apply Qltb_ge. rewrite Hx, Hy. apply Qle_refl.
Qed.

Lemma ForallOrdPairs_before {A : Type} (R : A -> A -> Prop) (l1 l2 : list A) (x : A) :
  ForallOrdPairs R (l1 ++ x :: l2)%list -> Forall (fun y => R y x) l1.
Proof.
  induction l1 as [|y l1 IH]; simpl; intros H; [constructor|].
  inversion H as [|? ? Hy Hr]; subst. constructor.
  - rewrite Forall_forall in Hy. apply Hy, in_elt.
  - now apply IH.
Qed.

Lemma pick_keeps_all (M : Z) (ws picked : list ClipWindow) :
  (Z.of_nat (List.length (picked ++ ws)%list) <= M)%Z ->
  ForallOrdPairs (fun a b => ~ overlapping a b) (picked ++ ws)%list ->
  pick M ws picked = (picked ++ ws)%list.
Proof.
  revert picked. induction ws as [|w ws IH]; intros picked Hl Hp; simpl.
  - now rewrite app_nil_r.
  - rewrite length_app in Hl. simpl in Hl.
    destruct (Z.leb_spec M (Z.of_nat (List.length picked))); [lia|].
    replace (forallb _ picked) with true.
    + rewrite IH; rewrite <- app_assoc; simpl; [reflexivity| |exact Hp].
      rewrite length_app. simpl. lia.
    + symmetry. apply forallb_forall. intros p Hin.
      apply negb_true_iff, not_true_iff_false. intros O.
      apply overlap_spec, overlapping_sym in O.
      apply ForallOrdPairs_before in Hp. rewrite Forall_forall in Hp.
      exact (Hp p Hin O).
Qed.

Lemma inject_Z_pos (z : Z) : (0 < z)%Z -> 0 < inject_Z z.
Proof. intros H. change 0 with (inject_Z 0). now rewrite <- Zlt_Qlt. Qed.

Lemma seeds_none (d : Q) (L : Z) (entries : list sentry) :
  Forall (fun e : sentry => e_score e < 1 # 2) entries -> seeds d L entries = [].
Proof.
  intros H. unfold seeds. rewrite filter_none; [reflexivity|].
  rewrite Forall_forall in H. intros e He.
  apply negb_false_iff, Qltb_lt, H, He.
Qed.

Lemma pick_chop (d : Q) (L M : Z) :
  0 < inject_Z L -> pick M (sort_desc (chop d L M)) [] = chop d L M.
Proof.
  intros HL.
  rewrite (sort_desc_level (1 # 10))
    by (apply chop_loop_score; constructor).
  pose proof (chop_loop_length d L M (Z.to_nat M) 0 []) as Hlen.
  fold (chop d L M) in Hlen.
  destruct (chop d L M) as [|w ws] eqn:E; [reflexivity|].
  rewrite <- E. apply pick_keeps_all; simpl app.
  - rewrite E in *. simpl List.length in *. lia.
  - apply chop_apart, HL.
Qed.

(** C5.  With a positive target length, a transcript with no entry, or
    with no entry scoring 0.5 or more, gets the sequential chop: window
    [k] is [[k L, min ((k+1) L, d)]] with score 0.1, for [k] below both
    [ceil (d / L)] and [M].  With no entry, [d = 47], [L = 15] and
    [M = 6] these are the four windows [0,15), [15,30), [30,45),
    [45,47). *)
Theorem fallback_chop (d : Q) (L M : Z) (entries : list entry) :
  (0 < L)%Z ->
  entries = [] \/ Forall (fun e => score_entry e < 1 # 2) entries ->
  highlights d L M entries = chop d L M
  /\ Forall2 weq (chop d L M) (chop_spec d L M)
  /\ find_highlights 47 15 6 []
     = Ok [ mkClipWindow 0 15 (1 # 10); mkClipWindow 15 30 (1 # 10);
            mkClipWindow 30 45 (1 # 10); mkClipWindow 45 47 (1 # 10) ].
Proof.
  intros HL H. apply inject_Z_pos in HL.
  split; [|split; [now apply chop_closed_form|vm_compute; reflexivity]].
  destruct H as [-> | H]; [reflexivity|].
  destruct entries as [|e es]; [reflexivity|].
  unfold highlights, select_windows.
  rewrite seeds_none; [now apply pick_chop|].
  unfold score_entries. apply Forall_map. exact H.
Qed.

Lemma fallback_chop_witness :
  highlights 47 15 6 [mkEntry 0 4 "well"; mkEntry 4 9 "so"] = chop 47 15 6
  /\ Forall2 weq (chop 47 15 6) (chop_spec 47 15 6).
Proof.
  assert (HL : (0 < 15)%Z) by reflexivity.
  assert (H : Forall (fun e => score_entry e < 1 # 2)
                     [mkEntry 0 4 "well"; mkEntry 4 9 "so"])
    by (repeat constructor).
  destruct (fallback_chop 47 15 6 _ HL (or_intror H)) as (H1 & H2 & _).
  exact (conj H1 H2).
Defined.

Lemma seeds_In (d : Q) (L : Z) (entries : list sentry) (w : ClipWindow) :
  In w (seeds d L entries) <->
  exists e : sentry, In e entries /\ 1 # 2 <= e_score e /\ w = seed d L entries e.
Proof.
  unfold seeds. rewrite in_map_iff. split.
  - intros (e & <- & He). apply filter_In in He as [He Hs].
    apply negb_true_iff, Qltb_ge in Hs. eauto.
  - intros (e & He & Hs & ->). exists e. split; [reflexivity|].
    apply filter_In. split; [exact He|]. now apply negb_true_iff, Qltb_ge.
Qed.

(** C4.  The candidate seeded by an entry scoring at least 0.5 has width
    [L] and starts at [max (0, mid - L/2)], so that it is centred on the
    midpoint unless the left clamp acts; when its right edge would pass
    the duration it is [[d - L, d]], of width [L] still, unless [d < L],
    and then it is [[0, min (L, d)]]. *)
Theorem seed_geometry (d : Q) (L : Z) (entries : list sentry) (e : sentry) :
  In e entries -> 1 # 2 <= e_score e ->
  let w := seed d L entries e in
  let s0 := Qmax 0 (midpoint e - inject_Z L / 2) in
  In w (seeds d L entries)
  /\ (s0 + inject_Z L <= d ->
      start w == s0 /\ end_ w - start w == inject_Z L
      /\ (0 <= midpoint e - inject_Z L / 2 -> (start w + end_ w) / 2 == midpoint e))
  /\ (d < s0 + inject_Z L ->
      (inject_Z L <= d ->
       start w == d - inject_Z L /\ end_ w == d /\ end_ w - start w == inject_Z L)
      /\ (d < inject_Z L -> start w == 0 /\ end_ w == Qmin (inject_Z L) d)).
Proof.
  intros He Hs w s0. split; [|split].
  - apply seeds_In. eauto.
  - intros H. destruct (seed_unclamped d L entries e H) as [E1 E2].
    fold w in E1, E2. fold (midpoint e) in E1, E2. fold s0 in E1, E2.
    rewrite E1, E2. split; [reflexivity|]. split; [ring|].
    intros Hc. unfold s0. rewrite (Q.max_r _ _ Hc). field.
  - intros H. destruct (seed_clamped d L entries e H) as [E1 E2].
    fold w in E1, E2. rewrite E1, E2. split; intros HL.
    + assert (Hm : 0 <= d - inject_Z L) by lra.
      rewrite (Q.max_r _ _ Hm). repeat split; try reflexivity. ring.
    + split; [apply Q.max_l; lra|]. symmetry. apply Q.min_r. lra.
Qed.

Lemma seed_geometry_witness :
  let e := mkScored (mkEntry 7 9 "tip") (7 # 6) in
  In e [e] /\ 1 # 2 <= e_score e /\
  In (seed 100 15 [e] e) (seeds 100 15 [e]).
Proof.
  intros e.
  assert (H1 : In e [e]) by (left; reflexivity).
  assert (H2 : 1 # 2 <= e_score e) by discriminate.
  exact (conj H1 (conj H2 (proj1 (seed_geometry 100 15 [e] e H1 H2)))).
Defined.

Lemma Qltb_compat (x x' y y' : Q) : x == x' -> y == y' -> Qltb x y = Qltb x' y'.
Proof. intros Hx Hy. unfold Qltb. f_equal. now apply Qleb_comp. Qed.

Lemma win_score_compat (entries : list sentry) (s s' e e' acc : Q) :
  s == s' -> e == e' ->
  fold_left (fun (acc : Q) (x : sentry) =>
               if Qltb (e_end x) s || Qltb e (e_start x) then acc
               else acc + e_score x) entries acc
  = fold_left (fun (acc : Q) (x : sentry) =>
                 if Qltb (e_end x) s' || Qltb e' (e_start x) then acc
                 else acc + e_score x) entries acc.
Proof.
  intros Hs He. revert acc. induction entries as [|x r IH]; intros acc; simpl.
  - reflexivity.
  - rewrite (Qltb_compat (e_end x) (e_end x) s s'), (Qltb_compat e e' (e_start x) (e_start x));
      try reflexivity; try assumption.
    apply IH.
Qed.

(** Entries with one midpoint seed one window. *)
Lemma seed_same_midpoint (d : Q) (L : Z) (entries : list sentry) (e1 e2 : sentry) :
  midpoint e1 == midpoint e2 ->
  weq (seed d L entries e1) (seed d L entries e2).
Proof.
  unfold midpoint. intros Hm. unfold seed.
  set (a1 := Qmax 0 ((e_start e1 + e_end e1) / 2 - inject_Z L / 2)).
  set (a2 := Qmax 0 ((e_start e2 + e_end e2) / 2 - inject_Z L / 2)).
  assert (Ha : a1 == a2) by (unfold a1, a2; now rewrite Hm).
  assert (Hb : a1 + inject_Z L == a2 + inject_Z L) by now rewrite Ha.
  rewrite (Qltb_compat d d _ _ (Qeq_refl d) Hb).
  destruct (Qltb d (a2 + inject_Z L)); unfold weq; simpl.
  - repeat split; reflexivity.
  - repeat split; try assumption.
    now rewrite (win_score_compat entries a1 a2 _ _ 0 Ha Hb).
Qed.

Lemma ForallOrdPairs_impl {A : Type} (R R' : A -> A -> Prop) (l : list A) :
  (forall a b, R a b -> R' a b) -> ForallOrdPairs R l -> ForallOrdPairs R' l.
Proof.
  intros H. induction 1 as [|x l Hx _ IH]; constructor; [|exact IH].
  eapply Forall_impl; [|exact Hx]. apply H.
Qed.

Lemma apart_both (l : list ClipWindow) :
  ForallOrdPairs (fun a b => ~ overlapping a b) l ->
  ForallOrdPairs (fun a b => ~ overlapping a b /\ ~ overlapping b a) l.
Proof.
  apply ForallOrdPairs_impl. intros a b H. split; [exact H|].
  intros O. now apply H, overlapping_sym.
Qed.

Lemma select_windows_apart (d : Q) (L M : Z) (entries : list sentry) :
  ForallOrdPairs (fun a b => ~ overlapping a b) (select_windows d L M entries).
Proof. apply pick_apart. constructor. Qed.

(** Candidates that all overlap one another leave one window. *)
Lemma pick_single (M : Z) (ws : list ClipWindow) :
  (1 <= M)%Z -> ws <> [] ->
  (forall a b, In a ws -> In b ws -> overlapping a b) ->
  exists w, In w ws /\ pick M ws [] = [w].
Proof.
  intros HM Hne H. destruct ws as [|w ws]; [congruence|].
  exists w. split; [now left|]. simpl.
  destruct (Z.leb_spec M 0); [lia|].
  apply pick_all_rejected. apply Forall_forall. intros x Hx.
  constructor. apply H; [now right|now left].
Qed.

Lemma select_single (d : Q) (L M : Z) (entries : list sentry) :
  (1 <= M)%Z -> seeds d L entries <> [] ->
  (forall a b, In a (seeds d L entries) -> In b (seeds d L entries) ->
               overlapping a b) ->
  exists w, In w (seeds d L entries) /\ select_windows d L M entries = [w].
Proof.
  intros HM Hne H. unfold select_windows.
  destruct (seeds d L entries) as [|s ss] eqn:E; [congruence|].
  destruct (pick_single M (sort_desc (s :: ss)) HM) as (w & Hw & Hp).
  - intros N. pose proof (sort_desc_perm (s :: ss)) as P. rewrite N in P.
    now apply Permutation_nil in P.
  - intros a b Ha Hb.
    apply H; eapply Permutation_in; try apply sort_desc_perm; assumption.
  - exists w. split; [|exact Hp].
    eapply Permutation_in; [apply sort_desc_perm|exact Hw].
Qed.

(** C3, as the code has it.  The windows the greedy pick returns never
    overlap pairwise by half of the shorter one or more; so do the windows
    [find_highlights] returns, as soon as the transcript has an entry or the
    target length is positive.  Two seed entries with one midpoint seed
    equal candidates, of which at most one is returned; and when all the
    seed entries share one midpoint and [M >= 1], exactly one window is
    returned, that candidate. *)
Theorem windows_apart (d : Q) (L M : Z) :
  (forall scored : list sentry,
      ForallOrdPairs (fun a b => ~ overlapping a b /\ ~ overlapping b a)
                     (select_windows d L M scored))
  /\ (forall entries : list entry,
         entries <> [] \/ (0 < L)%Z ->
         ForallOrdPairs (fun a b => ~ overlapping a b /\ ~ overlapping b a)
                        (highlights d L M entries))
  /\ (forall (scored : list sentry) (e1 e2 : sentry),
         In e1 scored -> In e2 scored ->
         1 # 2 <= e_score e1 -> 1 # 2 <= e_score e2 ->
         midpoint e1 == midpoint e2 ->
         weq (seed d L scored e1) (seed d L scored e2)
         /\ (copies (seed d L scored e1) (select_windows d L M scored) <= 1)%nat)
  /\ (forall scored : list sentry,
         (1 <= M)%Z ->
         (exists e : sentry, In e scored /\ 1 # 2 <= e_score e) ->
         (forall e1 e2 : sentry,
             In e1 scored -> In e2 scored ->
             1 # 2 <= e_score e1 -> 1 # 2 <= e_score e2 ->
             midpoint e1 == midpoint e2) ->
         exists w, select_windows d L M scored = [w]
                   /\ forall e : sentry, In e scored -> 1 # 2 <= e_score e ->
                                         weq w (seed d L scored e)).
Proof.
  split; [|split; [|split]].
  - intros scored. apply apart_both, select_windows_apart.
  - intros entries H. apply apart_both. unfold highlights.
    destruct entries as [|e es]; [|apply select_windows_apart].
    destruct H as [H|H]; [congruence|]. apply chop_apart, inject_Z_pos, H.
  - intros scored e1 e2 _ _ _ _ Hm. split; [now apply seed_same_midpoint|].
    apply apart_copies, select_windows_apart.
  - intros scored HM (e0 & He0 & Hs0) Hmid.
    assert (Hall : forall a, In a (seeds d L scored) -> weq a (seed d L scored e0)).
    { intros a Ha. apply seeds_In in Ha as (e & He & Hs & ->).
      apply seed_same_midpoint. now apply Hmid. }
    destruct (select_single d L M scored HM) as (w & Hw & Hp).
    + intros N. assert (I : In (seed d L scored e0) (seeds d L scored))
        by (apply seeds_In; eauto).
      rewrite N in I. destruct I.
    + intros a b Ha Hb. apply weq_overlapping.
      exact (weq_trans _ _ _ (Hall a Ha) (weq_sym _ _ (Hall b Hb))).
    + exists w. split; [exact Hp|]. intros e He Hs.
      apply (weq_trans _ _ _ (Hall w Hw)). apply seed_same_midpoint. now apply Hmid.
Qed.

Lemma windows_apart_witness :
  let e := mkScored (mkEntry 7 9 "tip") (7 # 6) in
  exists w, select_windows 100 15 6 [e; e] = [w]
            /\ forall e' : sentry, In e' [e; e] -> 1 # 2 <= e_score e' ->
                                   weq w (seed 100 15 [e; e] e').
Proof.
  intros e.
  apply (proj2 (proj2 (proj2 (windows_apart 100 15 6))) [e; e]).
  - discriminate.
  - exists e. split; [left; reflexivity|discriminate].
  - intros e1 e2 [<-|[<-|[]]] [<-|[<-|[]]] _ _; reflexivity.
Defined.

(** C3, as stated, fails.  In [srt_shared_midpoint] the second and third
    entries are seeds with one midpoint, and neither candidate is
    returned: the window of the first entry, picked before them, overlaps
    both.  And with no entry and a target length of 0 the windows returned
    are all [[0, 0]], which overlap. *)
Lemma shared_midpoint_both_dropped :
  (exists (entries : list entry) (e2 e3 : sentry) (r : list ClipWindow),
      _parse_srt srt_shared_midpoint = Ok entries
      /\ nth_error (score_entries entries) 1 = Some e2
      /\ nth_error (score_entries entries) 2 = Some e3
      /\ 1 # 2 <= e_score e2 /\ 1 # 2 <= e_score e3
      /\ midpoint e2 == midpoint e3
      /\ find_highlights 100 15 6 srt_shared_midpoint = Ok r
      /\ copies (seed 100 15 (score_entries entries) e2) r = 0%nat
      /\ copies (seed 100 15 (score_entries entries) e3) r = 0%nat)
  /\ (exists (a b : ClipWindow) (r : list ClipWindow),
         find_highlights 47 0 6 [] = Ok (a :: b :: r) /\ overlapping a b).
Proof.
  split.
  - do 4 eexists.
    split; [vm_compute; reflexivity|].
    split; [vm_compute; reflexivity|].
    split; [vm_compute; reflexivity|].
    split; [vm_compute; discriminate|].
    split; [vm_compute; discriminate|].
    split; [vm_compute; reflexivity|].
    split; [vm_compute; reflexivity|].
    split; vm_compute; reflexivity.
  - do 3 eexists. split; [vm_compute; reflexivity|].
    vm_compute. discriminate.
Qed.

(** ** A failed probe *)

Lemma seed_flat (L : Z) (entries : list sentry) (e : sentry) :
  (0 <= L)%Z ->
  start (seed 0 L entries e) == 0 /\ end_ (seed 0 L entries e) == 0.
Proof.
  intros HL. assert (HL' : 0 <= inject_Z L)
    by (change 0 with (inject_Z 0); now rewrite <- Zle_Qle).
  set (s0 := Qmax 0 ((e_start e + e_end e) / 2 - inject_Z L / 2)).
  assert (H0 : 0 <= s0) by apply Q.le_max_l.
  destruct (Qlt_le_dec 0 (s0 + inject_Z L)) as [H|H].
  - destruct (seed_clamped 0 L entries e H) as [-> ->].
    split; [apply Q.max_l; lra|reflexivity].
  - destruct (seed_unclamped 0 L entries e H) as [-> ->].
    fold s0. split; lra.
Qed.

(** C10, as the code has it.  With a duration of 0, a target length
    [L >= 0] and an entry scoring at least 0.5: every seeded candidate is
    [[0, 0]], a window of width 0 overlaps every window, and the result is
    exactly one window, [[0, 0]], when [M >= 1], and no window when
    [M <= 0]. *)
Theorem probe_failure_windows (L M : Z) (entries : list entry) :
  (0 <= L)%Z ->
  Exists (fun e => 1 # 2 <= score_entry e) entries ->
  Forall (fun w => start w == 0 /\ end_ w == 0)
         (seeds 0 L (score_entries entries))
  /\ (forall a b : ClipWindow, dur a == 0 -> overlapping a b /\ overlapping b a)
  /\ ((1 <= M)%Z ->
      exists w, highlights 0 L M entries = [w] /\ start w == 0 /\ end_ w == 0)
  /\ ((M <= 0)%Z -> highlights 0 L M entries = []).
Proof.
  intros HL Hex.
  assert (Hflat : Forall (fun w => start w == 0 /\ end_ w == 0)
                         (seeds 0 L (score_entries entries))).
  { apply Forall_forall. intros w Hw. apply seeds_In in Hw as (e & _ & _ & ->).
    now apply seed_flat. }
  assert (Hne : seeds 0 L (score_entries entries) <> []).
  { apply Exists_exists in Hex as (e & He & Hs). intros N.
    assert (I : In (seed 0 L (score_entries entries) (mkScored e (score_entry e)))
                   (seeds 0 L (score_entries entries))).
    { apply seeds_In. exists (mkScored e (score_entry e)).
      split; [|split; [exact Hs|reflexivity]].
      unfold score_entries. apply in_map_iff. eauto. }
    rewrite N in I. destruct I. }
  assert (Hhl : highlights 0 L M entries = select_windows 0 L M (score_entries entries)).
  { destruct entries; [|reflexivity]. inversion Hex. }
  split; [exact Hflat|]. split; [|split].
  - intros a b Ha. apply flat_overlapping. lra.
  - intros HM. rewrite Hhl.
    destruct (select_single 0 L M (score_entries entries) HM Hne) as (w & Hw & Hp).
    + intros a b Ha _. rewrite Forall_forall in Hflat.
      destruct (Hflat a Ha) as [H1 H2].
      refine (proj1 (flat_overlapping a b _)). unfold dur. lra.
    + exists w. split; [exact Hp|]. rewrite Forall_forall in Hflat. now apply Hflat.
  - intros HM. rewrite Hhl. unfold select_windows.
    destruct (sort_desc _) as [|w ws]; [reflexivity|]. simpl.
    destruct (Z.leb_spec M 0); [reflexivity|lia].
Qed.

Lemma probe_failure_windows_witness :
  exists w, highlights 0 15 6 [mkEntry 7 9 "tip"] = [w]
            /\ start w == 0 /\ end_ w == 0.
Proof.
  assert (HL : (0 <= 15)%Z) by discriminate.
  assert (Hex : Exists (fun e => 1 # 2 <= score_entry e) [mkEntry 7 9 "tip"])
    by (constructor; discriminate).
  assert (HM : (1 <= 6)%Z) by discriminate.
  exact (proj1 (proj2 (proj2 (probe_failure_windows 15 6 _ HL Hex))) HM).
Defined.

(** C10, as stated, fails: with a clip limit of 0 no window is returned,
    though the probe gave 0 and the one entry scores more than 0.5. *)
Lemma probe_failure_no_window :
  exists (entries : list entry),
    _parse_srt ["1"; "00:00:07,000 --> 00:00:09,000"; "tip"] = Ok entries
    /\ Exists (fun e => 1 # 2 <= score_entry e) entries
    /\ find_highlights 0 15 0 ["1"; "00:00:07,000 --> 00:00:09,000"; "tip"] = Ok [].
Proof.
  eexists. split; [vm_compute; reflexivity|].
  split; [constructor; vm_compute; discriminate|vm_compute; reflexivity].
Qed.

(** ** Rounding to binary64 *)

(** [F64.of_Q] is the library's division followed by its rounding; the
    lemmas below follow the two through their shifts and say what the
    result is worth. *)

Section Binary64Rounding.

Local Open Scope Z_scope.


Lemma digits2_pos_spec (p : positive) :
  2 ^ (Z.pos (digits2_pos p) - 1) <= Z.pos p < 2 ^ Z.pos (digits2_pos p).
Proof.
  induction p as [p IH|p IH|]; cbn [digits2_pos].
  - rewrite Pos2Z.inj_succ, (Pos2Z.inj_xI p).
    replace (Z.succ (Z.pos (digits2_pos p)) - 1) with (Z.succ (Z.pos (digits2_pos p) - 1)) by lia.
    rewrite !Z.pow_succ_r by lia. lia.
  - rewrite Pos2Z.inj_succ, (Pos2Z.inj_xO p).
    replace (Z.succ (Z.pos (digits2_pos p)) - 1) with (Z.succ (Z.pos (digits2_pos p) - 1)) by lia.
    rewrite !Z.pow_succ_r by lia. lia.
  - simpl. lia.
Qed.

Lemma Zdigits2_spec (m : Z) :
  0 < m -> 2 ^ (Zdigits2 m - 1) <= m < 2 ^ Zdigits2 m.
Proof. destruct m; try lia. intros _. apply digits2_pos_spec. Qed.

Lemma Zdigits2_pos (m : Z) : 0 < m -> 0 < Zdigits2 m.
Proof. destruct m; simpl; lia. Qed.

Lemma Zdigits2_le (m : Z) (k : Z) : 0 <= k -> 0 <= m < 2 ^ k -> Zdigits2 m <= k.
Proof.
  intros Hk [H0 H]. destruct (Z.eq_dec m 0) as [->|Hm]; [simpl; lia|].
  destruct (Zdigits2_spec m ltac:(lia)) as [L _].
  destruct (Z_le_gt_dec (Zdigits2 m) k) as [|G]; [assumption|exfalso].
  assert (2 ^ k <= 2 ^ (Zdigits2 m - 1)) by (apply Z.pow_le_mono_r; lia). lia.
Qed.


Lemma shr_1_locates (N D : Z) (r : shr_record) :
  0 < D -> locates N D r -> locates N (2 * D) (shr_1 r).
Proof.
  intros HD [Hm H]. destruct r as [m rr ss]. cbn [shr_m shr_r shr_s] in *.
  destruct m as [|p|p]; [| |lia].
  - destruct rr, ss; unfold locates; cbn [shr_1 orb shr_m shr_r shr_s]; split; lia.
  - destruct p as [p|p|]; destruct rr, ss; cbn [shr_1 orb locates shr_m shr_r shr_s];
      unfold locates; cbn [shr_m shr_r shr_s];
      rewrite ?(Pos2Z.inj_xI p), ?(Pos2Z.inj_xO p) in *; split; try lia; nia.
Qed.

Lemma shr_1_m (r : shr_record) : 0 <= shr_m r -> shr_m (shr_1 r) = shr_m r / 2.
Proof.
  destruct r as [m rr ss]. cbn [shr_m]. intros H.
  destruct m as [|p|p]; [reflexivity| |lia].
  destruct p as [p|p|]; cbn [shr_1 shr_m].
  - rewrite (Pos2Z.inj_xI p). apply Z.div_unique with 1; lia.
  - rewrite (Pos2Z.inj_xO p). apply Z.div_unique with 0; lia.
  - reflexivity.
Qed.

Lemma iter_shr_locates (k : positive) (N D : Z) (r : shr_record) :
  0 < D -> locates N D r ->
  locates N (2 ^ Z.pos k * D) (iter_pos shr_1 k r)
  /\ shr_m (iter_pos shr_1 k r) = shr_m r / 2 ^ Z.pos k.
Proof.
  revert D r. induction k as [k IH|k IH|]; intros D r HD H; cbn [iter_pos].
  - pose proof (shr_1_locates N D r HD H) as H1.
    destruct (IH (2 * D) (shr_1 r) ltac:(lia) H1) as [H2 E2].
    assert (P : 0 < 2 ^ Z.pos k) by (apply Z.pow_pos_nonneg; lia).
    destruct (IH (2 ^ Z.pos k * (2 * D)) _ ltac:(nia) H2) as [H3 E3].
    rewrite (Pos2Z.inj_xI k).
    replace (2 * Z.pos k + 1) with (Z.pos k + Z.pos k + 1) by lia.
    rewrite !Z.pow_add_r by lia. change (2 ^ 1) with 2.
    split.
    + replace (2 ^ Z.pos k * 2 ^ Z.pos k * 2 * D)
        with (2 ^ Z.pos k * (2 ^ Z.pos k * (2 * D))) by ring. exact H3.
    + rewrite E3, E2, shr_1_m by apply H.
      rewrite !Z.div_div by lia. f_equal. ring.
  - destruct (IH D r HD H) as [H2 E2].
    assert (P : 0 < 2 ^ Z.pos k) by (apply Z.pow_pos_nonneg; lia).
    destruct (IH (2 ^ Z.pos k * D) _ ltac:(nia) H2) as [H3 E3].
    rewrite (Pos2Z.inj_xO k).
    replace (2 * Z.pos k) with (Z.pos k + Z.pos k) by lia.
    rewrite !Z.pow_add_r by lia.
    split.
    + replace (2 ^ Z.pos k * 2 ^ Z.pos k * D)
        with (2 ^ Z.pos k * (2 ^ Z.pos k * D)) by ring. exact H3.
    + rewrite E3, E2. rewrite !Z.div_div by lia. reflexivity.
  - change (2 ^ 1) with 2. split; [now apply shr_1_locates|].
    apply shr_1_m, H.
Qed.

Lemma round_nearest_even_spec (N D : Z) (r : shr_record) :
  0 < D -> locates N D r ->
  let M := round_nearest_even (shr_m r) (loc_of_shr_record r) in
  shr_m r <= M <= shr_m r + 1
  /\ 2 * M * D - D <= 2 * N <= 2 * M * D + D.
Proof.
  intros HD [Hm H]. destruct r as [m rr ss]. cbn [shr_m shr_r shr_s] in *.
  destruct rr, ss; cbn [loc_of_shr_record round_nearest_even];
    try destruct (Z.even m); split; nia.
Qed.

Lemma new_location_locates (q d r : Z) :
  0 <= q -> 0 <= r < d ->
  locates (q * d + r) d (shr_record_of_loc q (new_location d r)).
Proof.
  intros Hq Hr. unfold new_location.
  destruct (Z.even d) eqn:Ev.
  - unfold new_location_even. destruct (Z.eqb_spec r 0) as [->|Hn].
    + unfold locates; cbn [shr_record_of_loc shr_m shr_r shr_s]; split; lia.
    + destruct (Z.compare_spec (2 * r) d); unfold locates; cbn [shr_record_of_loc shr_m shr_r shr_s]; split; lia.
  - unfold new_location_odd. destruct (Z.eqb_spec r 0) as [->|Hn].
    + unfold locates; cbn [shr_record_of_loc shr_m shr_r shr_s]; split; lia.
    + assert (O : Z.odd d = true) by (rewrite <- Z.negb_even, Ev; reflexivity).
      apply Z.odd_spec in O as [k ->].
      destruct (Z.compare_spec (2 * r + 1) (2 * k + 1)); unfold locates; cbn [shr_record_of_loc shr_m shr_r shr_s]; split; lia.
Qed.

Lemma fexp64 (x : Z) : fexp 53 1024 x = Z.max (x - 53) (-1074).
Proof. reflexivity. Qed.

Lemma pow2_pos (k : Z) : 0 <= k -> 0 < 2 ^ k.
Proof. intros. apply Z.pow_pos_nonneg; lia. Qed.

Lemma inject_Z_nonzero (z : Z) : 0 < z -> ~ (inject_Z z == 0)%Q.
Proof.
  intros H C. assert (C' : (inject_Z 0 < inject_Z z)%Q) by (rewrite <- Zlt_Qlt; exact H).
  rewrite C in C'. revert C'. apply Qlt_irrefl.
Qed.

Lemma shr_m_of_loc (m : Z) (l : location) : shr_m (shr_record_of_loc m l) = m.
Proof. destruct l as [|[ | | ]]; reflexivity. Qed.

Lemma to_Q_finite (p : positive) (e : Z) :
  e <= 0 ->
  (F64.to_Q (S754_finite false p e) == inject_Z (Z.pos p) / inject_Z (2 ^ (- e)))%Q.
Proof.
  intros He. destruct e as [|j|j]; [| lia |]; cbn [F64.to_Q].
  - change (2 ^ (- 0)) with 1. change (inject_Z 1) with 1%Q. field.
  - rewrite Qmake_Qdiv. change (- Z.neg j) with (Z.pos j).
    now rewrite Pos2Z.inj_pow.
Qed.

(** The first shift of [binary_round_aux]. *)
Lemma shr_fexp_locates (m e N D : Z) (l : location) :
  0 < D -> locates N D (shr_record_of_loc m l) ->
  let k := Z.max 0 (fexp 53 1024 (Zdigits2 m + e) - e) in
  exists r1,
    shr_fexp 53 1024 m e l = (r1, e + k)
    /\ locates N (2 ^ k * D) r1
    /\ shr_m r1 = m / 2 ^ k.
Proof.
  intros HD H k. unfold shr_fexp, shr. subst k.
  destruct (fexp 53 1024 (Zdigits2 m + e) - e) as [|pk|nk] eqn:E.
  - exists (shr_record_of_loc m l). change (Z.max 0 0) with 0.
    rewrite Z.add_0_r, Z.pow_0_r, Z.mul_1_l, Z.div_1_r, shr_m_of_loc. auto.
  - exists (iter_pos shr_1 pk (shr_record_of_loc m l)).
    replace (Z.max 0 (Z.pos pk)) with (Z.pos pk) by lia.
    destruct (iter_shr_locates pk N D _ HD H) as [H1 H2].
    rewrite shr_m_of_loc in H2. auto.
  - exists (shr_record_of_loc m l).
    replace (Z.max 0 (Z.neg nk)) with 0 by lia.
    rewrite Z.add_0_r, Z.pow_0_r, Z.mul_1_l, Z.div_1_r, shr_m_of_loc. auto.
Qed.

Lemma shr_fexp_exact (M e1 : Z) :
  -1074 <= e1 -> 0 <= M < 2 ^ 53 ->
  shr_fexp 53 1024 M e1 loc_Exact = (Build_shr_record M false false, e1).
Proof.
  intros He HM. unfold shr_fexp, shr.
  assert (D : Zdigits2 M <= 53) by (apply Zdigits2_le; lia).
  assert (0 <= Zdigits2 M) by (destruct M; simpl; lia).
  rewrite fexp64.
  destruct (Z.max (Zdigits2 M + e1 - 53) (-1074) - e1) eqn:E; try reflexivity. lia.
Qed.

Lemma binary_round_aux_spec (m e N D : Z) (l : location) :
  0 < D -> locates N D (shr_record_of_loc m l) ->
  let k := Z.max 0 (fexp 53 1024 (Zdigits2 m + e) - e) in
  e + k <= -1 ->
  exists M,
    0 <= M
    /\ 2 * M * (2 ^ k * D) - 2 ^ k * D <= 2 * N <= 2 * M * (2 ^ k * D) + 2 ^ k * D
    /\ (F64.to_Q (binary_round_aux 53 1024 false m e l)
        == inject_Z M / inject_Z (2 ^ (- (e + k))))%Q.
Proof.
  intros HD H k He1.
  destruct (shr_fexp_locates m e N D l HD H) as (r1 & E1 & L1 & M1). fold k in E1, L1, M1.
  assert (Hk : 0 <= k) by (unfold k; lia).
  pose proof (pow2_pos k Hk) as Pk.
  assert (HD1 : 0 < 2 ^ k * D) by nia.
  destruct (round_nearest_even_spec N (2 ^ k * D) r1 HD1 L1) as [B1 B2].
  set (M := round_nearest_even (shr_m r1) (loc_of_shr_record r1)) in *.
  assert (Hm : 0 <= m) by (destruct H as [H _]; now rewrite shr_m_of_loc in H).
  assert (Hr : 0 <= shr_m r1 < 2 ^ 53).
  { rewrite M1. split; [apply Z.div_pos; lia|].
    apply Z.div_lt_upper_bound; [lia|].
    destruct (Z.eq_dec m 0) as [->|Hm0]; [pose proof (pow2_pos 53 ltac:(lia)); nia|].
    destruct (Zdigits2_spec m ltac:(lia)) as [_ U].
    pose proof (Zdigits2_pos m ltac:(lia)).
    assert (Zdigits2 m <= k + 53) by (unfold k; rewrite fexp64; lia).
    rewrite <- Z.pow_add_r by lia.
    apply Z.lt_le_trans with (1 := U). apply Z.pow_le_mono_r; lia. }
  assert (He : -1074 <= e + k) by (unfold k; rewrite fexp64; lia).
  exists M. split; [lia|]. split; [exact B2|].
  unfold binary_round_aux. rewrite E1. fold M.
  destruct (Z.eq_dec M (2 ^ 53)) as [EM|NM].
  - (* the carry *)
    rewrite EM.
    assert (S3 : shr_fexp 53 1024 (2 ^ 53) (e + k) loc_Exact
                 = (Build_shr_record (2 ^ 52) false false, e + k + 1)).
    { unfold shr_fexp, shr. rewrite fexp64.
      change (Zdigits2 (2 ^ 53)) with 54.
      replace (Z.max (54 + (e + k) - 53) (-1074) - (e + k)) with 1 by lia.
      reflexivity. }
    rewrite S3. cbn [shr_m]. change (2 ^ 52) with (Z.pos (2 ^ 52)).
    replace (e + k + 1 <=? 1024 - 53) with true by (symmetry; apply Z.leb_le; lia).
    rewrite to_Q_finite by lia.
    replace (- (e + k)) with (1 + - (e + k + 1)) by lia.
    rewrite Z.pow_add_r by lia.
    pose proof (pow2_pos (- (e + k + 1)) ltac:(lia)) as Pj.
    rewrite inject_Z_mult. change (inject_Z (2 ^ 53)) with (inject_Z 2 * inject_Z (Z.pos (2 ^ 52)))%Q.
    change (inject_Z (2 ^ 1)) with (inject_Z 2).
    field. now apply inject_Z_nonzero.
  - rewrite shr_fexp_exact by lia. cbn [shr_m].
    destruct M as [|p|p]; [| |lia].
    + cbn [F64.to_Q]. unfold Qdiv. now rewrite Qmult_0_l.
    + replace (e + k <=? 1024 - 53) with true by (symmetry; apply Z.leb_le; lia).
      apply to_Q_finite. lia.
Qed.

Lemma div_eucl_div_mod (a b : Z) : Z.div_eucl a b = (a / b, a mod b).
Proof. unfold Z.div, Z.modulo. now destruct (Z.div_eucl a b). Qed.

Lemma div_core_spec (n d : positive) :
  let e' := Z.min (fexp 53 1024 (Zdigits2 (Z.pos n) - Zdigits2 (Z.pos d))) 0 in
  SFdiv_core_binary 53 1024 (Z.pos n) 0 (Z.pos d) 0
  = ((Z.pos n * 2 ^ (- e')) / Z.pos d, e',
     new_location (Z.pos d) ((Z.pos n * 2 ^ (- e')) mod Z.pos d)).
Proof.
  intros e'. unfold SFdiv_core_binary.
  rewrite !Z.add_0_r. change (0 - 0) with 0. fold e'.
  change (0 - e') with (- e').
  assert (He : e' <= 0) by (unfold e'; lia).
  assert (E : match - e' with
              | 0 => Z.pos n
              | Z.pos _ => Z.shiftl (Z.pos n) (- e')
              | Z.neg _ => 0
              end = Z.pos n * 2 ^ (- e')).
  { destruct (- e') eqn:E; [now rewrite Z.pow_0_r, Z.mul_1_r| |lia].
    rewrite Z.shiftl_mul_pow2 by lia. reflexivity. }
  rewrite E, div_eucl_div_mod. reflexivity.
Qed.

Lemma pow2_lt_inv (a b : Z) : 0 <= b -> 2 ^ a < 2 ^ b -> a < b.
Proof. intros Hb H. apply (Z.pow_lt_mono_r_iff 2); lia. Qed.

(** The float nearest to a positive rational below [2^52]: its value is
    [M / 2^j], with [M] a nearest integer to [2^j n / d], and [j] gives
    53 significant bits unless it is the largest exponent there is. *)
Lemma of_Q_pos_spec (n d : positive) :
  Z.pos n < 2 ^ 52 * Z.pos d ->
  exists M j,
    0 <= M /\ 1 <= j <= 1074
    /\ 2 * M * Z.pos d - Z.pos d <= 2 * (Z.pos n * 2 ^ j) <= 2 * M * Z.pos d + Z.pos d
    /\ (j = 1074 \/ 2 ^ 52 * Z.pos d <= Z.pos n * 2 ^ j)
    /\ (F64.to_Q (F64.of_Q (Z.pos n # d)) == inject_Z M / inject_Z (2 ^ j))%Q.
Proof.
  intros Hq.
  unfold F64.of_Q. cbn [Qnum Qden]. unfold F64.div, SFdiv. cbn [xorb].
  rewrite div_core_spec.
  set (d1 := Zdigits2 (Z.pos n)). set (d2 := Zdigits2 (Z.pos d)).
  destruct (Zdigits2_spec (Z.pos n) eq_refl) as [Ln Un]. fold d1 in Ln, Un.
  destruct (Zdigits2_spec (Z.pos d) eq_refl) as [Ld Ud]. fold d2 in Ld, Ud.
  assert (P1 : 0 < d1) by (apply Zdigits2_pos; lia).
  assert (P2 : 0 < d2) by (apply Zdigits2_pos; lia).
  assert (F1 : d1 - d2 <= 52).
  { assert (2 ^ (d1 - 1) < 2 ^ (52 + d2)).
    { rewrite Z.pow_add_r by lia. nia. }
    apply pow2_lt_inv in H; lia. }
  set (e' := Z.min (fexp 53 1024 (d1 - d2)) 0).
  assert (Ee : e' = Z.max (d1 - d2 - 53) (-1074)) by (unfold e'; rewrite fexp64; lia).
  set (s := - e'). assert (Hs : 1 <= s <= 1074) by lia.
  pose proof (pow2_pos s ltac:(lia)) as Ps.
  set (N := Z.pos n * 2 ^ s).
  set (q0 := N / Z.pos d). set (r := N mod Z.pos d).
  pose proof (Z.div_mod N (Z.pos d) ltac:(lia)) as DM. fold q0 r in DM.
  pose proof (Z.mod_pos_bound N (Z.pos d) ltac:(lia)) as Hr. fold r in Hr.
  assert (Hq0 : 0 <= q0) by (apply Z.div_pos; unfold N; nia).
  assert (Lc : locates N (Z.pos d) (shr_record_of_loc q0 (new_location (Z.pos d) r))).
  { replace N with (q0 * Z.pos d + r) by lia. now apply new_location_locates. }
  assert (F2 : q0 < 2 ^ (52 + s)).
  { apply Z.div_lt_upper_bound; [lia|]. rewrite Z.pow_add_r by lia. unfold N. nia. }
  assert (Dq : Zdigits2 q0 <= 52 + s) by (apply Zdigits2_le; lia).
  assert (Dq0 : 0 <= Zdigits2 q0) by (destruct q0; simpl; lia).
  set (k := Z.max 0 (fexp 53 1024 (Zdigits2 q0 + e') - e')).
  assert (Ek : e' + k = Z.max e' (Z.max (Zdigits2 q0 - s - 53) (-1074)))
    by (unfold k; rewrite fexp64; lia).
  pose proof (binary_round_aux_spec q0 e' N (Z.pos d) _ ltac:(lia) Lc) as S.
  cbv zeta in S. fold k in S.
  destruct (S ltac:(lia)) as (M & HM & B & V). clear S.
  assert (Hk : 0 <= k) by (unfold k; lia).
  pose proof (pow2_pos k Hk) as Pk.
  set (j := - (e' + k)) in *.
  assert (Hj : 1 <= j <= 1074) by lia.
  pose proof (pow2_pos j ltac:(lia)) as Pj.
  assert (Esj : 2 ^ s = 2 ^ k * 2 ^ j).
  { rewrite <- Z.pow_add_r by lia. f_equal. lia. }
  exists M, j. split; [exact HM|]. split; [exact Hj|]. split; [|split; [|exact V]].
  - unfold N in B. rewrite Esj in B. nia.
  - destruct (Z.eq_dec j 1074) as [|Nj]; [now left|right].
    destruct (Z.eq_dec k 0) as [K0|K0].
    + (* no shift: the exponent of the quotient *)
      assert (Ej : j = 53 + d2 - d1) by lia.
      assert (2 ^ (d1 - 1) * 2 ^ j = 2 ^ 52 * 2 ^ d2).
      { rewrite <- !Z.pow_add_r by lia. f_equal. lia. }
      nia.
    + (* a shift: the exponent of the first quotient *)
      assert (Kq : k = Zdigits2 q0 - 53) by lia.
      assert (Q0 : 0 < q0) by (destruct q0; simpl in *; lia).
      destruct (Zdigits2_spec q0 Q0) as [Lq _].
      assert (E2 : 2 ^ (Zdigits2 q0 - 1) = 2 ^ 52 * 2 ^ k).
      { rewrite <- Z.pow_add_r by lia. f_equal. lia. }
      assert (q0 * Z.pos d <= N) by lia.
      unfold N in *. rewrite Esj in *. nia.
Qed.

Lemma binary_round_aux_sign (m e : Z) (l : location) :
  match binary_round_aux 53 1024 false m e l with
  | S754_finite true _ _ => False
  | _ => True
  end.
Proof.
  unfold binary_round_aux.
  destruct (shr_fexp 53 1024 m e l) as [r1 e1].
  destruct (shr_fexp 53 1024 _ e1 loc_Exact) as [r2 e2].
  destruct (shr_m r2); [exact I| |exact I].
  now destruct (e2 <=? 1024 - 53).
Qed.

Lemma to_Q_nonneg (f : F64.float) :
  match f with S754_finite true _ _ => False | _ => True end ->
  (0 <= F64.to_Q f)%Q.
Proof.
  destruct f as [| | |[|] m e]; try (intros; apply Qle_refl); [contradiction|].
  intros _. destruct e; cbn [F64.to_Q]; unfold Qle; cbn [Qnum Qden inject_Z]; lia.
Qed.

Lemma round_nonneg (q : Q) : (0 <= q)%Q -> (0 <= F64.round q)%Q.
Proof.
  intros H. unfold F64.round. apply to_Q_nonneg.
  destruct q as [[|n|n] d]; unfold F64.of_Q; cbn [Qnum Qden].
  - exact I.
  - unfold F64.div, SFdiv.
    destruct (SFdiv_core_binary _ _ _ _ _ _) as [[mz ez] lz]. cbn [xorb].
    apply binary_round_aux_sign.
  - unfold Qle in H. cbn in H. lia.
Qed.

Lemma round_0 (d : positive) : F64.round (0 # d) = 0%Q.
Proof. reflexivity. Qed.

(** Rounding does not cross a whole number. *)
Lemma round_int_le (q : Q) (K : Z) :
  (0 <= q)%Q -> (q < inject_Z (2 ^ 52))%Q ->
  (inject_Z K <= q)%Q -> (inject_Z K <= F64.round q)%Q.
Proof.
  intros H0 H1 HK.
  destruct q as [[|n|n] d].
  - rewrite round_0. unfold Qle in *. cbn [Qnum Qden inject_Z] in *. lia.
  - destruct (of_Q_pos_spec n d) as (M & j & HM & Hj & B & _ & V).
    { unfold Qlt in H1. cbn [Qnum Qden inject_Z] in H1. lia. }
    unfold F64.round. rewrite V.
    pose proof (pow2_pos j ltac:(lia)) as Pj.
    apply Qle_shift_div_l; [rewrite <- (Zlt_Qlt 0); exact Pj|].
    rewrite <- inject_Z_mult, <- Zle_Qle.
    unfold Qle in HK. cbn [Qnum Qden inject_Z] in HK.
    assert (2 * (K * 2 ^ j) * Z.pos d <= 2 * (Z.pos n * 2 ^ j)) by nia.
    assert (2 * (K * 2 ^ j) < 2 * M + 1) by nia.
    lia.
  - unfold Qle in H0. cbn in H0. lia.
Qed.

Lemma round_int_ge (q : Q) (K : Z) :
  (0 <= q)%Q -> (q < inject_Z (2 ^ 52))%Q ->
  (q <= inject_Z K)%Q -> (F64.round q <= inject_Z K)%Q.
Proof.
  intros H0 H1 HK.
  destruct q as [[|n|n] d].
  - rewrite round_0. unfold Qle in *. cbn [Qnum Qden inject_Z] in *. lia.
  - destruct (of_Q_pos_spec n d) as (M & j & HM & Hj & B & _ & V).
    { unfold Qlt in H1. cbn [Qnum Qden inject_Z] in H1. lia. }
    unfold F64.round. rewrite V.
    pose proof (pow2_pos j ltac:(lia)) as Pj.
    apply Qle_shift_div_r; [rewrite <- (Zlt_Qlt 0); exact Pj|].
    rewrite <- inject_Z_mult, <- Zle_Qle.
    unfold Qle in HK. cbn [Qnum Qden inject_Z] in HK.
    assert (2 * (Z.pos n * 2 ^ j) <= 2 * (K * 2 ^ j) * Z.pos d) by nia.
    assert (2 * M - 1 < 2 * (K * 2 ^ j)) by nia.
    lia.
  - unfold Qle in H0. cbn in H0. lia.
Qed.

(** A rational that stays a relative [2^-53] below a whole number is
    rounded to a float below that number. *)
Lemma round_below (q : Q) (K : Z) :
  (0 <= q)%Q -> 1 <= K <= 2 ^ 51 ->
  (q * inject_Z (2 ^ 53) <= inject_Z (K * (2 ^ 53 - 1)))%Q ->
  (F64.round q < inject_Z K)%Q.
Proof.
  intros H0 HK Hq.
  destruct q as [[|n|n] d].
  - rewrite round_0. rewrite <- (Zlt_Qlt 0). lia.
  - unfold Qle in Hq. cbn [Qnum Qden inject_Z Qmult] in Hq.
    rewrite !Z.mul_1_r in Hq. rewrite Pos.mul_1_r in Hq.
    assert (Hn : Z.pos n < K * Z.pos d) by nia.
    destruct (of_Q_pos_spec n d) as (M & j & HM & Hj & B & Pr & V); [nia|].
    unfold F64.round. rewrite V.
    pose proof (pow2_pos j ltac:(lia)) as Pj.
    apply Qlt_shift_div_r; [rewrite <- (Zlt_Qlt 0); exact Pj|].
    rewrite <- inject_Z_mult, <- Zlt_Qlt.
    destruct (Z_lt_ge_dec M (K * 2 ^ j)) as [|G]; [assumption|exfalso].
    set (P := 2 ^ j) in *. set (D := Z.pos d) in *. set (n' := Z.pos n) in *.
    assert (HD : 0 < D) by (unfold D; lia).
    (* 2 K P D - D <= 2 n P  and  2^53 n <= K (2^53 - 1) D *)
    assert (A1 : 2 * (K * P) * D - D <= 2 * (n' * P)) by nia.
    assert (A2 : 2 ^ 53 * (2 * (K * P) * D - D) <= 2 * P * (K * (2 ^ 53 - 1) * D)) by nia.
    assert (A3 : 2 * (K * P) <= 2 ^ 53) by nia.
    destruct Pr as [J|Pr].
    + subst P. rewrite J in A3.
      assert (2 ^ 1074 <= K * 2 ^ 1074) by nia.
      assert (2 ^ 53 < 2 ^ 1074) by (apply Z.pow_lt_mono_r; lia). lia.
    + assert (2 ^ 52 * D < K * P * D) by nia. nia.
  - unfold Qle in H0. cbn in H0. lia.
Qed.


Lemma bounded_mantissa (m : positive) (e : Z) :
  bounded 53 1024 m e = true -> Z.pos m < 2 ^ 53.
Proof.
  unfold bounded, canonical_mantissa. intros H.
  apply andb_true_iff in H as [H _]. apply Z.eqb_eq in H. rewrite fexp64 in H.
  destruct (digits2_pos_spec m) as [_ U].
  apply Z.lt_le_trans with (1 := U). apply Z.pow_le_mono_r; lia.
Qed.

(** The fractional part of a float is a float below 1: it is at most
    [1 - 2^-53]. *)
Lemma float_frac (f : F64.float) :
  finite_nonneg f = true ->
  ((F64.to_Q f - inject_Z (Qfloor (F64.to_Q f))) * inject_Z (2 ^ 53)
   <= inject_Z (2 ^ 53 - 1))%Q.
Proof.
  unfold finite_nonneg. intros H. apply andb_true_iff in H as [V S].
  destruct f as [s|s| |s m e]; try discriminate S.
  - cbn [F64.to_Q]. change (Qfloor 0) with 0. discriminate.
  - destruct s; [discriminate S|]. cbn [valid_binary] in V.
    pose proof (bounded_mantissa m e V) as Hm.
    assert (Int : forall z : Z,
               ((inject_Z z - inject_Z (Qfloor (inject_Z z))) * inject_Z (2 ^ 53)
                <= inject_Z (2 ^ 53 - 1))%Q).
    { intros z. rewrite Qfloor_Z.
      setoid_replace (inject_Z z - inject_Z z)%Q with 0%Q by ring.
      rewrite Qmult_0_l. discriminate. }
    destruct e as [|p|p]; cbn [F64.to_Q]; [apply Int|apply Int|].
    set (P := (2 ^ p)%positive).
    assert (EP : Z.pos P = 2 ^ Z.pos p) by (unfold P; apply Pos2Z.inj_pow).
    change (Qfloor (Z.pos m # P)) with (Z.pos m / Z.pos P).
    pose proof (Z.div_mod (Z.pos m) (Z.pos P) ltac:(lia)) as DM.
    pose proof (Z.mod_pos_bound (Z.pos m) (Z.pos P) ltac:(lia)) as MB.
    set (B := 2 ^ 53) in *. assert (HB : 1 < B) by (unfold B; reflexivity).
    assert (G : (Z.pos m mod Z.pos P) * B <= (B - 1) * Z.pos P).
    { destruct (Z_le_gt_dec (Z.pos P) B) as [L|G]; [nia|].
      rewrite Z.mod_small by lia. nia. }
    unfold Qle, Qminus, Qplus, Qopp, Qmult, inject_Z. cbn [Qnum Qden].
    rewrite !Pos.mul_1_r, !Z.mul_1_r.
    replace (Z.pos m + - (Z.pos m / Z.pos P) * Z.pos P) with (Z.pos m mod Z.pos P) by lia.
    exact G.
Qed.

Lemma Qfloor_mono_Z (x : Q) (z : Z) : (inject_Z z <= x)%Q -> z <= Qfloor x.
Proof. intros H. rewrite <- (Qfloor_Z z). now apply Qfloor_resp_le. Qed.

Lemma Qfloor_le_Z (x : Q) (z : Z) : (x <= inject_Z z)%Q -> Qfloor x <= z.
Proof. intros H. rewrite <- (Qfloor_Z z). now apply Qfloor_resp_le. Qed.

(** The integer part of the rounded product of a fraction by [K]: it is
    the integer part of the exact product or one more, and below [K] when
    the fraction is that of a float. *)
Lemma scaled_fraction (x : Q) (K : Z) :
  1 <= K <= 2 ^ 51 -> (0 <= x)%Q -> (x < 1)%Q ->
  let c := Qfloor (x * inject_Z K) in
  let cc := Qfloor (F64.round (x * inject_Z K)) in
  0 <= c <= cc /\ cc <= c + 1
  /\ ((x * inject_Z (2 ^ 53) <= inject_Z (2 ^ 53 - 1))%Q -> cc <= K - 1).
Proof.
  intros HK H0 H1 c cc.
  assert (PK : (0 < inject_Z K)%Q) by (rewrite <- (Zlt_Qlt 0); lia).
  assert (Q0 : (0 <= x * inject_Z K)%Q) by (apply Qmult_le_0_compat; lra).
  assert (QK : (x * inject_Z K < inject_Z K)%Q) by nra.
  assert (Q52 : (x * inject_Z K < inject_Z (2 ^ 52))%Q).
  { apply Qlt_le_trans with (1 := QK). rewrite <- Zle_Qle. lia. }
  assert (Hc : 0 <= c) by (apply Qfloor_mono_Z; exact Q0).
  split; [split; [exact Hc|]|split].
  - apply Qfloor_mono_Z, round_int_le; try assumption. apply Qfloor_le.
  - apply Qfloor_le_Z, round_int_ge; try assumption.
    apply Qlt_le_weak, Qlt_floor.
  - intros Hx.
    assert (R : (F64.round (x * inject_Z K) < inject_Z K)%Q).
    { apply round_below; try assumption.
      rewrite inject_Z_mult.
      setoid_replace (x * inject_Z K * inject_Z (2 ^ 53))%Q
        with (inject_Z K * (x * inject_Z (2 ^ 53)))%Q by ring.
      apply Qmult_le_l; assumption. }
    pose proof (Qfloor_le (F64.round (x * inject_Z K))) as F. fold cc in F.
    assert (inject_Z cc < inject_Z K)%Q by lra.
    rewrite <- Zlt_Qlt in H. lia.
Qed.

(** On the fractions of the stamps [,000] to [,999], rounding the exact
    product is the float multiplication of the library. *)
Lemma round_is_float_product (n : nat) :
  (n < 1000)%nat ->
  F64.round (F64.to_Q (thousandth n) * 100)
  = F64.to_Q (F64.mul (thousandth n) f100)
  /\ F64.round (F64.to_Q (thousandth n) * 1000)
     = F64.to_Q (F64.mul (thousandth n) F64.f1000).
Proof.
  intros Hn.
  assert (A : map (fun k => F64.of_Q (F64.to_Q (thousandth k) * 100)%Q) (seq 0 1000)
              = map (fun k => F64.mul (thousandth k) f100) (seq 0 1000))
    by (vm_compute; reflexivity).
  assert (B : map (fun k => F64.of_Q (F64.to_Q (thousandth k) * 1000)%Q) (seq 0 1000)
              = map (fun k => F64.mul (thousandth k) F64.f1000) (seq 0 1000))
    by (vm_compute; reflexivity).
  assert (I : In n (seq 0 1000)) by (apply in_seq; lia).
  unfold F64.round. split; f_equal.
  - exact (proj1 map_ext_in_iff A n I).
  - exact (proj1 map_ext_in_iff B n I).
Qed.

End Binary64Rounding.

(** ** Floors *)

Lemma Qfloor_unique (x : Q) (z : Z) :
  inject_Z z <= x -> x < inject_Z (z + 1) -> Qfloor x = z.
Proof.
  intros H1 H2.
  pose proof (Qfloor_le x) as F1. pose proof (Qlt_floor x) as F2.
  assert (A : inject_Z z < inject_Z (Qfloor x + 1)) by lra.
  assert (B : inject_Z (Qfloor x) < inject_Z (z + 1)) by lra.
  rewrite <- Zlt_Qlt in A, B. lia.
Qed.

Lemma Qfloor_div (x : Q) (n : Z) :
  (0 < n)%Z -> Qfloor (x / inject_Z n) = (Qfloor x / n)%Z.
Proof.
  intros Hn. pose proof (inject_Z_pos n Hn) as Hn'.
  pose proof (Qfloor_le x) as F1. pose proof (Qlt_floor x) as F2.
  pose proof (Z.div_mod (Qfloor x) n ltac:(lia)) as E.
  pose proof (Z.mod_pos_bound (Qfloor x) n Hn) as R.
  apply Qfloor_unique.
  - apply Qle_shift_div_l; [exact Hn'|].
    rewrite <- inject_Z_mult.
    apply Qle_trans with (inject_Z (Qfloor x)); [|exact F1].
    rewrite <- Zle_Qle. lia.
  - apply Qlt_shift_div_r; [exact Hn'|].
    rewrite <- inject_Z_mult.
    apply Qlt_le_trans with (inject_Z (Qfloor x + 1)); [exact F2|].
    rewrite <- Zle_Qle. lia.
Qed.

Lemma Qfloor_sub_Z (x : Q) (k : Z) : Qfloor (x - inject_Z k) = (Qfloor x - k)%Z.
Proof.
  pose proof (Qfloor_le x) as F1. pose proof (Qlt_floor x) as F2.
  apply Qfloor_unique.
  - unfold Z.sub. rewrite inject_Z_plus, inject_Z_opp. lra.
  - replace (Qfloor x - k + 1)%Z with (Qfloor x + 1 - k)%Z by lia.
    unfold Z.sub. rewrite inject_Z_plus, inject_Z_opp. lra.
Qed.

Lemma int_of_Q_floor (x : Q) : (0 <= Qfloor x)%Z -> int_of_Q x = Qfloor x.
Proof.
  intros H. unfold int_of_Q. destruct (Qltb x 0) eqn:E; [|reflexivity].
  apply Qltb_lt in E. pose proof (Qfloor_le x) as F.
  assert (A : inject_Z 0 <= inject_Z (Qfloor x)) by now rewrite <- Zle_Qle.
  change (inject_Z 0) with 0 in A. lra.
Qed.

Lemma format_d_two_digits (z : Z) :
  (0 <= z < 100)%Z -> format_d 2 z = two_digits z.
Proof.
  intros H.
  assert (A : forallb (fun n => String.eqb (format_d 2 (Z.of_nat n))
                                           (two_digits (Z.of_nat n)))
                      (seq 0 100) = true) by (vm_compute; reflexivity).
  rewrite forallb_forall in A.
  specialize (A (Z.to_nat z)). rewrite Z2Nat.id in A by lia.
  apply String.eqb_eq, A, in_seq. lia.
Qed.

(** The hours, minutes and seconds both time formatters compute are
    those of the whole seconds of the time. *)
Lemma clock_seconds (t : Q) :
  0 <= t ->
  let sec := Qfloor t in
  (0 <= sec)%Z
  /\ int_of_Q t = sec
  /\ int_of_Q (floordiv t 3600) = (sec / 3600)%Z
  /\ int_of_Q (floordiv (pymod t 3600) 60) = (sec / 60 mod 60)%Z
  /\ int_of_Q (pymod t 60) = (sec mod 60)%Z.
Proof.
  intros Ht sec.
  assert (Hs : (0 <= sec)%Z).
  { unfold sec. change 0%Z with (Qfloor 0). now apply Qfloor_resp_le. }
  assert (Fh : Qfloor (t / 3600) = (sec / 3600)%Z) by exact (Qfloor_div t 3600 eq_refl).
  assert (Fm : Qfloor (t / 60) = (sec / 60)%Z) by exact (Qfloor_div t 60 eq_refl).
  split; [exact Hs|]. split; [now apply int_of_Q_floor|]. split; [|split].
  - unfold floordiv. rewrite int_of_Q_floor; rewrite Qfloor_Z, Fh; [reflexivity|].
    apply Z.div_pos; lia.
  - unfold floordiv, pymod.
    assert (E : Qfloor ((t - 3600 * inject_Z (Qfloor (t / 3600))) / 60)
                = (sec / 60 mod 60)%Z).
    { rewrite Fh.
      rewrite (Qfloor_comp _ (t / 60 - inject_Z (60 * (sec / 3600)))).
      - rewrite Qfloor_sub_Z, Fm.
        replace (sec / 3600)%Z with (sec / 60 / 60)%Z
          by (rewrite Z.div_div by lia; reflexivity).
        rewrite (Z.mod_eq (sec / 60) 60) by lia. reflexivity.
      - rewrite inject_Z_mult. change (inject_Z 60) with 60. field. }
    rewrite int_of_Q_floor; rewrite Qfloor_Z, E; [reflexivity|].
    apply Z.mod_pos_bound. lia.
  - unfold pymod.
    assert (E : Qfloor (t - 60 * inject_Z (Qfloor (t / 60))) = (sec mod 60)%Z).
    { rewrite Fm.
      rewrite (Qfloor_comp _ (t - inject_Z (60 * (sec / 60)))).
      - rewrite Qfloor_sub_Z. fold sec.
        rewrite (Z.mod_eq sec 60) by lia. reflexivity.
      - rewrite inject_Z_mult. change (inject_Z 60) with 60. ring. }
    rewrite int_of_Q_floor; rewrite E; [reflexivity|].
    apply Z.mod_pos_bound. lia.
Qed.

(** The fractional part of a time. *)
Lemma fraction_bounds (t : Q) :
  0 <= t - inject_Z (Qfloor t) /\ t - inject_Z (Qfloor t) < 1.
Proof.
  pose proof (Qfloor_le t) as F1. pose proof (Qlt_floor t) as F2.
  rewrite inject_Z_plus in F2. change (inject_Z 1) with 1 in F2. split; lra.
Qed.

(** The integer part of a product by [K] splits into the whole seconds
    and the integer part of the product of the fraction. *)
Lemma Qfloor_scaled (t : Q) (K : Z) :
  Qfloor (inject_Z K * t)
  = (K * Qfloor t + Qfloor ((t - inject_Z (Qfloor t)) * inject_Z K))%Z.
Proof.
  rewrite (Qfloor_comp ((t - inject_Z (Qfloor t)) * inject_Z K)
                       (inject_Z K * t - inject_Z (K * Qfloor t))).
  - rewrite Qfloor_sub_Z. lia.
  - rewrite inject_Z_mult. ring.
Qed.

(** What [to_ass_time] writes for a time that is not negative: the clock
    of its whole seconds, and the integer part of the rounded product. *)
Lemma to_ass_time_text (t : Q) :
  0 <= t ->
  let sec := Qfloor t in
  let cc := Qfloor (F64.round ((t - inject_Z sec) * 100)) in
  (0 <= sec)%Z /\ (0 <= cc)%Z
  /\ to_ass_time t
     = format_d 1 (sec / 3600) ++ ":" ++ format_d 2 (sec / 60 mod 60) ++ ":"
       ++ format_d 2 (sec mod 60) ++ "." ++ format_d 2 cc.
Proof.
  intros Ht sec cc.
  destruct (clock_seconds t Ht) as (Hs & Ei & Eh & Em & Es). fold sec in Hs, Ei, Eh, Em, Es.
  destruct (fraction_bounds t) as [F0 F1]. fold sec in F0, F1.
  assert (Hcc : (0 <= cc)%Z).
  { apply Qfloor_mono_Z, round_nonneg. change (inject_Z 0) with 0.
    apply Qmult_le_0_compat; lra. }
  split; [exact Hs|]. split; [exact Hcc|].
  unfold to_ass_time. rewrite Eh, Em, Es, Ei.
  rewrite (int_of_Q_floor _ Hcc). reflexivity.
Qed.

Lemma centis_text_split (sec cc : Z) :
  (0 <= sec)%Z -> (0 <= cc <= 99)%Z ->
  centis_text (100 * sec + cc)
  = format_d 1 (sec / 3600) ++ ":" ++ format_d 2 (sec / 60 mod 60) ++ ":"
    ++ format_d 2 (sec mod 60) ++ "." ++ format_d 2 cc.
Proof.
  intros Hs Hc. unfold centis_text.
  assert (E1 : ((100 * sec + cc) / 100 = sec)%Z)
    by (symmetry; apply Z.div_unique with cc; lia).
  assert (E2 : ((100 * sec + cc) mod 100 = cc)%Z)
    by (symmetry; apply Z.mod_unique with sec; lia).
  replace ((100 * sec + cc) / 360000)%Z with ((100 * sec + cc) / 100 / 3600)%Z
    by (rewrite Z.div_div by lia; reflexivity).
  replace ((100 * sec + cc) / 6000)%Z with ((100 * sec + cc) / 100 / 60)%Z
    by (rewrite Z.div_div by lia; reflexivity).
  rewrite E1, E2.
  rewrite !format_d_two_digits; [reflexivity|lia| |];
    match goal with
    | |- (0 <= ?a mod ?b < 100)%Z =>
        pose proof (Z.mod_pos_bound a b ltac:(lia)); lia
    end.
Qed.

(** C7, as the code has it.  A time that is a non-negative float below
    [2^53] (where the quotients and remainders of the source are exact)
    is written [H:MM:SS.cc]: the clock of its whole seconds, and for
    [cc] the integer part of the float product [(t - int(t)) * 100].
    That product is rounded before it is cut: [cc] is the number of whole
    centiseconds in the fraction or one more, and at most 99, so that the
    stamp is that of [floor (100 t)] centiseconds or of one centisecond
    more.  The float 125.456 gives ["0:02:05.45"], where rounding the
    time would give [.46]. *)
Theorem to_ass_time_truncates (f : F64.float) :
  finite_nonneg f = true ->
  let t := F64.to_Q f in
  t < inject_Z (2 ^ 53) ->
  let c := Qfloor (100 * t) in
  let cc := Qfloor (F64.round ((t - inject_Z (Qfloor t)) * 100)) in
  (to_ass_time t = centis_text c \/ to_ass_time t = centis_text (c + 1))
  /\ to_ass_time t = centis_text (100 * Qfloor t + cc)
  /\ (c mod 100 <= cc <= c mod 100 + 1)%Z /\ (0 <= cc <= 99)%Z
  /\ F64.of_Q (125456 # 1000) = f125_456
  /\ to_ass_time (F64.to_Q f125_456) = "0:02:05.45"
  /\ centis_text (round_half_even (100 * F64.to_Q f125_456)) = "0:02:05.46".
Proof.
  intros Hf t _ c cc.
  assert (Ht : 0 <= t).
  { unfold t. apply to_Q_nonneg. unfold finite_nonneg in Hf.
    apply andb_true_iff in Hf as [_ Hf]. destruct f as [| | |[|] m e]; try exact I.
    discriminate Hf. }
  destruct (to_ass_time_text t Ht) as (Hs & _ & E).
  destruct (fraction_bounds t) as [F0 F1].
  assert (HK : (1 <= 100 <= 2 ^ 51)%Z) by (split; [lia|apply Z.leb_le; reflexivity]).
  destruct (scaled_fraction (t - inject_Z (Qfloor t)) 100 HK F0 F1) as (C0 & C1 & C2).
  change (inject_Z 100) with 100 in C0, C1, C2. fold cc in C0, C1, C2.
  specialize (C2 (float_frac f Hf)).
  set (c0 := Qfloor ((t - inject_Z (Qfloor t)) * 100)) in *.
  assert (Ec : c = (100 * Qfloor t + c0)%Z) by apply (Qfloor_scaled t 100).
  assert (Hc0 : (0 <= c0 <= 99)%Z) by lia.
  assert (Em : (c mod 100 = c0)%Z)
    by (rewrite Ec; symmetry; apply Z.mod_unique with (Qfloor t); lia).
  assert (Et : to_ass_time t = centis_text (100 * Qfloor t + cc))
    by (rewrite centis_text_split by lia; exact E).
  split; [|split; [exact Et|split; [lia|split; [lia|]]]].
  - rewrite Et, Ec.
    destruct (Z.eq_dec cc c0) as [->|N]; [now left|right].
    f_equal. lia.
  - split; [vm_compute; reflexivity|]. split; vm_compute; reflexivity.
Qed.

Lemma to_ass_time_truncates_witness :
  finite_nonneg f125_456 = true
  /\ F64.to_Q f125_456 < inject_Z (2 ^ 53)
  /\ to_ass_time (F64.to_Q f125_456)
     = centis_text (100 * Qfloor (F64.to_Q f125_456)
                    + Qfloor (F64.round ((F64.to_Q f125_456
                                          - inject_Z (Qfloor (F64.to_Q f125_456))) * 100))).
Proof.
  assert (H : finite_nonneg f125_456 = true) by reflexivity.
  assert (L : F64.to_Q f125_456 < inject_Z (2 ^ 53)) by reflexivity.
  exact (conj H (conj L (proj1 (proj2 (to_ass_time_truncates f125_456 H L))))).
Defined.

(** C7, as stated, fails.  The entry read from ["00:00:00,830"] holds the
    float 0.83, which is below 83/100: it has 82 whole centiseconds.  Its
    product by 100 rounds to the float 83, and the stamp reads [.83]. *)
Lemma to_ass_time_not_truncated :
  _srt_time_to_sec "00:00:00,830" = Ok f0_83
  /\ finite_nonneg f0_83 = true
  /\ F64.to_Q f0_83 < 83 # 100
  /\ Qfloor (100 * F64.to_Q f0_83) = 82%Z
  /\ F64.mul f0_83 f100 = f83
  /\ to_ass_time (F64.to_Q f0_83) = "0:00:00.83"
  /\ centis_text (Qfloor (100 * F64.to_Q f0_83)) = "0:00:00.82".
Proof.
  repeat split; vm_compute; reflexivity.
Qed.

Section RenderFacts.

Variable encoder : RenderJob -> Z.

Lemma first_failure (jobs : list RenderJob) :
  Exists (fun j => encoder j <> 0%Z) jobs ->
  exists before bad after,
    jobs = (before ++ bad :: after)%list
    /\ Forall (fun j => encoder j = 0%Z) before
    /\ encoder bad <> 0%Z.
Proof.
  induction jobs as [|j jobs IH]; intros H; [inversion H|].
  destruct (Z.eq_dec (encoder j) 0) as [E|E].
  - destruct IH as (before & bad & after & -> & Hb & Hbad).
    + inversion H as [? ? N|]; subst; [contradiction|assumption].
    + exists (j :: before), bad, after. repeat split; auto.
  - exists [], j, jobs. repeat split; auto.
Qed.

Lemma render_loop_fails (w h : Z) (vf : string) (before : list RenderJob) :
  forall (clips : list ClipWindow) (idx : nat) (manifest : list ManifestEntry)
         (ran : list RenderJob) (bad : RenderJob) (after : list RenderJob),
    jobs_from vf idx clips = (before ++ bad :: after)%list ->
    Forall (fun j => encoder j = 0%Z) before ->
    encoder bad <> 0%Z ->
    render_loop encoder w h vf clips idx manifest ran
    = ((ran ++ before ++ [bad])%list,
       Raise (RuntimeError ("Command failed: " ++ job_out bad))).
Proof.
  induction before as [|b before IH];
    intros clips idx manifest ran bad after E Hb Hbad;
    destruct clips as [|clip rest]; simpl in E; try discriminate;
    injection E as E1 E2; simpl render_loop; unfold run.
  - rewrite E1. apply Z.eqb_neq in Hbad. rewrite Hbad. reflexivity.
  - inversion Hb as [|? ? Hb1 Hb2]; subst b.
    rewrite Hb1. simpl.
    rewrite (IH rest (S idx) _ _ bad after E2 Hb2 Hbad).
    now rewrite <- app_assoc.
Qed.

Lemma render_loop_succeeds (w h : Z) (vf : string) (clips : list ClipWindow) :
  forall (idx : nat) (manifest : list ManifestEntry) (ran : list RenderJob),
    Forall (fun j => encoder j = 0%Z) (jobs_from vf idx clips) ->
    exists added,
      render_loop encoder w h vf clips idx manifest ran
      = ((ran ++ jobs_from vf idx clips)%list, Ok (manifest ++ added)%list)
      /\ List.length added = List.length clips.
Proof.
  induction clips as [|clip rest IH]; intros idx manifest ran H; simpl.
  - exists []. now rewrite !app_nil_r.
  - inversion H as [|? ? H1 H2]; subst. unfold run. rewrite H1. simpl.
    match goal with
    | |- context [render_loop _ _ _ _ _ _ ?m ?r] =>
        destruct (IH (S idx) m r H2) as (added & E & Hl)
    end.
    rewrite E. eexists (_ :: added). rewrite <- !app_assoc. simpl.
    split; [reflexivity|now rewrite Hl].
Qed.

End RenderFacts.

(** C9.  Once the subtitle track is written, if the encoder exits with a
    status other than 0 for the job of some clip, the batch raises
    [RuntimeError] and returns no manifest, not even for the clips already
    encoded; the jobs handed to the encoder are those up to the first
    failing one, and none after it. *)
Theorem render_fail_fast (encoder : RenderJob -> Z) (srt : list string)
    (clips : list ClipWindow) (aspect style ass : string) :
  _srt_to_ass srt style = Ok ass ->
  let planned := jobs_from (snd (_aspect_filter aspect)) 1 clips in
  Exists (fun j => encoder j <> 0%Z) planned ->
  exists before bad after,
    planned = (before ++ bad :: after)%list
    /\ Forall (fun j => encoder j = 0%Z) before
    /\ encoder bad <> 0%Z
    /\ render_clips_with_captions encoder srt clips aspect style
       = ((before ++ [bad])%list,
          Raise (RuntimeError ("Command failed: " ++ job_out bad))).
Proof.
  intros Hass planned Hex.
  destruct (first_failure encoder planned Hex) as (before & bad & after & E & Hb & Hbad).
  exists before, bad, after. repeat split; try assumption.
  unfold render_clips_with_captions. rewrite Hass.
  destruct (_aspect_filter aspect) as [[w h] vf] eqn:Ea. simpl in planned.
  exact (render_loop_fails encoder w h vf before clips 1 [] [] bad after E Hb Hbad).
Qed.

Lemma render_fail_fast_witness :
  exists before bad after,
    jobs_from (snd (_aspect_filter "1:1")) 1
      [mkClipWindow 0 15 1; mkClipWindow 15 30 1; mkClipWindow 30 45 1]
    = (before ++ bad :: after)%list
    /\ Forall (fun j => fails_on "clip_02.mp4" j = 0%Z) before
    /\ fails_on "clip_02.mp4" bad <> 0%Z
    /\ render_clips_with_captions (fails_on "clip_02.mp4") []
         [mkClipWindow 0 15 1; mkClipWindow 15 30 1; mkClipWindow 30 45 1]
         "1:1" "default"
       = ((before ++ [bad])%list,
          Raise (RuntimeError ("Command failed: " ++ job_out bad))).
Proof.
  eapply (render_fail_fast (fails_on "clip_02.mp4") []).
  - vm_compute. reflexivity.
  - apply Exists_cons_tl, Exists_cons_hd. vm_compute. discriminate.
Defined.

(** ** Decimal numerals *)

Lemma all_digits_app (a b : string) :
  all_digits (a ++ b) = all_digits a && all_digits b.
Proof.
  induction a as [|c a IH]; simpl; [reflexivity|]. now rewrite IH, andb_assoc.
Qed.

Lemma value_from_app (a b : string) (acc : Z) :
  value_from acc (a ++ b) = value_from (value_from acc a) b.
Proof.
  revert acc. induction a as [|c a IH]; intros acc; simpl; [reflexivity|apply IH].
Qed.

Ltac digit_value_compute :=
  match goal with
  | |- context [Py.digit_value ?c] =>
      let v := eval vm_compute in (Py.digit_value c) in
      change (Py.digit_value c) with v
  end.

Lemma uint_digits (u : Decimal.uint) :
  all_digits (NilEmpty.string_of_uint u) = true.
Proof. induction u; simpl; auto. Qed.

Lemma uint_value_acc (u : Decimal.uint) (acc : positive) :
  value_from (Z.pos acc) (NilEmpty.string_of_uint u)
  = Z.pos (Pos.of_uint_acc u acc).
Proof.
  revert acc.
  induction u; intros acc;
    cbn [NilEmpty.string_of_uint value_from Pos.of_uint_acc];
    try reflexivity; rewrite <- IHu; f_equal; digit_value_compute; lia.
Qed.

Lemma uint_value (u : Decimal.uint) :
  value (NilEmpty.string_of_uint u) = Z.of_N (Pos.of_uint u).
Proof.
  unfold value.
  induction u; cbn [NilEmpty.string_of_uint value_from Pos.of_uint Z.of_N];
    try reflexivity; digit_value_compute;
    try (rewrite <- uint_value_acc; reflexivity).
  exact IHu.
Qed.

Lemma decimal_NilEmpty (n : N) :
  NilZero.string_of_uint (N.to_uint n) = NilEmpty.string_of_uint (N.to_uint n)
  /\ NilEmpty.string_of_uint (N.to_uint n) <> EmptyString.
Proof.
  destruct n as [|p]; [split; [reflexivity|discriminate]|].
  simpl N.to_uint. pose proof (DecimalPos.Unsigned.to_uint_nonnil p) as H.
  destruct (Pos.to_uint p); try congruence; split; try reflexivity; discriminate.
Qed.

Lemma decimal_numeral (z : Z) :
  (0 <= z)%Z -> numeral (decimal z) /\ value (decimal z) = z.
Proof.
  intros H. unfold decimal.
  destruct (decimal_NilEmpty (Z.to_N z)) as [E N]. rewrite E.
  split; [split; [exact N|apply uint_digits]|].
  rewrite uint_value.
  change (Pos.of_uint (N.to_uint (Z.to_N z))) with (N.of_uint (N.to_uint (Z.to_N z))).
  rewrite DecimalN.Unsigned.of_to. lia.
Qed.

Lemma zeros_digits (k : nat) : all_digits (zeros k) = true.
Proof. induction k; simpl; auto. Qed.

Lemma zeros_value (k : nat) : value_from 0 (zeros k) = 0%Z.
Proof. induction k; simpl; auto. Qed.

(** A non-negative number formatted with [0{width}d] is a numeral that
    reads back as the number. *)
Lemma format_d_numeral (width : nat) (z : Z) :
  (0 <= z)%Z -> numeral (format_d width z) /\ value (format_d width z) = z.
Proof.
  intros H. destruct (decimal_numeral z H) as [[N D] V].
  unfold format_d. replace (z <? 0)%Z with false by (symmetry; apply Z.ltb_ge, H).
  rewrite Z.abs_eq by exact H.
  set (k := (width - String.length "" - String.length (decimal z))%nat).
  change ("" ++ zeros k ++ decimal z) with (zeros k ++ decimal z).
  split; [split|].
  - destruct (zeros _); simpl; [exact N|discriminate].
  - now rewrite all_digits_app, zeros_digits, D.
  - unfold value. now rewrite value_from_app, zeros_value.
Qed.

(** ** The stamp of a time *)

(** What [_sec_to_srt_time] writes for a time that is not negative: the
    clock of its whole seconds, and the integer part of the rounded
    product. *)
Lemma sec_to_srt_time_text (t : Q) :
  0 <= t ->
  let sec := Qfloor t in
  let ms := Qfloor (F64.round ((t - inject_Z sec) * 1000)) in
  (0 <= sec)%Z /\ (0 <= ms)%Z
  /\ _sec_to_srt_time t
     = stamp_text (format_d 2 (sec / 3600)) (format_d 2 (sec / 60 mod 60))
                  (format_d 2 (sec mod 60)) (format_d 3 ms).
Proof.
  intros Ht sec ms.
  destruct (clock_seconds t Ht) as (Hs & Ei & Eh & Em & Es). fold sec in Hs, Ei, Eh, Em, Es.
  destruct (fraction_bounds t) as [F0 F1]. fold sec in F0, F1.
  assert (Hms : (0 <= ms)%Z).
  { apply Qfloor_mono_Z, round_nonneg. change (inject_Z 0) with 0.
    apply Qmult_le_0_compat; lra. }
  split; [exact Hs|]. split; [exact Hms|].
  unfold _sec_to_srt_time, stamp_text. rewrite Eh, Em, Es, Ei.
  rewrite (int_of_Q_floor _ Hms). reflexivity.
Qed.

Lemma string_app_assoc (a b c : string) : (a ++ b) ++ c = a ++ b ++ c.
Proof. induction a as [|x a IH]; simpl; [reflexivity|now rewrite IH]. Qed.

Lemma string_length_app (a b : string) :
  String.length (a ++ b) = (String.length a + String.length b)%nat.
Proof. induction a as [|c a IH]; simpl; [reflexivity|now rewrite IH]. Qed.

Lemma millis_text_split (sec ms : Z) :
  (0 <= sec)%Z -> (0 <= ms <= 999)%Z ->
  millis_text (1000 * sec + ms)
  = stamp_text (format_d 2 (sec / 3600)) (format_d 2 (sec / 60 mod 60))
               (format_d 2 (sec mod 60)) (format_d 3 ms).
Proof.
  intros Hs Hm. unfold millis_text.
  assert (E1 : ((1000 * sec + ms) / 1000 = sec)%Z)
    by (symmetry; apply Z.div_unique with ms; lia).
  assert (E2 : ((1000 * sec + ms) mod 1000 = ms)%Z)
    by (symmetry; apply Z.mod_unique with sec; lia).
  replace ((1000 * sec + ms) / 3600000)%Z with ((1000 * sec + ms) / 1000 / 3600)%Z
    by (rewrite Z.div_div by lia; reflexivity).
  replace ((1000 * sec + ms) / 60000)%Z with ((1000 * sec + ms) / 1000 / 60)%Z
    by (rewrite Z.div_div by lia; reflexivity).
  now rewrite E1, E2.
Qed.

Lemma format_d_length_2 (z : Z) :
  (0 <= z < 100)%Z -> String.length (format_d 2 z) = 2%nat.
Proof. intros H. now rewrite format_d_two_digits. Qed.

Lemma format_d_length_3 (z : Z) :
  (0 <= z < 1000)%Z -> String.length (format_d 3 z) = 3%nat.
Proof.
  intros H.
  assert (A : forallb (fun n => (String.length (format_d 3 (Z.of_nat n)) =? 3)%nat)
                      (seq 0 1000) = true) by (vm_compute; reflexivity).
  rewrite forallb_forall in A.
  specialize (A (Z.to_nat z)). rewrite Z2Nat.id in A by lia.
  apply Nat.eqb_eq, A, in_seq. lia.
Qed.

(** [int] reads a formatted field back. *)
Lemma numeral_value_format_d (width : nat) (z : Z) :
  (0 <= z)%Z -> (String.length (format_d width z) <= 3)%nat ->
  numeral_value (format_d width z) = Ok z.
Proof.
  intros Hz Hl. unfold numeral_value.
  destruct (Nat.ltb_spec Py.int_max_str_digits (String.length (format_d width z)))
    as [L|_].
  - exfalso. apply (Nat.lt_irrefl (String.length (format_d width z))).
    apply Nat.le_lt_trans with (1 := Hl). apply Nat.lt_trans with (2 := L).
    apply Nat.ltb_lt. reflexivity.
  - f_equal. apply format_d_numeral, Hz.
Qed.

(** X2.  A time below 100 hours that is a non-negative float is written
    [HH:MM:SS,mmm], twelve characters: the clock of its whole seconds,
    and for [mmm] the integer part of the float product
    [(t - int(t)) * 1000].  That product is rounded before it is cut:
    the stamp is that of [floor (1000 t)] milliseconds or of one more,
    never less, and [mmm] is at most 999; the float 0.83, which holds
    829 whole milliseconds, is written [,830].  The parser's conversion
    reads the four numbers written back from it. *)
Theorem srt_time_round_trip (f : F64.float) :
  finite_nonneg f = true ->
  let t := F64.to_Q f in
  t < 360000 ->
  let c := Qfloor (1000 * t) in
  let ms := Qfloor (F64.round ((t - inject_Z (Qfloor t)) * 1000)) in
  let w := (1000 * Qfloor t + ms)%Z in
  (w = c \/ w = (c + 1)%Z)
  /\ (0 <= ms <= 999)%Z
  /\ _sec_to_srt_time t = millis_text w
  /\ String.length (_sec_to_srt_time t) = 12%nat
  /\ _srt_time_to_sec (_sec_to_srt_time t)
     = stamp_float (w / 3600000) (w / 60000 mod 60) (w / 1000 mod 60) (w mod 1000)
  /\ _sec_to_srt_time (F64.to_Q f0_83) = "00:00:00,830"
  /\ Qfloor (1000 * F64.to_Q f0_83) = 829%Z.
Proof.
  intros Hf t Hlt c ms w.
  assert (Ht : 0 <= t).
  { unfold t. apply to_Q_nonneg. unfold finite_nonneg in Hf.
    apply andb_true_iff in Hf as [_ Hf]. destruct f as [| | |[|] m e]; try exact I.
    discriminate Hf. }
  destruct (sec_to_srt_time_text t Ht) as (Hs & _ & E).
  destruct (fraction_bounds t) as [F0 F1].
  assert (HK : (1 <= 1000 <= 2 ^ 51)%Z) by (split; [lia|apply Z.leb_le; reflexivity]).
  destruct (scaled_fraction (t - inject_Z (Qfloor t)) 1000 HK F0 F1) as (C0 & C1 & C2).
  change (inject_Z 1000) with 1000 in C0, C1, C2. fold ms in C0, C1, C2.
  specialize (C2 (float_frac f Hf)).
  set (c0 := Qfloor ((t - inject_Z (Qfloor t)) * 1000)) in *.
  assert (Ec : c = (1000 * Qfloor t + c0)%Z) by apply (Qfloor_scaled t 1000).
  assert (Hms : (0 <= ms <= 999)%Z) by lia.
  assert (Hsec : (Qfloor t < 360000)%Z).
  { pose proof (Qfloor_le t) as F.
    assert (A : inject_Z (Qfloor t) < inject_Z 360000)
      by (change (inject_Z 360000) with 360000; lra).
    now rewrite <- Zlt_Qlt in A. }
  assert (Et : _sec_to_srt_time t = millis_text w)
    by (unfold w; rewrite millis_text_split by lia; exact E).
  set (h := (Qfloor t / 3600)%Z) in *.
  set (m := (Qfloor t / 60 mod 60)%Z) in *.
  set (s := (Qfloor t mod 60)%Z) in *.
  assert (Hh : (0 <= h < 100)%Z).
  { unfold h. split; [apply Z.div_pos; lia|apply Z.div_lt_upper_bound; lia]. }
  assert (Hm : (0 <= m < 60)%Z) by (apply Z.mod_pos_bound; lia).
  assert (Hsd : (0 <= s < 60)%Z) by (apply Z.mod_pos_bound; lia).
  assert (Ew : millis_text w = stamp_text (format_d 2 h) (format_d 2 m)
                                          (format_d 2 s) (format_d 3 ms))
    by (rewrite <- Et; exact E).
  assert (Fw : (w / 3600000 = h /\ w / 60000 mod 60 = m /\ w / 1000 mod 60 = s
                /\ w mod 1000 = ms)%Z).
  { assert (E1 : (w / 1000 = Qfloor t)%Z)
      by (symmetry; apply Z.div_unique with ms; unfold w; lia).
    replace (w / 3600000)%Z with (w / 1000 / 3600)%Z
      by (rewrite Z.div_div by lia; reflexivity).
    replace (w / 60000)%Z with (w / 1000 / 60)%Z
      by (rewrite Z.div_div by lia; reflexivity).
    rewrite E1. repeat split.
    symmetry; apply Z.mod_unique with (Qfloor t); unfold w; lia. }
  destruct Fw as (Wh & Wm & Ws & Wms).
  split; [|split; [exact Hms|split; [exact Et|split; [|split;
    [|split; vm_compute; reflexivity]]]]].
  - unfold w. rewrite Ec. destruct (Z.eq_dec ms c0) as [->|N]; [now left|right; lia].
  - rewrite E. unfold stamp_text. rewrite !string_length_app.
    rewrite !format_d_length_2, format_d_length_3 by lia. reflexivity.
  - rewrite Wh, Wm, Ws, Wms, E.
    rewrite srt_time_to_sec_numerals by (apply format_d_numeral; lia).
    rewrite !numeral_value_format_d; try lia; try reflexivity.
    + rewrite format_d_length_3 by lia. apply Nat.le_refl.
    + rewrite format_d_length_2 by lia. apply Nat.le_succ_diag_r.
    + rewrite format_d_length_2 by lia. apply Nat.le_succ_diag_r.
    + rewrite format_d_length_2 by lia. apply Nat.le_succ_diag_r.
Qed.

Lemma srt_time_round_trip_witness :
  finite_nonneg f0_83 = true
  /\ F64.to_Q f0_83 < 360000
  /\ String.length (_sec_to_srt_time (F64.to_Q f0_83)) = 12%nat.
Proof.
  assert (H : finite_nonneg f0_83 = true) by reflexivity.
  assert (L : F64.to_Q f0_83 < 360000) by reflexivity.
  exact (conj H (conj L
           (proj1 (proj2 (proj2 (proj2 (srt_time_round_trip f0_83 H L))))))).
Defined.

(** ** What the time-line pattern captures *)

Lemma span_digits (s run rest : string) :
  TimeLine.span Py.is_digit s = (run, rest) ->
  all_digits run = true /\ s = run ++ rest.
Proof.
  revert run rest. induction s as [|c s IH]; intros run rest; simpl.
  - intros [= <- <-]. auto.
  - destruct (Py.is_digit c) eqn:E.
    + destruct (TimeLine.span Py.is_digit s) as [run' rest'].
      intros [= <- <-]. destruct (IH _ _ eq_refl) as [H1 H2].
      simpl. rewrite E, H1. split; [reflexivity|now f_equal].
    + intros [= <- <-]. auto.
Qed.

Lemma many1_digits (s run rest : string) :
  TimeLine.many1 Py.is_digit s = Some (run, rest) -> numeral run.
Proof.
  unfold TimeLine.many1.
  destruct (TimeLine.span Py.is_digit s) as [r0 r1] eqn:E.
  apply span_digits in E as [H _].
  destruct r0; [discriminate|]. intros [= <- <-]. split; [discriminate|exact H].
Qed.

Lemma stamp_is_stamp (s g rest : string) :
  TimeLine.stamp s = Some (g, rest) -> is_stamp g.
Proof.
  unfold TimeLine.stamp.
  destruct (TimeLine.many1 Py.is_digit s) as [[h s1]|] eqn:E1; [|discriminate].
  destruct (TimeLine.lit ":" s1) as [s2|]; [|discriminate].
  destruct (TimeLine.many1 Py.is_digit s2) as [[m s3]|] eqn:E2; [|discriminate].
  destruct (TimeLine.lit ":" s3) as [s4|]; [|discriminate].
  destruct (TimeLine.many1 Py.is_digit s4) as [[sec s5]|] eqn:E3; [|discriminate].
  destruct (TimeLine.lit "," s5) as [s6|]; [|discriminate].
  destruct (TimeLine.many1 Py.is_digit s6) as [[ms s7]|] eqn:E4; [|discriminate].
  intros [= <- <-]. exists h, m, sec, ms.
  exact (conj (many1_digits _ _ _ E1) (conj (many1_digits _ _ _ E2)
           (conj (many1_digits _ _ _ E3) (conj (many1_digits _ _ _ E4) eq_refl)))).
Qed.

Lemma here_stamps (s g1 g2 : string) :
  TimeLine.here s = Some (g1, g2) -> is_stamp g1 /\ is_stamp g2.
Proof.
  unfold TimeLine.here.
  destruct (TimeLine.stamp s) as [[a s1]|] eqn:E1; [|discriminate].
  destruct (TimeLine.many1 Py.is_space s1) as [[x s2]|]; [|discriminate].
  destruct (TimeLine.lit "-->" s2) as [s3|]; [|discriminate].
  destruct (TimeLine.many1 Py.is_space s3) as [[y s4]|]; [|discriminate].
  destruct (TimeLine.stamp s4) as [[b s5]|] eqn:E2; [|discriminate].
  intros [= <- <-]. split; eapply stamp_is_stamp; eassumption.
Qed.

Lemma re_match_stamps (s g1 g2 : string) :
  TimeLine.re_match s = Some (g1, g2) -> is_stamp g1 /\ is_stamp g2.
Proof.
  induction s as [|c s IH]; simpl.
  - discriminate.
  - destruct (TimeLine.here (String c s)) as [[a b]|] eqn:E.
    + intros [= <- <-]. now apply here_stamps in E.
    + destruct (Ascii.eqb c TimeLine.newline); [discriminate|exact IH].
Qed.

(** ** A capture is no longer than its line *)

Lemma span_app (p : ascii -> bool) (s run rest : string) :
  TimeLine.span p s = (run, rest) -> s = run ++ rest.
Proof.
  revert run rest. induction s as [|c s IH]; intros run rest; simpl.
  - now intros [= <- <-].
  - destruct (p c).
    + destruct (TimeLine.span p s) as [run' rest'].
      intros [= <- <-]. simpl. f_equal. now apply IH.
    + now intros [= <- <-].
Qed.

Lemma many1_app (p : ascii -> bool) (s run rest : string) :
  TimeLine.many1 p s = Some (run, rest) -> s = run ++ rest.
Proof.
  unfold TimeLine.many1. destruct (TimeLine.span p s) as [r0 r1] eqn:E.
  apply span_app in E. destruct r0; [discriminate|]. now intros [= <- <-].
Qed.

Lemma lit_app (l s rest : string) : TimeLine.lit l s = Some rest -> s = l ++ rest.
Proof.
  revert s. induction l as [|a l IH]; intros s; simpl.
  - now intros [= <-].
  - destruct s as [|b s]; [discriminate|].
    destruct (Ascii.eqb_spec a b) as [<-|]; [|discriminate].
    intros H. simpl. f_equal. now apply IH.
Qed.

Lemma stamp_app (s g rest : string) :
  TimeLine.stamp s = Some (g, rest) -> s = g ++ rest.
Proof.
  unfold TimeLine.stamp.
  destruct (TimeLine.many1 Py.is_digit s) as [[h s1]|] eqn:E1; [|discriminate].
  destruct (TimeLine.lit ":" s1) as [s2|] eqn:L1; [|discriminate].
  destruct (TimeLine.many1 Py.is_digit s2) as [[m s3]|] eqn:E2; [|discriminate].
  destruct (TimeLine.lit ":" s3) as [s4|] eqn:L2; [|discriminate].
  destruct (TimeLine.many1 Py.is_digit s4) as [[sec s5]|] eqn:E3; [|discriminate].
  destruct (TimeLine.lit "," s5) as [s6|] eqn:L3; [|discriminate].
  destruct (TimeLine.many1 Py.is_digit s6) as [[ms s7]|] eqn:E4; [|discriminate].
  intros [= <- <-].
  apply many1_app in E1, E2, E3, E4. apply lit_app in L1, L2, L3.
  subst s s1 s2 s3 s4 s5 s6.
  repeat first [rewrite string_app_assoc | progress cbn [append]]. reflexivity.
Qed.

Lemma here_lengths (s g1 g2 : string) :
  TimeLine.here s = Some (g1, g2) ->
  (String.length g1 <= String.length s)%nat
  /\ (String.length g2 <= String.length s)%nat.
Proof.
  unfold TimeLine.here.
  destruct (TimeLine.stamp s) as [[a s1]|] eqn:E1; [|discriminate].
  destruct (TimeLine.many1 Py.is_space s1) as [[x s2]|] eqn:E2; [|discriminate].
  destruct (TimeLine.lit "-->" s2) as [s3|] eqn:E3; [|discriminate].
  destruct (TimeLine.many1 Py.is_space s3) as [[y s4]|] eqn:E4; [|discriminate].
  destruct (TimeLine.stamp s4) as [[b s5]|] eqn:E5; [|discriminate].
  intros [= <- <-].
  apply stamp_app in E1, E5. apply many1_app in E2, E4. apply lit_app in E3.
  subst s s1 s2 s3 s4. rewrite !string_length_app. lia.
Qed.

Lemma re_match_lengths (s g1 g2 : string) :
  TimeLine.re_match s = Some (g1, g2) ->
  (String.length g1 <= String.length s)%nat
  /\ (String.length g2 <= String.length s)%nat.
Proof.
  induction s as [|c s IH]; cbn [TimeLine.re_match].
  - destruct (TimeLine.here "") as [[a b]|] eqn:E; [|discriminate].
    intros [= <- <-]. now apply here_lengths in E.
  - destruct (TimeLine.here (String c s)) as [[a b]|] eqn:E.
    + intros [= <- <-]. now apply here_lengths in E.
    + destruct (Ascii.eqb c TimeLine.newline); [discriminate|].
      intros H. apply IH in H. cbn [String.length]. lia.
Qed.

(** ** The parser is lenient *)

Lemma of_int_raises (z : Z) (e : exn) : F64.of_int z = Raise e -> e = OverflowError.
Proof.
  unfold F64.of_int. destruct (binary_normalize _ _ _ _ _); try discriminate.
  now intros [= <-].
Qed.

Lemma stamp_float_raises (h m s ms : Z) (e : exn) :
  stamp_float h m s ms = Raise e -> e = OverflowError.
Proof.
  unfold stamp_float.
  destruct (F64.of_int ms) eqn:E1; simpl; [|intros [= <-]; eauto using of_int_raises].
  destruct (F64.of_int (h * 3600 + m * 60 + s)) eqn:E2; simpl; [discriminate|].
  intros [= <-]. eauto using of_int_raises.
Qed.

Lemma numeral_value_raises (s : string) (e : exn) :
  numeral_value s = Raise e -> e = ValueError /\ long_line s.
Proof.
  unfold numeral_value, long_line.
  destruct (Nat.ltb_spec Py.int_max_str_digits (String.length s)); [|discriminate].
  intros [= <-]. auto.
Qed.

Lemma stamp_to_sec_raises (g : string) (e : exn) :
  is_stamp g -> _srt_time_to_sec g = Raise e ->
  e = OverflowError \/ (e = ValueError /\ long_line g).
Proof.
  intros (h & m & s & ms & Hh & Hm & Hs & Hms & ->).
  rewrite srt_time_to_sec_numerals by assumption.
  assert (L : forall f : string, long_line f ->
                (String.length f <= String.length (stamp_text h m s ms))%nat ->
                long_line (stamp_text h m s ms))
    by (unfold long_line; intros f F1 F2; now apply Nat.lt_le_trans with (1 := F1)).
  assert (Len : String.length (stamp_text h m s ms)
                = (String.length h + (1 + (String.length m
                     + (1 + (String.length s + (1 + String.length ms))))))%nat)
    by (unfold stamp_text; rewrite !string_length_app; reflexivity).
  destruct (numeral_value h) eqn:E1; cbn [bind];
    [|intros [= <-]; apply numeral_value_raises in E1 as [-> F]; right;
      split; [reflexivity|apply (L h F); lia]].
  destruct (numeral_value m) eqn:E2; cbn [bind];
    [|intros [= <-]; apply numeral_value_raises in E2 as [-> F]; right;
      split; [reflexivity|apply (L m F); lia]].
  destruct (numeral_value s) eqn:E3; cbn [bind];
    [|intros [= <-]; apply numeral_value_raises in E3 as [-> F]; right;
      split; [reflexivity|apply (L s F); lia]].
  destruct (numeral_value ms) eqn:E4; cbn [bind];
    [|intros [= <-]; apply numeral_value_raises in E4 as [-> F]; right;
      split; [reflexivity|apply (L ms F); lia]].
  intros H. left. eapply stamp_float_raises, H.
Qed.

Lemma long_line_le (a b : string) :
  long_line a -> (String.length a <= String.length b)%nat -> long_line b.
Proof. unfold long_line. intros H1 H2. now apply Nat.lt_le_trans with (1 := H1). Qed.

Lemma parse_block_raises (block : list string) (e : exn) :
  _parse_block block = Raise e ->
  e = OverflowError \/ (e = ValueError /\ Exists long_line block).
Proof.
  unfold _parse_block. destruct (List.length block <? 3)%nat eqn:Len; [discriminate|].
  apply Nat.ltb_ge in Len.
  destruct (TimeLine.re_match _) as [[g1 g2]|] eqn:E; [|discriminate].
  pose proof (re_match_lengths _ _ _ E) as [L1 L2].
  apply re_match_stamps in E as [S1 S2].
  assert (In_line : In (nth 1 block EmptyString) block) by (apply nth_In; lia).
  assert (Long : forall g, long_line g ->
                   (String.length g <= String.length (nth 1 block EmptyString))%nat ->
                   Exists long_line block).
  { intros g G1 G2. apply Exists_exists. eexists. split; [exact In_line|].
    eapply long_line_le; eassumption. }
  destruct (_srt_time_to_sec g1) eqn:E1; cbn [bind].
  - destruct (_srt_time_to_sec g2) eqn:E2; cbn [bind]; [discriminate|].
    intros [= <-].
    destruct (stamp_to_sec_raises _ _ S2 E2) as [->|[-> G]]; [now left|right].
    split; [reflexivity|eauto].
  - intros [= <-].
    destruct (stamp_to_sec_raises _ _ S1 E1) as [->|[-> G]]; [now left|right].
    split; [reflexivity|eauto].
Qed.

Lemma parse_lines_raises (lines block : list string)
    (entries : list (option entry)) (e : exn) :
  parse_lines lines block entries = Raise e ->
  e = OverflowError \/ (e = ValueError /\ Exists long_line (block ++ lines)%list).
Proof.
  revert block entries.
  induction lines as [|line rest IH]; intros block entries; cbn [parse_lines].
  - rewrite app_nil_r. destruct block as [|b0 block']; [discriminate|].
    destruct (_parse_block _) eqn:E; cbn [bind]; [discriminate|].
    intros [= <-]. eauto using parse_block_raises.
  - destruct (is_blank line).
    + destruct block as [|b0 block'].
      * intros H. apply IH in H as [->|[-> H]]; [now left|right].
        split; [reflexivity|]. cbn [app] in *. now apply Exists_cons_tl.
      * destruct (_parse_block _) eqn:E; cbn [bind].
        -- intros H. apply IH in H as [->|[-> H]]; [now left|right].
           split; [reflexivity|]. cbn [app] in H.
           apply Exists_app. right. now apply Exists_cons_tl.
        -- intros [= <-].
           destruct (parse_block_raises _ _ E) as [->|[-> H]]; [now left|right].
           split; [reflexivity|]. apply Exists_app. now left.
    + intros H. apply IH in H as [->|[-> H]]; [now left|right].
      split; [reflexivity|]. now rewrite <- app_assoc in H.
Qed.

(** X3.  The parser never fails on the shape of a transcript: a block it
    cannot read is dropped.  The exceptions it can raise come from the
    numbers of a stamp: the [OverflowError] of a number beyond the range
    of a float, and the [ValueError] that [int] raises for a number of
    more than 4300 digits, which takes a line longer than 4300
    characters. *)
Theorem parse_srt_raises_only_numeric (lines : list string) (e : exn) :
  _parse_srt lines = Raise e ->
  e = OverflowError \/ (e = ValueError /\ Exists long_line lines).
Proof.
  unfold _parse_srt. destruct (parse_lines lines [] []) eqn:E; cbn [bind]; [discriminate|].
  intros [= <-]. exact (parse_lines_raises _ _ _ _ E).
Qed.

Lemma parse_srt_raises_only_numeric_witness :
  _parse_srt ["1"; huge_numeral ++ ":00:00,000 --> 00:00:01,000"; "text"]
  = Raise OverflowError
  /\ (OverflowError = OverflowError
      \/ (OverflowError = ValueError
          /\ Exists long_line
               ["1"; huge_numeral ++ ":00:00,000 --> 00:00:01,000"; "text"])).
Proof.
  assert (H : _parse_srt ["1"; huge_numeral ++ ":00:00,000 --> 00:00:01,000"; "text"]
              = Raise OverflowError) by (vm_compute; reflexivity).
  exact (conj H (parse_srt_raises_only_numeric _ _ H)).
Defined.

(** Both exceptions occur: a stamp of 4301 digits is refused by [int]. *)
Lemma parse_srt_long_numeral :
  _parse_srt ["1"; endless_numeral ++ ":00:00,000 --> 00:00:01,000"; "text"]
  = Raise ValueError.
Proof. vm_compute. reflexivity. Qed.

Lemma parse_block_some (block : list string) (e : entry) :
  _parse_block block = Ok (Some e) -> (3 <= List.length block)%nat.
Proof.
  unfold _parse_block. destruct (Nat.ltb_spec (List.length block) 3); [discriminate|auto].
Qed.

Lemma drop_nones_app {A : Type} (l1 l2 : list (option A)) :
  drop_nones (l1 ++ l2)%list = (drop_nones l1 ++ drop_nones l2)%list.
Proof.
  induction l1 as [|[a|] l1 IH]; simpl; [reflexivity| |exact IH]. now rewrite IH.
Qed.

Lemma parse_lines_count (lines block : list string)
    (entries out : list (option entry)) :
  parse_lines lines block entries = Ok out ->
  (3 * List.length (drop_nones out)
   <= 3 * List.length (drop_nones entries) + List.length block + inked_lines lines)%nat.
Proof.
  revert block entries.
  induction lines as [|line rest IH]; intros block entries; simpl.
  - destruct block as [|b0 bs].
    + intros [= <-]. simpl. lia.
    + destruct (_parse_block (b0 :: bs)) as [oe|] eqn:E; simpl; [|discriminate].
      intros [= <-]. rewrite drop_nones_app, length_app.
      destruct oe as [e|]; simpl drop_nones; simpl List.length.
      * apply parse_block_some in E. simpl in E. unfold inked_lines. simpl. lia.
      * unfold inked_lines. simpl. lia.
  - unfold inked_lines. simpl filter.
    destruct (is_blank line) eqn:El; simpl negb; cbv iota.
    + destruct block as [|b0 bs].
      * intros H. apply IH in H. unfold inked_lines in H. simpl in *. lia.
      * destruct (_parse_block (b0 :: bs)) as [oe|] eqn:E; simpl; [|discriminate].
        intros H. apply IH in H. unfold inked_lines in H.
        rewrite drop_nones_app, length_app in H.
        destruct oe as [e|]; simpl in H.
        -- apply parse_block_some in E. simpl in E. simpl. lia.
        -- simpl. lia.
    + intros H. apply IH in H. unfold inked_lines in H.
      rewrite length_app in H. simpl in *. lia.
Qed.

(** X4.  Every entry takes at least three lines that are not blank. *)
Theorem parse_srt_entry_count (lines : list string) (entries : list entry) :
  _parse_srt lines = Ok entries ->
  (3 * List.length entries <= inked_lines lines)%nat.
Proof.
  unfold _parse_srt. destruct (parse_lines lines [] []) as [out|] eqn:E; simpl; [|discriminate].
  intros [= <-]. apply parse_lines_count in E. simpl in E. lia.
Qed.

Lemma parse_srt_entry_count_witness :
  exists entries,
    _parse_srt sample_srt = Ok entries
    /\ (3 * List.length entries <= inked_lines sample_srt)%nat.
Proof.
  eexists. split; [vm_compute; reflexivity|].
  apply (parse_srt_entry_count sample_srt). vm_compute. reflexivity.
Defined.

(** ** Blank lines around a transcript *)

Lemma parse_lines_blank_tail (lines extra block : list string)
    (entries : list (option entry)) :
  Forall (fun l => is_blank l = true) extra ->
  parse_lines (lines ++ extra)%list block entries = parse_lines lines block entries.
Proof.
  intros Hx. revert block entries.
  induction lines as [|line rest IH]; intros block entries.
  - simpl app. revert block entries.
    induction Hx as [|x extra Hb _ IHx]; intros block entries; [reflexivity|].
    simpl. rewrite Hb. destruct block as [|b0 bs].
    + rewrite IHx. reflexivity.
    + destruct (_parse_block (b0 :: bs)); simpl; [|reflexivity].
      rewrite IHx. reflexivity.
  - simpl. destruct (is_blank line); [|apply IH].
    destruct block; [apply IH|].
    destruct (_parse_block _); simpl; [apply IH|reflexivity].
Qed.

Lemma parse_lines_blank_head (extra lines : list string)
    (entries : list (option entry)) :
  Forall (fun l => is_blank l = true) extra ->
  parse_lines (extra ++ lines)%list [] entries = parse_lines lines [] entries.
Proof.
  induction 1 as [|x extra Hb _ IH]; [reflexivity|].
  simpl. now rewrite Hb.
Qed.

(** X5.  Blank lines before the first block and after the last one change
    nothing, and a file of blank lines has no entries. *)
Theorem parse_srt_blank_margins (before lines after : list string) :
  Forall (fun l => is_blank l = true) before ->
  Forall (fun l => is_blank l = true) after ->
  _parse_srt (before ++ lines ++ after)%list = _parse_srt lines
  /\ _parse_srt before = Ok [].
Proof.
  intros Hb Ha. unfold _parse_srt. split.
  - now rewrite parse_lines_blank_head, parse_lines_blank_tail.
  - rewrite <- (app_nil_r before), parse_lines_blank_head by assumption.
    reflexivity.
Qed.

Lemma parse_srt_blank_margins_witness :
  _parse_srt ([""; "   "] ++ sample_srt ++ [" "])%list = _parse_srt sample_srt
  /\ _parse_srt [""; "   "] = Ok [].
Proof.
  apply parse_srt_blank_margins; repeat constructor.
Defined.

(** ** Stripped texts *)

Lemma lstrip_head (s : string) :
  match Py.lstrip s with
  | EmptyString => True
  | String c _ => Py.is_space c = false
  end.
Proof.
  induction s as [|c s IH]; simpl; [exact I|].
  destruct (Py.is_space c) eqn:E; [exact IH|exact E].
Qed.

Lemma rstrip_cons (c : ascii) (r : string) :
  Py.rstrip (String c r)
  = match Py.rstrip r with
    | EmptyString => if Py.is_space c then EmptyString else String c EmptyString
    | r' => String c r'
    end.
Proof. reflexivity. Qed.

Lemma rstrip_idem (s : string) : Py.rstrip (Py.rstrip s) = Py.rstrip s.
Proof.
  induction s as [|c s IH]; [reflexivity|].
  rewrite rstrip_cons. destruct (Py.rstrip s) as [|c' s'] eqn:E.
  - destruct (Py.is_space c) eqn:Ec; [reflexivity|].
    rewrite rstrip_cons. simpl. now rewrite Ec.
  - rewrite rstrip_cons, IH. reflexivity.
Qed.

Lemma rstrip_keeps_head (c : ascii) (s : string) :
  Py.is_space c = false -> exists r, Py.rstrip (String c s) = String c r.
Proof.
  intros H. simpl. destruct (Py.rstrip s); [rewrite H|]; eauto.
Qed.

Lemma strip_idem (s : string) : Py.strip (Py.strip s) = Py.strip s.
Proof.
  unfold Py.strip. pose proof (lstrip_head s) as H.
  destruct (Py.lstrip s) as [|c r]; [reflexivity|].
  destruct (rstrip_keeps_head c r H) as [r' E]. rewrite E.
  simpl Py.lstrip. rewrite H. rewrite <- E. apply rstrip_idem.
Qed.

Lemma parse_block_stripped (block : list string) (e : entry) :
  _parse_block block = Ok (Some e) -> Py.strip (e_text e) = e_text e.
Proof.
  unfold _parse_block. destruct (List.length block <? 3)%nat; [discriminate|].
  destruct (TimeLine.re_match _) as [[g1 g2]|]; [|discriminate].
  destruct (_srt_time_to_sec g1); simpl; [|discriminate].
  destruct (_srt_time_to_sec g2); simpl; [|discriminate].
  intros [= <-]. simpl. apply strip_idem.
Qed.

Lemma parse_lines_stripped (lines block : list string)
    (entries out : list (option entry)) :
  Forall (fun oe => forall e, oe = Some e -> Py.strip (e_text e) = e_text e) entries ->
  parse_lines lines block entries = Ok out ->
  Forall (fun oe => forall e, oe = Some e -> Py.strip (e_text e) = e_text e) out.
Proof.
  revert block entries.
  induction lines as [|line rest IH]; intros block entries He; simpl.
  - destruct block as [|b0 bs]; [now intros [= <-]|].
    destruct (_parse_block (b0 :: bs)) as [oe|] eqn:E; simpl; [|discriminate].
    intros [= <-]. apply Forall_app. split; [exact He|].
    constructor; [|constructor]. intros e ->. eauto using parse_block_stripped.
  - destruct (is_blank line); [|now apply IH].
    destruct block as [|b0 bs]; [now apply IH|].
    destruct (_parse_block (b0 :: bs)) as [oe|] eqn:E; simpl; [|discriminate].
    apply IH. apply Forall_app. split; [exact He|].
    constructor; [|constructor]. intros e ->. eauto using parse_block_stripped.
Qed.

(** X6.  The text of a parsed entry has no white space at either end and has
    at least one word. *)
Theorem parsed_text_trimmed (lines : list string) (entries : list entry) :
  _parse_srt lines = Ok entries ->
  Forall (fun e => Py.strip (e_text e) = e_text e
                   /\ (1 <= word_count (e_text e))%nat) entries.
Proof.
  intros H. pose proof (parse_srt_worded _ _ H) as W. revert H. unfold _parse_srt.
  destruct (parse_lines lines [] []) as [out|] eqn:E; simpl; [|discriminate].
  intros [= <-].
  pose proof (parse_lines_stripped _ _ _ _ (Forall_nil _) E) as S.
  clear E. induction out as [|[e|] out IH]; simpl in *.
  - constructor.
  - inversion S as [|? ? S1 S2]; inversion W as [|? ? W1 W2]; subst.
    constructor; [|now apply IH]. split; [now apply S1|].
    unfold word_count, Py.split_ws.
    pose proof (split_ws_from_ink EmptyString _ W1) as N.
    destruct (Py.split_ws_from EmptyString (e_text e)); [congruence|simpl; lia].
  - inversion S; subst. now apply IH.
Qed.

Lemma parsed_text_trimmed_witness :
  exists entries,
    _parse_srt ["1"; "00:00:07,000 --> 00:00:09,000"; "  two words  "] = Ok entries
    /\ Forall (fun e => Py.strip (e_text e) = e_text e
                        /\ (1 <= word_count (e_text e))%nat) entries.
Proof.
  eexists. split; [vm_compute; reflexivity|].
  apply (parsed_text_trimmed ["1"; "00:00:07,000 --> 00:00:09,000"; "  two words  "]).
  vm_compute. reflexivity.
Defined.

Lemma pace_pos (e : entry) : 0 < pace e.
Proof.
  unfold pace, Qdiv. apply Qmult_lt_0_compat.
  - apply inject_Z_pos. lia.
  - apply Qinv_lt_0_compat, pace_floor_pos.
Qed.

Lemma keyword_matches_le (text : string) : (keyword_matches text <= 21)%nat.
Proof.
  unfold keyword_matches. change 21%nat with (List.length KEYWORDS).
  generalize KEYWORDS. intros l.
  induction l as [|kw l IH]; simpl; [lia|].
  destruct (ci_contains kw text); simpl; lia.
Qed.

(** X7.  The score of any entry lies in (0, 22]; it reaches the threshold 0.5
    of the seeding loop exactly when a keyword occurs in the text or the
    pace is at least 1.5 words per second; an entry with a keyword scores
    more than 1. *)
Theorem seed_threshold (e : entry) :
  0 < score_entry e <= 22
  /\ (1 # 2 <= score_entry e <->
      (1 <= keyword_matches (e_text e))%nat \/ 3 # 2 <= pace e)
  /\ (forall kw, In kw KEYWORDS -> ci_contains kw (e_text e) = true ->
                 1 < score_entry e).
Proof.
  pose proof (score_entry_parts e) as E. fold (pace e) in E.
  pose proof (pace_pos e) as P.
  pose proof (keyword_matches_le (e_text e)) as K.
  assert (K0 : 0 <= inject_Z (Z.of_nat (keyword_matches (e_text e))))
    by (change 0 with (inject_Z 0); rewrite <- Zle_Qle; lia).
  assert (K21 : inject_Z (Z.of_nat (keyword_matches (e_text e))) <= 21)
    by (change 21 with (inject_Z 21); rewrite <- Zle_Qle; lia).
  assert (T : pace e / 3 == pace e * (1 # 3)) by field.
  set (third := pace e / 3) in *.
  assert (M0 : 0 < Qmin third 1) by (apply Q.min_glb_lt; lra).
  assert (M1 : Qmin third 1 <= 1) by apply Q.le_min_r.
  assert (K1 : (1 <= keyword_matches (e_text e))%nat ->
               1 <= inject_Z (Z.of_nat (keyword_matches (e_text e))))
    by (intros H; change 1 with (inject_Z 1); rewrite <- Zle_Qle; lia).
  split; [lra|]. split; [split|].
  - intros H. destruct (keyword_matches (e_text e)) as [|n] eqn:Ek; [right|left; lia].
    change (inject_Z (Z.of_nat 0)) with 0 in E.
    destruct (Q.min_spec third 1) as [[_ Hm]|[H1 _]]; lra.
  - intros [H|H]; [specialize (K1 H); lra|].
    assert (1 # 2 <= Qmin third 1) by (apply Q.min_glb; lra). lra.
  - intros kw Hkw Hc.
    assert (1 <= keyword_matches (e_text e))%nat.
    { unfold keyword_matches.
      assert (I : In kw (filter (fun kw => ci_contains kw (e_text e)) KEYWORDS))
        by (apply filter_In; auto).
      destruct (filter _ KEYWORDS); [destruct I|simpl; lia]. }
    specialize (K1 H). lra.
Qed.

Lemma seed_threshold_witness :
  In "best" KEYWORDS /\ ci_contains "best" "Here's the BEST tip" = true
  /\ 1 < score_entry (mkEntry 7 9 "Here's the BEST tip").
Proof.
  assert (H1 : In "best" KEYWORDS) by (do 4 right; left; reflexivity).
  assert (H2 : ci_contains "best" "Here's the BEST tip" = true) by reflexivity.
  exact (conj H1 (conj H2
    (proj2 (proj2 (seed_threshold (mkEntry 7 9 "Here's the BEST tip"))) _ H1 H2))).
Defined.

(** ** The fallback loop ends *)

(** X8.  The fallback loop ends after at most [max (0, M)] turns whatever the
    duration and the target length, zero and negative ones too: more fuel
    than [M] never changes its result, which has at most [max (0, M)]
    windows. *)
Theorem fallback_loop_terminates (d : Q) (L M : Z) (fuel : nat) :
  (Z.to_nat M <= fuel)%nat ->
  chop_loop d L M fuel 0 [] = chop d L M
  /\ (List.length (chop d L M) <= Z.to_nat M)%nat.
Proof.
  intros H. split; [now apply chop_fuel_enough|].
  pose proof (chop_loop_length d L M (Z.to_nat M) 0 [] ltac:(simpl; lia)) as B.
  fold (chop d L M) in B. lia.
Qed.

Lemma fallback_loop_terminates_witness :
  chop_loop 47 0 3 10 0 [] = chop 47 0 3
  /\ (List.length (chop 47 0 3) <= Z.to_nat 3)%nat.
Proof.
  apply fallback_loop_terminates. simpl. lia.
Defined.

Lemma insert_desc_sorted (w : ClipWindow) (l : list ClipWindow) :
  StronglySorted by_score_desc l -> StronglySorted by_score_desc (insert_desc w l).
Proof.
  induction 1 as [|x r Hr IH Hx]; simpl.
  - repeat constructor.
  - destruct (Qltb (score w) (score x)) eqn:E.
    + apply Qltb_lt in E. constructor; [exact IH|].
      eapply Permutation_Forall; [symmetry; apply insert_desc_perm|].
      constructor; [unfold by_score_desc; lra|exact Hx].
    + apply Qltb_ge in E. constructor; [now constructor|].
      constructor; [exact E|].
      eapply Forall_impl; [|exact Hx]. unfold by_score_desc. intros y Hy. lra.
Qed.

Lemma insert_desc_stable (c : Q) (w : ClipWindow) (l : list ClipWindow) :
  with_score c (insert_desc w l) = with_score c (w :: l).
Proof.
  unfold with_score. induction l as [|x r IH]; [reflexivity|].
  simpl insert_desc. destruct (Qltb (score w) (score x)) eqn:E; [|reflexivity].
  apply Qltb_lt in E. simpl filter. simpl filter in IH. rewrite IH.
  destruct (Qeq_bool (score w) c) eqn:Ew; [|reflexivity].
  destruct (Qeq_bool (score x) c) eqn:Ex; [|reflexivity].
  apply Qeq_bool_iff in Ew, Ex. lra.
Qed.

Lemma sort_desc_sorted (l : list ClipWindow) :
  StronglySorted by_score_desc (sort_desc l).
Proof.
  induction l as [|x l IH]; simpl; [constructor|now apply insert_desc_sorted].
Qed.

(** X9.  The sort permutes the windows, puts them in descending order of score
    and keeps the windows of equal score in the order they had. *)
Theorem sort_desc_stable_sort (l : list ClipWindow) :
  Permutation (sort_desc l) l
  /\ StronglySorted by_score_desc (sort_desc l)
  /\ forall c : Q, with_score c (sort_desc l) = with_score c l.
Proof.
  split; [apply sort_desc_perm|]. split.
  - apply sort_desc_sorted.
  - intros c. induction l as [|x l IH]; [reflexivity|].
    simpl sort_desc. rewrite insert_desc_stable.
    unfold with_score in *. simpl. now rewrite IH.
Qed.

Lemma pick_prefix (M : Z) (ws picked : list ClipWindow) :
  exists more, pick M ws picked = (picked ++ more)%list /\ incl more ws.
Proof.
  revert picked. induction ws as [|w ws IH]; intros picked; simpl.
  - exists []. split; [now rewrite app_nil_r|apply incl_refl].
  - destruct (M <=? Z.of_nat (List.length picked))%Z.
    + exists []. split; [now rewrite app_nil_r|apply incl_nil_l].
    + destruct (forallb _ picked).
      * destruct (IH (picked ++ [w])%list) as (more & E & I).
        exists (w :: more). rewrite E, <- app_assoc. split; [reflexivity|].
        apply incl_cons; [now left|now apply incl_tl].
      * destruct (IH picked) as (more & E & I).
        exists more. split; [exact E|now apply incl_tl].
Qed.

Lemma sorted_remove {A : Type} (R : A -> A -> Prop) (l1 l2 : list A) (x : A) :
  StronglySorted R (l1 ++ x :: l2)%list -> StronglySorted R (l1 ++ l2)%list.
Proof.
  induction l1 as [|y l1 IH]; simpl; intros H.
  - now inversion H.
  - inversion H as [|? ? Hs Hf]; subst. constructor; [now apply IH|].
    apply Forall_app in Hf as [F1 F2]. apply Forall_app. split; [exact F1|].
    now inversion F2.
Qed.

Lemma sorted_prefix {A : Type} (R : A -> A -> Prop) (l1 l2 : list A) :
  StronglySorted R (l1 ++ l2)%list -> StronglySorted R l1.
Proof.
  induction l1 as [|y l1 IH]; simpl; intros H; [constructor|].
  inversion H as [|? ? Hs Hf]; subst. constructor; [now apply IH|].
  now apply Forall_app in Hf as [F1 _].
Qed.

Lemma pick_sorted (M : Z) (ws picked : list ClipWindow) :
  StronglySorted by_score_desc (picked ++ ws)%list ->
  StronglySorted by_score_desc (pick M ws picked).
Proof.
  revert picked. induction ws as [|w ws IH]; intros picked H; simpl.
  - now rewrite app_nil_r in H.
  - destruct (M <=? Z.of_nat (List.length picked))%Z;
      [exact (sorted_prefix _ _ _ H)|].
    destruct (forallb _ picked).
    + apply IH. now rewrite <- app_assoc.
    + apply IH. exact (sorted_remove _ _ _ _ H).
Qed.

Lemma pick_complete (M : Z) (ws picked : list ClipWindow) (c : ClipWindow) :
  In c ws ->
  In c (pick M ws picked)
  \/ (exists p, In p (pick M ws picked) /\ overlapping c p)
  \/ (M <= Z.of_nat (List.length (pick M ws picked)))%Z.
Proof.
  revert picked. induction ws as [|w ws IH]; intros picked Hc; [destruct Hc|].
  simpl. destruct (Z.leb_spec M (Z.of_nat (List.length picked))); [auto|].
  destruct (forallb _ picked) eqn:E.
  - destruct Hc as [<-|Hc]; [|now apply IH]. left.
    destruct (pick_prefix M ws (picked ++ [w])%list) as (more & -> & _).
    apply in_or_app. left. apply in_or_app. right. now left.
  - destruct Hc as [<-|Hc]; [|now apply IH]. right. left.
    assert (X : exists p, In p picked /\ _overlap w p (1 # 2) = true).
    { clear -E. induction picked as [|p picked IHp]; simpl in E; [discriminate|].
      destruct (_overlap w p (1 # 2)) eqn:O.
      - exists p. split; [now left|exact O].
      - destruct (IHp E) as (q & Hq & Oq). exists q. split; [now right|exact Oq]. }
    destruct X as (p & Hp & O). exists p. split; [|now apply overlap_spec].
    destruct (pick_prefix M ws picked) as (more & -> & _).
    apply in_or_app. now left.
Qed.

Lemma select_windows_pick (d : Q) (L M : Z) (entries : list sentry) :
  select_windows d L M entries
  = pick M (sort_desc (candidates d L M entries)) [].
Proof.
  unfold select_windows, candidates. now destruct (seeds d L entries).
Qed.

(** X10.  The windows returned are candidates, in descending order of score; and
    a candidate that is not returned overlaps a returned window by half
    of the shorter one or more, unless [M] windows were returned. *)
Theorem select_windows_greedy (d : Q) (L M : Z) (entries : list sentry) :
  let r := select_windows d L M entries in
  incl r (candidates d L M entries)
  /\ StronglySorted by_score_desc r
  /\ forall c, In c (candidates d L M entries) ->
               In c r
               \/ (exists p, In p r /\ overlapping c p)
               \/ (M <= Z.of_nat (List.length r))%Z.
Proof.
  intros r. unfold r. rewrite select_windows_pick.
  pose proof (sort_desc_perm (candidates d L M entries)) as P.
  pose proof (sort_desc_sorted (candidates d L M entries)) as S.
  split; [|split].
  - destruct (pick_prefix M (sort_desc (candidates d L M entries)) [])
      as (more & -> & I).
    simpl. intros x Hx. eapply Permutation_in; [exact P|]. now apply I.
  - now apply pick_sorted.
  - intros c Hc. apply pick_complete.
    eapply Permutation_in; [symmetry; exact P|exact Hc].
Qed.

Lemma select_windows_greedy_witness :
  let scored := [mkScored (mkEntry 7 9 "tip") (7 # 6);
                 mkScored (mkEntry 8 10 "hack") (7 # 6)] in
  let c := seed 47 15 scored (mkScored (mkEntry 8 10 "hack") (7 # 6)) in
  In c (candidates 47 15 6 scored)
  /\ (In c (select_windows 47 15 6 scored)
      \/ (exists p, In p (select_windows 47 15 6 scored) /\ overlapping c p)
      \/ (6 <= Z.of_nat (List.length (select_windows 47 15 6 scored)))%Z).
Proof.
  intros scored c.
  assert (H : In c (candidates 47 15 6 scored)) by (right; left; reflexivity).
  exact (conj H (proj2 (proj2 (select_windows_greedy 47 15 6 scored)) c H)).
Defined.

(** X11.  When a candidate exists and [M >= 1], the first window returned is a
    candidate of the highest score. *)
Theorem select_windows_best_first (d : Q) (L M : Z) (entries : list sentry) :
  (1 <= M)%Z -> candidates d L M entries <> [] ->
  exists w rest,
    select_windows d L M entries = w :: rest
    /\ In w (candidates d L M entries)
    /\ forall c, In c (candidates d L M entries) -> score c <= score w.
Proof.
  intros HM Hne. rewrite select_windows_pick.
  pose proof (sort_desc_perm (candidates d L M entries)) as P.
  pose proof (sort_desc_sorted (candidates d L M entries)) as S.
  destruct (sort_desc (candidates d L M entries)) as [|w ws] eqn:E.
  - apply Permutation_nil in P. congruence.
  - simpl. destruct (Z.leb_spec M 0); [lia|].
    destruct (pick_prefix M ws [w]) as (more & -> & _).
    exists w, more. split; [reflexivity|]. split.
    + eapply Permutation_in; [exact P|now left].
    + intros c Hc. apply (Permutation_in c (Permutation_sym P)) in Hc.
      destruct Hc as [<-|Hc]; [apply Qle_refl|].
      inversion S as [|? ? _ F]; subst. rewrite Forall_forall in F. now apply F.
Qed.

Lemma select_windows_best_first_witness :
  let scored := [mkScored (mkEntry 7 9 "tip") (7 # 6);
                 mkScored (mkEntry 40 44 "the worst mistake") (9 # 4)] in
  exists w rest,
    select_windows 47 15 6 scored = w :: rest
    /\ In w (candidates 47 15 6 scored)
    /\ forall c, In c (candidates 47 15 6 scored) -> score c <= score w.
Proof.
  intros scored. apply select_windows_best_first; [lia|discriminate].
Defined.

(** ** The overlap test *)

(** X12.  The overlap test does not depend on the order of its two windows; a
    window overlaps itself; two windows of positive width, one ending
    where or before the other starts, do not overlap; a window of width
    0 or more overlaps every window it lies in. *)
Theorem overlap_test_facts (a b : ClipWindow) (frac : Q) :
  _overlap a b frac = _overlap b a frac
  /\ _overlap a a (1 # 2) = true
  /\ (start a < end_ a -> start b < end_ b -> end_ a <= start b ->
      _overlap a b (1 # 2) = false)
  /\ (start a <= end_ a -> start b <= start a -> end_ a <= end_ b ->
      _overlap a b (1 # 2) = true).
Proof.
  split; [|split; [|split]].
  - unfold _overlap. apply Qleb_comp.
    + now rewrite Q.min_comm.
    + now rewrite (Q.min_comm (end_ a)), (Q.max_comm (start a)).
  - apply overlap_spec, weq_overlapping, weq_refl.
  - intros Ha Hb Hab. apply not_true_iff_false. intros O.
    apply overlap_spec in O. revert O.
    unfold overlapping, inter_len, dur. qmax_cases; lra.
  - intros Ha Hs He. apply overlap_spec.
    unfold overlapping, inter_len, dur. qmax_cases; lra.
Qed.

Lemma overlap_test_facts_witness :
  _overlap (mkClipWindow 0 15 1) (mkClipWindow 15 30 1) (1 # 2) = false
  /\ _overlap (mkClipWindow 5 10 1) (mkClipWindow 0 15 1) (1 # 2) = true.
Proof.
  split.
  - apply (proj1 (proj2 (proj2 (overlap_test_facts
             (mkClipWindow 0 15 1) (mkClipWindow 15 30 1) (1 # 2)))));
      [reflexivity|reflexivity|discriminate].
  - apply (proj2 (proj2 (proj2 (overlap_test_facts
             (mkClipWindow 5 10 1) (mkClipWindow 0 15 1) (1 # 2)))));
      discriminate.
Defined.

Lemma seed_score (d : Q) (L : Z) (entries : list sentry) (e : sentry) :
  score (seed d L entries e)
  = fold_left (seed_score_step (start (seed d L entries e))
                               (end_ (seed d L entries e))) entries 0.
Proof.
  unfold seed. destruct (Qltb d _); reflexivity.
Qed.

Lemma seed_score_step_ge (a b : Q) (l : list sentry) (acc : Q) :
  Forall (fun s : sentry => 0 <= e_score s) l ->
  acc <= fold_left (seed_score_step a b) l acc.
Proof.
  intros H. revert acc. induction H as [|s l Hs _ IH]; intros acc; simpl.
  - apply Qle_refl.
  - eapply Qle_trans; [|apply IH]. unfold seed_score_step.
    destruct (_ || _); lra.
Qed.

Lemma seed_score_step_member (a b : Q) (l : list sentry) (acc : Q) (e : sentry) :
  Forall (fun s : sentry => 0 <= e_score s) l ->
  In e l -> a <= e_end e -> e_start e <= b ->
  acc + e_score e <= fold_left (seed_score_step a b) l acc.
Proof.
  intros H. revert acc. induction H as [|s l Hs Hl IH]; intros acc Hin Ha Hb.
  - destruct Hin.
  - simpl. destruct Hin as [->|Hin].
    + eapply Qle_trans; [|apply seed_score_step_ge; exact Hl].
      unfold seed_score_step.
      apply Qltb_ge in Ha, Hb. rewrite Ha, Hb. simpl. apply Qle_refl.
    + eapply Qle_trans; [|apply IH; assumption].
      unfold seed_score_step. destruct (_ || _); lra.
Qed.

(** X13.  When no score is negative and the target length is not, the
    candidate seeded by an entry that starts within the duration and does
    not end before 0 counts that entry: its aggregate score is at least
    the score of the entry. *)
Theorem seed_counts_its_entry (d : Q) (L : Z) (entries : list sentry) (e : sentry) :
  (0 <= L)%Z ->
  Forall (fun s : sentry => 0 <= e_score s) entries ->
  In e entries ->
  e_start e <= e_end e -> 0 <= e_end e -> e_start e <= d ->
  e_score e <= score (seed d L entries e).
Proof.
  intros HL Hpos Hin Hse He Hd.
  assert (HL' : 0 <= inject_Z L)
    by (change 0 with (inject_Z 0); now rewrite <- Zle_Qle).
  rewrite seed_score.
  eapply Qle_trans; [|apply seed_score_step_member with (e := e); try assumption].
  - lra.
  - set (s0 := Qmax 0 ((e_start e + e_end e) / 2 - inject_Z L / 2)).
    assert (Hs0 : s0 <= e_end e).
    { unfold s0. apply Q.max_lub; [exact He|].
      assert (T : (e_start e + e_end e) / 2 == (e_start e + e_end e) * (1 # 2)) by field.
      assert (T' : inject_Z L / 2 == inject_Z L * (1 # 2)) by field.
      lra. }
    destruct (Qlt_le_dec d (s0 + inject_Z L)) as [H|H].
    + destruct (seed_clamped d L entries e H) as [-> _].
      apply Q.max_lub; [exact He|]. lra.
    + destruct (seed_unclamped d L entries e H) as [-> _]. exact Hs0.
  - set (s0 := Qmax 0 ((e_start e + e_end e) / 2 - inject_Z L / 2)).
    destruct (Qlt_le_dec d (s0 + inject_Z L)) as [H|H].
    + destruct (seed_clamped d L entries e H) as [_ ->]. exact Hd.
    + destruct (seed_unclamped d L entries e H) as [_ ->]. fold s0.
      assert (Hs0 : (e_start e + e_end e) / 2 - inject_Z L / 2 <= s0)
        by apply Q.le_max_r.
      assert (T : (e_start e + e_end e) / 2 == (e_start e + e_end e) * (1 # 2)) by field.
      assert (T' : inject_Z L / 2 == inject_Z L * (1 # 2)) by field.
      lra.
Qed.

Lemma seed_counts_its_entry_witness :
  let e := mkScored (mkEntry 7 9 "tip") (7 # 6) in
  e_score e <= score (seed 100 15 [e] e).
Proof.
  intros e. apply seed_counts_its_entry; try discriminate.
  - constructor; [discriminate|constructor].
  - left. reflexivity.
Defined.

Lemma render_loop_all_ok (encoder : RenderJob -> Z) (w h : Z) (vf : string)
    (clips : list ClipWindow) :
  forall (idx : nat) (manifest : list ManifestEntry) (ran : list RenderJob),
    Forall (fun j => encoder j = 0%Z) (jobs_from vf idx clips) ->
    render_loop encoder w h vf clips idx manifest ran
    = ((ran ++ jobs_from vf idx clips)%list,
       Ok (manifest ++ manifest_from w h idx clips)%list).
Proof.
  induction clips as [|clip rest IH]; intros idx manifest ran H; simpl.
  - now rewrite !app_nil_r.
  - inversion H as [|? ? H1 H2]; subst. unfold run. rewrite H1. simpl.
    rewrite IH by exact H2. now rewrite <- !app_assoc.
Qed.

Lemma jobs_from_length (vf : string) (idx : nat) (clips : list ClipWindow) :
  List.length (jobs_from vf idx clips) = List.length clips.
Proof.
  revert idx. induction clips as [|c r IH]; intros idx; simpl;
    [reflexivity|now rewrite IH].
Qed.

Lemma manifest_from_length (w h : Z) (idx : nat) (clips : list ClipWindow) :
  List.length (manifest_from w h idx clips) = List.length clips.
Proof.
  revert idx. induction clips as [|c r IH]; intros idx; simpl;
    [reflexivity|now rewrite IH].
Qed.

(** X14.  When the subtitle track is written and the encoder exits with status
    0 for every job, the batch hands the encoder one job per clip, in the
    order of the clips, and returns one manifest entry per clip, in that
    order too, numbered from 1, with the dimensions of the aspect
    filter. *)
Theorem render_all_succeed (encoder : RenderJob -> Z) (srt : list string)
    (clips : list ClipWindow) (aspect style ass : string) :
  _srt_to_ass srt style = Ok ass ->
  let w := fst (fst (_aspect_filter aspect)) in
  let h := snd (fst (_aspect_filter aspect)) in
  let planned := jobs_from (snd (_aspect_filter aspect)) 1 clips in
  Forall (fun j => encoder j = 0%Z) planned ->
  render_clips_with_captions encoder srt clips aspect style
  = (planned, Ok (manifest_from w h 1 clips))
  /\ List.length planned = List.length clips
  /\ List.length (manifest_from w h 1 clips) = List.length clips.
Proof.
  intros Hass w h planned Hok. split; [|split].
  - unfold render_clips_with_captions. rewrite Hass.
    unfold w, h, planned in *.
    destruct (_aspect_filter aspect) as [[w' h'] vf]. cbn [fst snd] in *.
    rewrite (render_loop_all_ok encoder w' h' vf clips 1 [] [] Hok).
    reflexivity.
  - apply jobs_from_length.
  - apply manifest_from_length.
Qed.

Lemma render_all_succeed_witness :
  render_clips_with_captions (fun _ => 0%Z) []
    [mkClipWindow 0 15 1; mkClipWindow 15 30 1] "1:1" "default"
  = (jobs_from (snd (_aspect_filter "1:1")) 1 [mkClipWindow 0 15 1; mkClipWindow 15 30 1],
     Ok (manifest_from 1080 1080 1 [mkClipWindow 0 15 1; mkClipWindow 15 30 1])).
Proof.
  refine (proj1 (render_all_succeed (fun _ => 0%Z) []
                   [mkClipWindow 0 15 1; mkClipWindow 15 30 1] "1:1" "default" _ _ _)).
  - vm_compute. reflexivity.
  - repeat constructor.
Defined.

(** ** The trim of a job *)

(** X15.  The encoder never gets a negative seek offset nor a length below a
    tenth of a second; for a window that starts at 0 or later and lasts a
    tenth of a second or more, it gets the start and the length of the
    window. *)
Theorem render_job_trim (vf : string) (idx : nat) (clip : ClipWindow) :
  0 <= job_ss (job_of vf idx clip)
  /\ 1 # 10 <= job_t (job_of vf idx clip)
  /\ (0 <= start clip -> 1 # 10 <= end_ clip - start clip ->
      job_ss (job_of vf idx clip) == start clip
      /\ job_t (job_of vf idx clip) == end_ clip - start clip).
Proof.
  simpl. split; [apply Q.le_max_l|]. split; [apply Q.le_max_l|].
  intros H1 H2. split; now apply Q.max_r.
Qed.

Lemma render_job_trim_witness :
  job_ss (job_of "" 1 (mkClipWindow 45 47 1)) == 45
  /\ job_t (job_of "" 1 (mkClipWindow 45 47 1)) == 47 - 45.
Proof.
  apply (proj2 (proj2 (render_job_trim "" 1 (mkClipWindow 45 47 1))));
    discriminate.
Defined.

(** ** The names of the clips *)

Lemma append_inv_tail (a b s : string) : a ++ s = b ++ s -> a = b.
Proof.
  revert b. induction a as [|c a IH]; intros [|c' b] H; simpl in H.
  - reflexivity.
  - exfalso. apply (f_equal String.length) in H. simpl in H.
    rewrite string_length_app in H. lia.
  - exfalso. apply (f_equal String.length) in H. simpl in H.
    rewrite string_length_app in H. lia.
  - injection H as -> H. f_equal. now apply IH.
Qed.

Lemma job_out_index (vf vf' : string) (i j : nat) (c c' : ClipWindow) :
  job_out (job_of vf i c) = job_out (job_of vf' j c') -> i = j.
Proof.
  simpl. intros H. injection H as H. apply append_inv_tail in H.
  destruct (format_d_numeral 2 (Z.of_nat i) ltac:(lia)) as [_ Vi].
  destruct (format_d_numeral 2 (Z.of_nat j) ltac:(lia)) as [_ Vj].
  rewrite H in Vi. lia.
Qed.

Lemma jobs_from_index (vf : string) (clips : list ClipWindow) (idx : nat)
    (job : RenderJob) :
  In job (jobs_from vf idx clips) ->
  exists k c, (idx <= k)%nat /\ job = job_of vf k c.
Proof.
  revert idx. induction clips as [|c r IH]; intros idx; simpl; [intros []|].
  intros [<-|H]; [now exists idx, c|].
  destruct (IH (S idx) H) as (k & c' & Hk & ->). exists k, c'. split; [lia|reflexivity].
Qed.

(** X16.  The clips of a batch get pairwise different file names, however many
    they are: no job writes over the output of another. *)
Theorem render_names_distinct (vf : string) (idx : nat) (clips : list ClipWindow) :
  NoDup (map job_out (jobs_from vf idx clips)).
Proof.
  revert idx. induction clips as [|c r IH]; intros idx; simpl; constructor.
  - intros H. apply in_map_iff in H as (job & E & Hj).
    apply jobs_from_index in Hj as (k & c' & Hk & ->).
    apply (job_out_index vf vf k idx c' c) in E. lia.
  - apply IH.
Qed.

(** ** Rounding to thousandths *)

Lemma round_half_even_near (x : Q) :
  Qabs (inject_Z (round_half_even x) - x) <= 1 # 2.
Proof.
  unfold round_half_even.
  pose proof (Qfloor_le x) as F1. pose proof (Qlt_floor x) as F2.
  rewrite inject_Z_plus in F2. change (inject_Z 1) with 1 in F2.
  apply Qabs_Qle_condition.
  destruct (Qltb (x - inject_Z (Qfloor x)) (1 # 2)) eqn:E1.
  - apply Qltb_lt in E1. lra.
  - apply Qltb_ge in E1.
    destruct (Qltb (1 # 2) (x - inject_Z (Qfloor x))) eqn:E2.
    + rewrite inject_Z_plus. change (inject_Z 1) with 1. lra.
    + apply Qltb_ge in E2. destruct (Z.even (Qfloor x)).
      * lra.
      * rewrite inject_Z_plus. change (inject_Z 1) with 1. lra.
Qed.

(** X17.  A manifest time is within half a millisecond of the time of its
    window, and a whole number of milliseconds is kept as it is. *)
Theorem round3_accuracy (x : Q) (n : Z) :
  Qabs (round3 x - x) <= 1 # 2000
  /\ round3 (inject_Z n / 1000) == inject_Z n / 1000.
Proof.
  split.
  - unfold round3. pose proof (round_half_even_near (x * 1000)) as H.
    apply Qabs_Qle_condition in H. apply Qabs_Qle_condition.
    set (r := inject_Z (round_half_even (x * 1000))) in *.
    assert (T : r / 1000 == r * (1 # 1000)) by field. lra.
  - unfold round3.
    assert (E : inject_Z n / 1000 * 1000 == inject_Z n) by field.
    assert (R : round_half_even (inject_Z n / 1000 * 1000) = n).
    { unfold round_half_even. rewrite (Qfloor_comp _ _ E), Qfloor_Z.
      replace (Qltb _ (1 # 2)) with true; [reflexivity|].
      symmetry. apply Qltb_lt. lra. }
    now rewrite R.
Qed.

(** ** Styles and aspects *)

Lemma ass_header_any (style_name : string) :
  _ass_header style_name = _ass_header "default".
Proof.
  assert (E : dict_get ASS_STYLES style_name default_style = default_style).
  { unfold ASS_STYLES. cbn [dict_get].
    destruct (String.eqb "default" style_name); reflexivity. }
  unfold _ass_header. rewrite E. reflexivity.
Qed.

(** X18.  Any style name gives the header of the default style, which names
    its one style [Default]: the only key of the style table is
    ["default"], and an unknown name falls back to it without an
    error. *)
Theorem ass_header_fallback (style_name : string) :
  _ass_header style_name = _ass_header "default"
  /\ Py.contains "Style: Default,Arial Black,48," (_ass_header style_name) = true.
Proof.
  rewrite ass_header_any. split; reflexivity.
Qed.

(** X19.  Whatever the aspect asked for, the filter scales to and crops to the
    very dimensions returned with it, which are 1080x1920 for ["9:16"],
    1080x1080 for ["1:1"] and 1920x1080 for anything else. *)
Theorem aspect_filter_consistent (aspect : string) :
  let w := fst (fst (_aspect_filter aspect)) in
  let h := snd (fst (_aspect_filter aspect)) in
  snd (_aspect_filter aspect)
  = "scale=" ++ decimal w ++ ":" ++ decimal h
    ++ ":force_original_aspect_ratio=increase,crop=" ++ decimal w ++ ":" ++ decimal h
  /\ (aspect = "9:16" -> (w, h) = (1080, 1920)%Z)
  /\ (aspect = "1:1" -> (w, h) = (1080, 1080)%Z)
  /\ (aspect <> "9:16" -> aspect <> "1:1" -> (w, h) = (1920, 1080)%Z).
Proof.
  unfold _aspect_filter.
  destruct (String.eqb_spec aspect "9:16") as [->|N1].
  - repeat split; try reflexivity; try discriminate. congruence.
  - destruct (String.eqb_spec aspect "1:1") as [->|N2].
    + repeat split; try reflexivity; try discriminate. congruence.
    + repeat split; try reflexivity; congruence.
Qed.

Lemma aspect_filter_consistent_witness :
  (fst (fst (_aspect_filter "4:3")), snd (fst (_aspect_filter "4:3")))
  = (1920, 1080)%Z.
Proof.
  apply (proj2 (proj2 (proj2 (aspect_filter_consistent "4:3")))); discriminate.
Defined.

Lemma count_char_app (c : ascii) (a b : string) :
  count_char c (a ++ b) = (count_char c a + count_char c b)%nat.
Proof.
  induction a as [|x a IH]; simpl; [reflexivity|]. rewrite IH. lia.
Qed.

Lemma count_newline_digits (s : string) :
  all_digits s = true -> count_char TimeLine.newline s = 0%nat.
Proof.
  induction s as [|c s IH]; simpl; [reflexivity|].
  intros H. apply andb_true_iff in H as [Hc Hs].
  rewrite (digit_not_char c TimeLine.newline Hc eq_refl). now apply IH.
Qed.

Lemma count_newline_format_d (width : nat) (z : Z) :
  count_char TimeLine.newline (format_d width z) = 0%nat.
Proof.
  unfold format_d. rewrite !count_char_app.
  destruct (decimal_numeral (Z.abs z) (Z.abs_nonneg z)) as [[_ D] _].
  rewrite (count_newline_digits _ D), (count_newline_digits _ (zeros_digits _)).
  destruct (z <? 0)%Z; reflexivity.
Qed.

Lemma count_newline_to_ass_time (t : Q) :
  count_char TimeLine.newline (to_ass_time t) = 0%nat.
Proof.
  unfold to_ass_time. rewrite !count_char_app, !count_newline_format_d. reflexivity.
Qed.

Lemma count_replace_self (c : ascii) (by_ s : string) :
  count_char c by_ = 0%nat -> count_char c (replace_char c by_ s) = 0%nat.
Proof.
  intros H. induction s as [|a s IH]; simpl; [reflexivity|].
  destruct (Ascii.eqb a c) eqn:E.
  - now rewrite count_char_app, H, IH.
  - simpl. now rewrite E, IH.
Qed.

Lemma count_replace_other (c x : ascii) (by_ s : string) :
  Ascii.eqb x c = false -> count_char c by_ = 0%nat ->
  count_char c (replace_char x by_ s) = count_char c s.
Proof.
  intros N H. induction s as [|a s IH]; simpl; [reflexivity|].
  destruct (Ascii.eqb a x) eqn:E.
  - apply Ascii.eqb_eq in E. subst a. rewrite N.
    now rewrite count_char_app, H, IH.
  - simpl. now rewrite IH.
Qed.

Lemma sanitized_no_newline (text : string) :
  count_char TimeLine.newline (sanitized text) = 0%nat.
Proof.
  unfold sanitized.
  rewrite !count_replace_other by reflexivity.
  now apply count_replace_self.
Qed.

Lemma escape_pass (after : bool) (s : string) :
  braces_escaped after
    (replace_char "}" "\}" (replace_char "{" "\{" s)) = true.
Proof.
  revert after. induction s as [|c s IH]; intros after; [reflexivity|].
  simpl replace_char at 2.
  destruct (Ascii.eqb c "{") eqn:E1.
  - simpl. apply IH.
  - simpl replace_char. destruct (Ascii.eqb c "}") eqn:E2.
    + simpl. apply IH.
    + simpl. rewrite E1, E2. simpl. apply IH.
Qed.

Lemma dialogue_newlines (e : entry) :
  count_char TimeLine.newline (dialogue e) = 1%nat.
Proof.
  unfold dialogue. fold (sanitized (e_text e)).
  rewrite !count_char_app, !count_newline_to_ass_time, sanitized_no_newline.
  reflexivity.
Qed.

(** X20.  A dialogue line is one line, whatever the text of the entry holds:
    its only line break is the one that ends it; and in its text every
    brace is escaped by a backslash. *)
Theorem dialogue_one_line (e : entry) :
  dialogue e
  = "Dialogue: 0," ++ to_ass_time (e_start e) ++ "," ++ to_ass_time (e_end e)
    ++ ",Default,,0,0,0,," ++ sanitized (e_text e) ++ nl
  /\ count_char TimeLine.newline (dialogue e) = 1%nat
  /\ braces_escaped false (sanitized (e_text e)) = true.
Proof.
  split; [reflexivity|]. split.
  - apply dialogue_newlines.
  - unfold sanitized. apply escape_pass.
Qed.

Lemma concat_empty_cons (x : string) (l : list string) :
  String.concat "" (x :: l) = x ++ String.concat "" l.
Proof.
  destruct l as [|y l]; [|reflexivity].
  simpl. induction x as [|c x IH]; simpl; [reflexivity|now rewrite <- IH].
Qed.

Lemma count_concat_dialogue (entries : list entry) :
  count_char TimeLine.newline (String.concat "" (map dialogue entries))
  = List.length entries.
Proof.
  induction entries as [|e r IH]; [reflexivity|].
  cbn [map List.length]. rewrite concat_empty_cons, count_char_app, IH.
  now rewrite dialogue_newlines.
Qed.

(** X21.  The subtitle track has the eleven lines of its header and one line per
    entry of the transcript. *)
Theorem srt_to_ass_line_count (srt : list string) (style doc : string) :
  _srt_to_ass srt style = Ok doc ->
  exists entries,
    _parse_srt srt = Ok entries
    /\ count_char TimeLine.newline doc = (11 + List.length entries)%nat.
Proof.
  unfold _srt_to_ass. destruct (_parse_srt srt) as [entries|]; cbn [bind]; [|discriminate].
  intros E.
  assert (D : doc = _ass_header style ++ String.concat "" (map dialogue entries))
    by congruence.
  exists entries. split; [reflexivity|]. rewrite D.
  rewrite count_char_app, count_concat_dialogue, ass_header_any.
  reflexivity.
Qed.

Lemma srt_to_ass_line_count_witness :
  exists doc entries,
    _srt_to_ass sample_srt "default" = Ok doc
    /\ _parse_srt sample_srt = Ok entries
    /\ count_char TimeLine.newline doc = (11 + List.length entries)%nat.
Proof.
  assert (H : exists doc, _srt_to_ass sample_srt "default" = Ok doc)
    by (eexists; vm_compute; reflexivity).
  destruct H as [doc H]. exists doc.
  destruct (srt_to_ass_line_count sample_srt "default" doc H) as (entries & E & C).
  exists entries. exact (conj H (conj E C)).
Defined.

(** ** The time line of a written block is read back *)

Lemma span_run (a rest : string) :
  all_digits a = true -> stops Py.is_digit rest ->
  TimeLine.span Py.is_digit (a ++ rest) = (a, rest).
Proof.
  intros Ha Hr. induction a as [|c a IH]; simpl in *.
  - destruct rest as [|x rest]; [reflexivity|]. simpl in *. now rewrite Hr.
  - apply andb_true_iff in Ha as [Hc Ha]. rewrite Hc, IH by exact Ha. reflexivity.
Qed.

Lemma many1_run (a rest : string) :
  numeral a -> stops Py.is_digit rest ->
  TimeLine.many1 Py.is_digit (a ++ rest) = Some (a, rest).
Proof.
  intros [Hne Ha] Hr. unfold TimeLine.many1. rewrite span_run by assumption.
  destruct a; [congruence|reflexivity].
Qed.

Lemma stamp_accepts (g rest : string) :
  is_stamp g -> stops Py.is_digit rest ->
  TimeLine.stamp (g ++ rest) = Some (g, rest).
Proof.
  intros (h & m & s & ms & Hh & Hm & Hs & Hms & ->) Hr.
  unfold stamp_text. rewrite !string_app_assoc. unfold TimeLine.stamp.
  rewrite (many1_run h) by (assumption || reflexivity). cbn [String.append TimeLine.lit].
  rewrite Ascii.eqb_refl.
  rewrite (many1_run m) by (assumption || reflexivity). cbn [String.append TimeLine.lit].
  rewrite Ascii.eqb_refl.
  rewrite (many1_run s) by (assumption || reflexivity). cbn [String.append TimeLine.lit].
  rewrite Ascii.eqb_refl.
  rewrite (many1_run ms) by assumption. reflexivity.
Qed.

Lemma stamp_starts_with_digit (g : string) :
  is_stamp g -> exists c r, g = String c r /\ Py.is_digit c = true.
Proof.
  intros (h & m & s & ms & [Hne Hh] & _ & _ & _ & ->).
  destruct h as [|c h]; [congruence|]. simpl in Hh.
  apply andb_true_iff in Hh as [Hc _]. exists c. eexists. split; [reflexivity|exact Hc].
Qed.

Lemma many1_one_space (rest : string) :
  stops Py.is_space rest ->
  TimeLine.many1 Py.is_space (String " " rest) = Some (" ", rest).
Proof.
  intros H. unfold TimeLine.many1. cbn [TimeLine.span].
  change (Py.is_space " ") with true. cbv iota.
  destruct rest as [|c rest]; [reflexivity|]. simpl in H.
  cbn [TimeLine.span]. rewrite H. reflexivity.
Qed.

Lemma lit_accepts (l s : string) : TimeLine.lit l (l ++ s) = Some s.
Proof.
  induction l as [|c l IH]; simpl; [now destruct s|].
  now rewrite Ascii.eqb_refl.
Qed.

Lemma string_app_nil_r (s : string) : s ++ "" = s.
Proof. induction s as [|c s IH]; simpl; [reflexivity|now rewrite IH]. Qed.

Lemma re_match_here (s : string) (groups : string * string) :
  TimeLine.here s = Some groups -> TimeLine.re_match s = Some groups.
Proof.
  intros H. destruct s as [|c s]; [vm_compute in H; discriminate|].
  change (TimeLine.re_match (String c s))
    with (match TimeLine.here (String c s) with
          | Some found => Some found
          | None => if Ascii.eqb c TimeLine.newline then None
                    else TimeLine.re_match s
          end).
  now rewrite H.
Qed.

(** A line made of two stamps around [" --> "] matches the pattern, and
    the two groups are the two stamps. *)
Lemma re_match_accepts (g1 g2 : string) :
  is_stamp g1 -> is_stamp g2 ->
  TimeLine.re_match (g1 ++ " --> " ++ g2) = Some (g1, g2).
Proof.
  intros H1 H2.
  assert (E : TimeLine.here (g1 ++ " --> " ++ g2) = Some (g1, g2)).
  { unfold TimeLine.here. rewrite (stamp_accepts g1) by (assumption || reflexivity).
    change (" --> " ++ g2) with (String " " ("-->" ++ String " " g2)).
    rewrite many1_one_space by reflexivity. rewrite lit_accepts.
    destruct (stamp_starts_with_digit g2 H2) as (c & r & E2 & Hc).
    rewrite many1_one_space by (rewrite E2; simpl; now apply digit_not_space).
    rewrite <- (string_app_nil_r g2) at 1.
    rewrite (stamp_accepts g2 "") by (assumption || exact I). reflexivity. }
  now apply re_match_here.
Qed.

Lemma plain_app (a b : string) : plain (a ++ b) = plain a && plain b.
Proof.
  induction a as [|c a IH]; simpl; [reflexivity|]. now rewrite IH, andb_assoc.
Qed.

Lemma plain_digits (s : string) : all_digits s = true -> plain s = true.
Proof.
  induction s as [|c s IH]; simpl; [reflexivity|]. intros H.
  apply andb_true_iff in H as [Hc Hs].
  rewrite (digit_not_char c TimeLine.newline Hc eq_refl),
    (digit_not_char c carriage_return Hc eq_refl), IH by exact Hs. reflexivity.
Qed.

Lemma plain_stamp (g : string) : is_stamp g -> plain g = true.
Proof.
  intros (h & m & s & ms & [_ Hh] & [_ Hm] & [_ Hs] & [_ Hms] & ->).
  unfold stamp_text. rewrite !plain_app.
  rewrite (plain_digits h), (plain_digits m), (plain_digits s), (plain_digits ms)
    by assumption.
  reflexivity.
Qed.

Lemma file_lines_line (a rest : string) :
  plain a = true -> file_lines (a ++ nl ++ rest) = a :: file_lines rest.
Proof.
  intros H. induction a as [|c a IH].
  - reflexivity.
  - simpl in H. apply andb_true_iff in H as [Hc Ha].
    apply negb_true_iff, orb_false_iff in Hc as [C1 C2].
    change ((String c a) ++ nl ++ rest) with (String c (a ++ nl ++ rest)).
    cbn [file_lines]. rewrite C1, C2, IH by exact Ha. reflexivity.
Qed.

Lemma sec_to_srt_time_stamp (t : Q) : 0 <= t -> is_stamp (_sec_to_srt_time t).
Proof.
  intros Ht. destruct (sec_to_srt_time_text t Ht) as (Hs & Hms & E).
  rewrite E.
  exists (format_d 2 (Qfloor t / 3600)),
         (format_d 2 ((Qfloor t / 60) mod 60)),
         (format_d 2 (Qfloor t mod 60)),
         (format_d 3 (Qfloor (F64.round ((t - inject_Z (Qfloor t)) * 1000)))).
  split; [apply format_d_numeral, Z.div_pos; lia|].
  split; [apply format_d_numeral, Z.mod_pos_bound; lia|].
  split; [apply format_d_numeral, Z.mod_pos_bound; lia|].
  split; [apply format_d_numeral; exact Hms|reflexivity].
Qed.

Lemma numeral_ink (s : string) : numeral s -> has_ink s = true.
Proof.
  intros [Hne H]. destruct s as [|c s]; [congruence|]. simpl in *.
  apply andb_true_iff in H as [Hc _]. now rewrite (digit_not_space c Hc).
Qed.

Lemma ink_not_blank (s : string) : has_ink s = true -> is_blank s = false.
Proof.
  intros H. unfold is_blank. rewrite <- has_ink_strip in H.
  destruct (Py.strip s); [discriminate|reflexivity].
Qed.

Section OneBlock.

Variable i : nat.
Variable seg : segment.
Hypothesis seg_ok : writable seg.

Lemma block_lines_plain :
  plain (format_d 0 (Z.of_nat i + 1)) = true
  /\ plain (time_line seg) = true
  /\ plain (Py.strip (seg_text seg)) = true.
Proof.
  destruct seg_ok as (H0 & H1 & _ & Hp). split; [|split].
  - apply plain_digits, format_d_numeral. lia.
  - unfold time_line. rewrite !plain_app.
    rewrite (plain_stamp (_sec_to_srt_time (seg_start seg))),
      (plain_stamp (_sec_to_srt_time (seg_end seg)))
      by now apply sec_to_srt_time_stamp.
    reflexivity.
  - exact Hp.
Qed.

Lemma block_lines_inked :
  is_blank (format_d 0 (Z.of_nat i + 1)) = false
  /\ is_blank (time_line seg) = false
  /\ is_blank (Py.strip (seg_text seg)) = false.
Proof.
  destruct seg_ok as (H0 & H1 & Hi & _).
  split; [|split]; apply ink_not_blank.
  - apply numeral_ink, format_d_numeral. lia.
  - unfold time_line.
    destruct (stamp_starts_with_digit _ (sec_to_srt_time_stamp _ H0)) as (c & r & -> & Hc).
    simpl. now rewrite (digit_not_space c Hc).
  - now rewrite has_ink_strip.
Qed.

Lemma parse_block_lines :
  _parse_block (block_lines i seg) = e <- reread seg ;; Ok (Some e).
Proof.
  destruct seg_ok as (H0 & H1 & _ & _).
  unfold _parse_block, block_lines, reread. cbn [List.length Nat.ltb Nat.leb nth skipn].
  unfold time_line. rewrite re_match_accepts by now apply sec_to_srt_time_stamp.
  destruct (_srt_time_to_sec (_sec_to_srt_time (seg_start seg))); cbn [bind]; [|reflexivity].
  destruct (_srt_time_to_sec (_sec_to_srt_time (seg_end seg))); cbn [bind]; [|reflexivity].
  cbn [Py.join]. now rewrite strip_idem.
Qed.

(** The three lines of a block, followed by the end of the file or by a
    blank line, give the entry of the block. *)
Lemma parse_lines_block (rest : list string) (entries : list (option entry)) :
  parse_lines (block_lines i seg ++ "" :: rest)%list [] entries
  = e <- reread seg ;; parse_lines rest [] (entries ++ [Some e])%list.
Proof.
  destruct block_lines_inked as (B1 & B2 & B3). pose proof parse_block_lines as P.
  unfold block_lines in *.
  cbn [app parse_lines]. rewrite B1, B2, B3.
  change (is_blank "") with true. cbv iota. cbn [app].
  rewrite P. destruct (reread seg); reflexivity.
Qed.

Lemma parse_lines_last_block (entries : list (option entry)) :
  parse_lines (block_lines i seg) [] entries
  = e <- reread seg ;; Ok (entries ++ [Some e])%list.
Proof.
  destruct block_lines_inked as (B1 & B2 & B3). pose proof parse_block_lines as P.
  unfold block_lines in *.
  cbn [app parse_lines]. rewrite B1, B2, B3. cbn [app].
  rewrite P. destruct (reread seg); reflexivity.
Qed.

Lemma file_lines_block (rest : string) :
  file_lines (srt_lines_of i seg ++ rest) = (block_lines i seg ++ file_lines rest)%list.
Proof.
  destruct block_lines_plain as (B1 & B2 & B3).
  assert (E : srt_lines_of i seg ++ rest
              = format_d 0 (Z.of_nat i + 1) ++ nl ++ time_line seg ++ nl
                ++ Py.strip (seg_text seg) ++ nl ++ rest).
  { unfold srt_lines_of, time_line. cbv zeta. now rewrite !string_app_assoc. }
  rewrite E. unfold block_lines.
  rewrite file_lines_line by exact B1.
  rewrite file_lines_line by exact B2.
  rewrite file_lines_line by exact B3. reflexivity.
Qed.

End OneBlock.

Lemma file_lines_transcript (segments : list segment) (i : nat) :
  Forall writable segments ->
  file_lines (Py.join nl (map (fun p => srt_lines_of (fst p) (snd p))
                              (enumerate_from i segments)))
  = srt_file_lines i segments.
Proof.
  intros H. revert i. induction H as [|seg rest Hs Hr IH]; intros i; [reflexivity|].
  destruct rest as [|seg' rest'].
  - cbn [enumerate_from map Py.join fst snd srt_file_lines].
    rewrite <- (string_app_nil_r (srt_lines_of i seg)).
    rewrite file_lines_block by exact Hs. apply app_nil_r.
  - specialize (IH (S i)).
    change (Py.join nl (map (fun p => srt_lines_of (fst p) (snd p))
                            (enumerate_from i (seg :: seg' :: rest'))))
      with (srt_lines_of i seg ++ nl
            ++ Py.join nl (map (fun p => srt_lines_of (fst p) (snd p))
                               (enumerate_from (S i) (seg' :: rest')))).
    rewrite file_lines_block by exact Hs.
    change (file_lines (nl ++ ?x)) with (EmptyString :: file_lines x).
    cbn [srt_file_lines]. f_equal. f_equal. exact IH.
Qed.

Lemma parse_file_lines (segments : list segment) (i : nat)
    (entries : list (option entry)) :
  Forall writable segments ->
  parse_lines (srt_file_lines i segments) [] entries
  = es <- map_res reread segments ;; Ok (entries ++ map Some es)%list.
Proof.
  intros H. revert i entries.
  induction H as [|seg rest Hs Hr IH]; intros i entries.
  - simpl. now rewrite app_nil_r.
  - destruct rest as [|seg' rest'].
    + cbn [srt_file_lines map_res]. rewrite parse_lines_last_block by exact Hs.
      destruct (reread seg); reflexivity.
    + change (srt_file_lines i (seg :: seg' :: rest'))
        with (block_lines i seg ++ "" :: srt_file_lines (S i) (seg' :: rest'))%list.
      rewrite parse_lines_block by exact Hs.
      change (map_res reread (seg :: seg' :: rest'))
        with (y <- reread seg ;; ys <- map_res reread (seg' :: rest') ;; Ok (y :: ys)).
      destruct (reread seg) as [e|]; cbn [bind]; [|reflexivity].
      rewrite IH. destruct (map_res reread (seg' :: rest')); cbn [bind]; [|reflexivity].
      cbn [map]. now rewrite <- app_assoc.
Qed.

Lemma drop_nones_somes {A : Type} (l : list A) : drop_nones (map Some l) = l.
Proof. induction l as [|x l IH]; simpl; [reflexivity|now rewrite IH]. Qed.

Lemma map_res_shape (segments : list segment) (entries : list entry) :
  map_res reread segments = Ok entries ->
  map e_text entries = map (fun seg => Py.strip (seg_text seg)) segments.
Proof.
  revert entries. induction segments as [|seg rest IH]; intros entries; simpl.
  - now intros [= <-].
  - unfold reread at 1.
    destruct (_srt_time_to_sec (_sec_to_srt_time (seg_start seg))); cbn [bind]; [|discriminate].
    destruct (_srt_time_to_sec (_sec_to_srt_time (seg_end seg))); cbn [bind]; [|discriminate].
    destruct (map_res reread rest) as [es|]; cbn [bind]; [|discriminate].
    intros [= <-]. simpl. f_equal. now apply IH.
Qed.

(** X1.  A transcript written from segments whose times are not negative and
    whose stripped texts have a word and no line break is read back
    entry for entry: one entry per segment, in order, with the stripped
    text of the segment and the times its two stamps convert to. *)
Theorem transcribe_round_trip (segments : list segment) :
  Forall writable segments ->
  _parse_srt (file_lines (transcribe_to_srt segments)) = map_res reread segments
  /\ forall entries,
       _parse_srt (file_lines (transcribe_to_srt segments)) = Ok entries ->
       List.length entries = List.length segments
       /\ map e_text entries = map (fun seg => Py.strip (seg_text seg)) segments.
Proof.
  intros H.
  assert (E : _parse_srt (file_lines (transcribe_to_srt segments))
              = map_res reread segments).
  { unfold _parse_srt, transcribe_to_srt.
    rewrite file_lines_transcript, parse_file_lines by exact H.
    destruct (map_res reread segments) as [es|]; cbn [bind]; [|reflexivity].
    cbn [app]. now rewrite drop_nones_somes. }
  split; [exact E|]. intros entries He. rewrite E in He.
  apply map_res_shape in He. split; [|exact He].
  apply (f_equal (@List.length string)) in He. now rewrite !length_map in He.
Qed.

Lemma transcribe_round_trip_witness :
  let segments := [mkSegment 1 (5 # 2) " Hello there "; mkSegment (7 # 2) 4 "tip"] in
  _parse_srt (file_lines (transcribe_to_srt segments)) = map_res reread segments.
Proof.
  intros segments. apply transcribe_round_trip.
  repeat constructor; discriminate.
Defined.

